(** * index-js: the perception-action loop, embedded and verified

    A shallow embedding of the parts of the browser agent that its
    specification makes claims about:

    - [src/browser/utils.ts]: rectangle geometry, overlap filtering and the
      reading-order sort of interactive elements (the element resolver);
    - [src/browser/browser.ts]: the state synchronizer ([updateState] and
      [_updateState]) together with the retry loop of the
      exponential-backoff package it is wrapped in;
    - [src/agent/messageManager.ts]: the conversation log and its
      cache-control bookkeeping;
    - [src/agent/agent.ts]: one agent step and the batch / streaming loops.

    JavaScript numbers are modelled as exact rationals ([Q]); integer-valued
    fields that the code only ever copies or compares ([zIndex], [index])
    are [Z] and [nat].  Promises are run to completion in program order. *)

From Stdlib Require Import QArith Qabs Qminmax Lqa Permutation Sorted.
From stdpp Require Import base list sorting gmap strings pretty.

Set Default Proof Using "Type".
Local Open Scope Q_scope.

(** ** Numbers *)

Definition Qlt_bool (x y : Q) : bool := negb (Qle_bool y x).

#[global] Instance Q_eq_dec : EqDecision Q.
Proof. solve_decision. Defined.

(** ** Data model ([src/browser/models.ts]) *)

Module Rect.
Record t : Type := mk
  { left : Q; top : Q; right : Q; bottom : Q; width : Q; height : Q }.
End Rect.

#[global] Instance Rect_eq_dec : EqDecision Rect.t.
Proof. solve_decision. Defined.

Record Coordinates : Type := mkCoordinates
  { x : Q; y : Q; c_width : option Q; c_height : option Q }.

#[global] Instance Coordinates_eq_dec : EqDecision Coordinates.
Proof. solve_decision. Defined.

Record InteractiveElement : Type := mkInteractiveElement
  { index : nat;
    tagName : string;
    text : string;
    attributes : gmap string string;
    viewport : Coordinates;
    page : Coordinates;
    center : Coordinates;
    weight : Q;
    browserAgentId : string;
    inputType : option string;
    rect : Rect.t;
    zIndex : Z }.

#[global] Instance InteractiveElement_eq_dec : EqDecision InteractiveElement.
Proof. solve_decision. Defined.

(** [sortedElements[i].index = i] on a value. *)
Definition set_index (e : InteractiveElement) (i : nat) : InteractiveElement :=
  {| index := i; tagName := tagName e; text := text e;
     attributes := attributes e; viewport := viewport e; page := page e;
     center := center e; weight := weight e;
     browserAgentId := browserAgentId e; inputType := inputType e;
     rect := rect e; zIndex := zIndex e |}.

(** ** Geometry ([src/browser/utils.ts]) *)

Definition calculateIou (rect1 rect2 : Rect.t) : Q :=
  let intersectLeft := Qmax (Rect.left rect1) (Rect.left rect2) in
  let intersectTop := Qmax (Rect.top rect1) (Rect.top rect2) in
  let intersectRight := Qmin (Rect.right rect1) (Rect.right rect2) in
  let intersectBottom := Qmin (Rect.bottom rect1) (Rect.bottom rect2) in
  if Qlt_bool intersectRight intersectLeft || Qlt_bool intersectBottom intersectTop
  then 0
  else
    let area1 := (Rect.right rect1 - Rect.left rect1) * (Rect.bottom rect1 - Rect.top rect1) in
    let area2 := (Rect.right rect2 - Rect.left rect2) * (Rect.bottom rect2 - Rect.top rect2) in
    let intersectionArea := (intersectRight - intersectLeft) * (intersectBottom - intersectTop) in
    let unionArea := area1 + area2 - intersectionArea in
    if Qlt_bool 0 unionArea then intersectionArea / unionArea else 0.

Definition isFullyContained (rect1 rect2 : Rect.t) : bool :=
  Qle_bool (Rect.left rect2) (Rect.left rect1)
  && Qle_bool (Rect.right rect1) (Rect.right rect2)
  && Qle_bool (Rect.top rect2) (Rect.top rect1)
  && Qle_bool (Rect.bottom rect1) (Rect.bottom rect2).

(** ** [Array.prototype.sort] with a comparator

    The sort of the language is stable; for a consistent comparator its
    result is the stable sorted arrangement, computed here by insertion:
    [compareFn a b > 0] is the only case in which [b] moves in front of an
    [a] that preceded it. *)

Section JsSort.
Context {T : Type} (compareFn : T -> T -> Q).

Fixpoint sort_insert (a : T) (l : list T) : list T :=
  match l with
  | [] => [a]
  | b :: l' =>
      if Qlt_bool 0 (compareFn a b) then b :: sort_insert a l' else a :: l
  end.

Definition js_sort (l : list T) : list T := foldr sort_insert [] l.

(** [a] may stay in front of [b]. *)
Definition precedes (a b : T) : Prop := compareFn a b <= 0.
(** [a] has to come before [b]. *)
Definition strictly_precedes (a b : T) : Prop := compareFn a b < 0.

(** No two different entries compare equal. *)
Definition tie_free (l : list T) : Prop :=
  NoDup l /\ forall a b, a ∈ l -> b ∈ l -> compareFn a b == 0 -> a = b.
End JsSort.

(** ** Exchanging neighbours

    [swaps Q l l']: [l'] is reached from [l] by exchanging, one after the
    other, two neighbours [a], [b] (in this order) for which [Q a b]. *)

Section Swaps.
Context {T : Type} (Q : T -> T -> Prop).

Inductive swaps : list T -> list T -> Prop :=
  | swaps_refl l : swaps l l
  | swaps_step l1 a b l2 l' :
      Q a b -> swaps (l1 ++ b :: a :: l2) l' -> swaps (l1 ++ a :: b :: l2) l'.
End Swaps.

(** ** The element resolver, over any representation of an element

    The algorithms read an element only through [el]; they are run on
    element values ([el := id]) and on references into a store of element
    objects. *)

Section Resolver.
Context {T : Type} (el : T -> InteractiveElement).

Definition area (a : T) : Q :=
  Rect.width (rect (el a)) * Rect.height (rect (el a)).

(** The comparator of [filterOverlappingElements]. *)
Definition byAreaThenWeight (a b : T) : Q :=
  let areaA := area a in
  let areaB := area b in
  if negb (Qeq_bool areaB areaA) then areaB - areaA
  else weight (el b) - weight (el a).

(** The inner [for] loop over [filteredElements], started at position [i]
    with [filtered] the elements from [i] on.  The result is [shouldAdd]
    and the elements from [i] on when the loop is left. *)
Fixpoint checkAgainst (iouThreshold : Q) (current : T) (filtered : list T)
  : bool * list T :=
  match filtered with
  | [] => (true, [])
  | existing :: rest =>
      let iou := calculateIou (rect (el current)) (rect (el existing)) in
      if Qlt_bool iouThreshold iou then (false, filtered)
      else if isFullyContained (rect (el current)) (rect (el existing)) then
        if Qle_bool (weight (el current)) (weight (el existing))
           && Z.eqb (zIndex (el existing)) (zIndex (el current))
        then (false, filtered)
        else if Qle_bool (area existing * (1 # 2)) (area current)
        then (true, rest)
        else let '(shouldAdd, rest') := checkAgainst iouThreshold current rest in
             (shouldAdd, existing :: rest')
      else let '(shouldAdd, rest') := checkAgainst iouThreshold current rest in
           (shouldAdd, existing :: rest')
  end.

(** One iteration of the outer loop. *)
Definition considerCandidate (iouThreshold : Q) (filteredElements : list T)
    (current : T) : list T :=
  let '(shouldAdd, filteredElements') :=
    checkAgainst iouThreshold current filteredElements in
  if shouldAdd then filteredElements' ++ [current] else filteredElements'.

(** The contents of the caller's array once the function has returned. *)
Definition sortedByArea (elements : list T) : list T :=
  js_sort byAreaThenWeight elements.

Definition filterOverlappingElements (elements : list T) (iouThreshold : Q)
  : list T :=
  match elements with
  | [] => []
  | _ => fold_left (considerCandidate iouThreshold) (sortedByArea elements) []
  end.

Definition ROW_THRESHOLD : Q := 20.

Definition byTop (a b : T) : Q := Rect.top (rect (el a)) - Rect.top (rect (el b)).
Definition byLeft (a b : T) : Q := Rect.left (rect (el a)) - Rect.left (rect (el b)).

(** [Math.abs(element.rect.top - lastElement.rect.top) <= ROW_THRESHOLD] *)
Definition sameRowb (lastElement element : T) : bool :=
  Qle_bool (Qabs (Rect.top (rect (el element)) - Rect.top (rect (el lastElement))))
           ROW_THRESHOLD.

(** One iteration of the grouping loop on the state [(rows, currentRow)]. *)
Definition groupStep (st : list (list T) * list T) (element : T)
  : list (list T) * list T :=
  let '(rows, currentRow) := st in
  match last currentRow with
  | None => (rows, [element])
  | Some lastElement =>
      if sameRowb lastElement element
      then (rows, currentRow ++ [element])
      else (rows ++ [currentRow], [element])
  end.

Definition groupRows (sortedByY : list T) : list (list T) :=
  let '(rows, currentRow) := fold_left groupStep sortedByY ([], []) in
  match currentRow with
  | [] => rows
  | _ => rows ++ [currentRow]
  end.

(** [rows.flat()] after each row has been sorted by its left edge. *)
Definition positionOrder (elements : list T) : list T :=
  let sortedByY := js_sort byTop elements in
  concat (map (js_sort byLeft) (groupRows sortedByY)).
(** The order the comparator of the overlap filter stands for: larger
    area first, and among equal areas larger weight first. *)
Definition area_then_weight_desc (a b : T) : Prop :=
  area b < area a
  \/ (area a == area b /\ weight (el b) <= weight (el a)).

(** ** The rules a candidate is checked against *)

Definition nearDuplicate (iouThreshold : Q) (current existing : T) : Prop :=
  iouThreshold < calculateIou (rect (el current)) (rect (el existing)).

Definition containedIn (current existing : T) : Prop :=
  isFullyContained (rect (el current)) (rect (el existing)) = true.

(** The container has equal-or-greater weight and the same z-index. *)
Definition containerOutranks (current existing : T) : Prop :=
  weight (el current) <= weight (el existing)
  /\ zIndex (el existing) = zIndex (el current).

Definition atLeastHalf (current existing : T) : Prop :=
  area existing * (1 # 2) <= area current.

(** [existing] settles the fate of [current]. *)
Definition decides (iouThreshold : Q) (current existing : T) : Prop :=
  nearDuplicate iouThreshold current existing
  \/ (containedIn current existing
      /\ (containerOutranks current existing \/ atLeastHalf current existing)).
(** No two different entries agree on both area and weight, the two keys
    the overlap filter sorts by. *)
Definition distinct_sort_keys (elements : list T) : Prop :=
  NoDup elements
  /\ forall a b, a ∈ elements -> b ∈ elements ->
       area a == area b -> weight (el a) == weight (el b) -> a = b.

(** Two elements with the same top and left edge: the reading order has
    no way to tell them apart. *)
Definition samePosition (a b : T) : Prop :=
  Rect.top (rect (el a)) == Rect.top (rect (el b))
  /\ Rect.left (rect (el a)) == Rect.left (rect (el b)).

(** No entry is decided by a different one. *)
Definition conflict_free (iouThreshold : Q) (elements : list T) : Prop :=
  forall c e, c ∈ elements -> e ∈ elements -> c <> e ->
    ~ decides iouThreshold c e.

(** *** The rows, as the reading-order rule describes them

    The elements are taken in the order given; an element joins the current
    row if its top edge is within the tolerance of the element added last,
    else it starts a new row.  [splitRows previous l] is the rest of the row
    that [previous] was added to, and the rows after it. *)

Definition sameRow (a b : T) : Prop :=
  Qabs (Rect.top (rect (el b)) - Rect.top (rect (el a))) <= ROW_THRESHOLD.

Fixpoint splitRows (previous : T) (l : list T) : list T * list (list T) :=
  match l with
  | [] => ([], [])
  | element :: l' =>
      let '(row, rows) := splitRows element l' in
      if sameRowb previous element then (element :: row, rows)
      else ([], (element :: row) :: rows)
  end.

Definition rowsOf (l : list T) : list (list T) :=
  match l with
  | [] => []
  | first :: l' => let '(row, rows) := splitRows first l' in (first :: row) :: rows
  end.

(** Neighbours within a row are within the tolerance of each other. *)
Fixpoint chained (row : list T) : Prop :=
  match row with
  | a :: (b :: _) as row' => sameRow a b /\ chained row'
  | _ => True
  end.

(** A row ends where the next element is out of the tolerance. *)
Fixpoint separated (rows : list (list T)) : Prop :=
  match rows with
  | row1 :: (row2 :: _) as rows' =>
      (forall a b, last row1 = Some a -> head row2 = Some b -> ~ sameRow a b)
      /\ separated rows'
  | _ => True
  end.

Definition top_ascending (a b : T) : Prop :=
  Rect.top (rect (el a)) <= Rect.top (rect (el b)).

Definition left_ascending (a b : T) : Prop :=
  Rect.left (rect (el a)) <= Rect.left (rect (el b)).
End Resolver.

(** *** On element values *)

Definition reindex (sortedElements : list InteractiveElement) : list InteractiveElement :=
  imap (fun i e => set_index e i) sortedElements.

Definition sortElementsByPosition (elements : list InteractiveElement)
  : list InteractiveElement :=
  match elements with
  | [] => []
  | _ => reindex (positionOrder id elements)
  end.

Definition filterElements (elements : list InteractiveElement) (iouThreshold : Q)
  : list InteractiveElement :=
  let filtered := filterOverlappingElements id elements iouThreshold in
  sortElementsByPosition filtered.

Definition defaultIouThreshold : Q := 7 # 10.


(** ** Elements used in the worked examples *)

Definition rectOf (l t r b : Q) : Rect.t := Rect.mk l t r b (r - l) (b - t).

Definition origin : Coordinates := mkCoordinates 0 0 None None.

Definition elementOf (name : string) (w : Q) (z : Z) (r : Rect.t)
  : InteractiveElement :=
  {| index := 0; tagName := "div"; text := name; attributes := ∅;
     viewport := origin; page := origin; center := origin; weight := w;
     browserAgentId := name; inputType := None; rect := r; zIndex := z |}.

(** A 100x100 container of low weight, a 65x100 neighbour sticking out of it
    on the left, and a 60x100 child of high weight inside both. *)
Definition ex_container : InteractiveElement := elementOf "container" 1 0 (rectOf 0 0 100 100).
Definition ex_neighbour : InteractiveElement := elementOf "neighbour" 1 0 (rectOf (-5) 0 60 100).
Definition ex_child : InteractiveElement := elementOf "child" 5 0 (rectOf 0 0 60 100).

(** Three 20x10 boxes, at y = 0, y = 15 and y = 30. *)
Definition ex_y0 : InteractiveElement := elementOf "y0" 1 0 (rectOf 40 0 60 10).
Definition ex_y15 : InteractiveElement := elementOf "y15" 1 0 (rectOf 0 15 20 25).
Definition ex_y30 : InteractiveElement := elementOf "y30" 1 0 (rectOf 0 30 20 40).

(** Two boxes of the same size and weight, one shifted by five pixels. *)
Definition ex_twin_a : InteractiveElement := elementOf "first" 1 0 (rectOf 0 0 100 100).
Definition ex_twin_b : InteractiveElement := elementOf "second" 1 0 (rectOf 5 0 105 100).

(** Three boxes of different sizes that do not touch. *)
Definition ex_menu : InteractiveElement := elementOf "menu" 1 0 (rectOf 0 0 100 20).
Definition ex_button : InteractiveElement := elementOf "button" 1 0 (rectOf 60 50 100 70).
Definition ex_link : InteractiveElement := elementOf "link" 1 0 (rectOf 0 55 30 65).

(** ** Positions as tags

    The entries of a list paired with their positions, which tells equal
    entries apart; forgetting the position gives the list back. *)

Definition tagged (l : list InteractiveElement) : list (nat * InteractiveElement) :=
  imap (fun i e => (i, e)) l.

Definition untag (d : nat * InteractiveElement) : InteractiveElement := d.2.

(** The place of a tagged entry in a list, and the entry with that place
    written into its [index] field. *)
Definition positionIn (l : list (nat * InteractiveElement))
    (d : nat * InteractiveElement) : nat :=
  default 0%nat (fst <$> list_find (fun d' => d' = d) l).

Definition relabel (l : list (nat * InteractiveElement))
    (d : nat * InteractiveElement) : InteractiveElement :=
  set_index (untag d) (positionIn l d).

(** ** The resolver on element objects

    The functions of [utils.ts] receive arrays of references to element
    objects.  [objects] holds the fields of every object; an array is the
    list of the references it contains.  [filterOverlappingElements] sorts
    the array it is given in place, and [sortElementsByPosition] assigns to
    the [index] field of the objects in its result. *)

#[global] Instance InteractiveElement_inhabited : Inhabited InteractiveElement :=
  populate (elementOf "" 0 0 (rectOf 0 0 0 0)).

Definition deref (objects : gmap nat InteractiveElement) (r : nat)
  : InteractiveElement := objects !!! r.

(** The caller's array after the call, and the array returned. *)
Definition filterOverlappingElements_obj (objects : gmap nat InteractiveElement)
    (elements : list nat) (iouThreshold : Q) : list nat * list nat :=
  match elements with
  | [] => ([], [])
  | _ =>
      let sorted := sortedByArea (deref objects) elements in
      (sorted, fold_left (considerCandidate (deref objects) iouThreshold) sorted [])
  end.

(** [for (let i = 0; ...) sortedElements[i].index = i], from position [i] on. *)
Fixpoint assignIndices (i : nat) (sortedElements : list nat)
    (objects : gmap nat InteractiveElement) : gmap nat InteractiveElement :=
  match sortedElements with
  | [] => objects
  | r :: rest => assignIndices (S i) rest (alter (fun e => set_index e i) r objects)
  end.

Definition sortElementsByPosition_obj (objects : gmap nat InteractiveElement)
    (elements : list nat) : gmap nat InteractiveElement * list nat :=
  match elements with
  | [] => (objects, [])
  | _ =>
      let sortedElements := positionOrder (deref objects) elements in
      (assignIndices 0 sortedElements objects, sortedElements)
  end.

(** The objects and the caller's array after the call, and the array
    returned. *)
Definition filterElements_obj (objects : gmap nat InteractiveElement)
    (elements : list nat) (iouThreshold : Q)
  : gmap nat InteractiveElement * list nat * list nat :=
  let '(elements', filtered) :=
    filterOverlappingElements_obj objects elements iouThreshold in
  let '(objects', sortedElements) := sortElementsByPosition_obj objects filtered in
  (objects', elements', sortedElements).


(** * The state synchronizer ([src/browser/browser.ts]) *)

Record TabInfo : Type := mkTabInfo
  { pageId : nat; tabUrl : string; title : string }.

Module Viewport.
Record t : Type := mk
  { width : Q; height : Q; scrollX : Q; scrollY : Q; devicePixelRatio : Q;
    scrollDistanceAboveViewport : Q; scrollDistanceBelowViewport : Q }.

(** [new Viewport()] *)
Definition new : t := mk 1024 768 0 0 1 0 0.
End Viewport.

Module BrowserState.
Record t : Type := mk
  { url : string;
    tabs : list TabInfo;
    viewport : Viewport.t;
    interactiveElements : gmap nat InteractiveElement;
    screenshotWithHighlights : option string;
    screenshot : option string }.
End BrowserState.

(** An [Error], by its message. *)
Definition Error : Type := string.

(** What one run of the body of the [try] block of [_updateState] obtains
    from the page, the detectors and the annotator when none of them throws:
    the URL, the screenshot, the detected elements with their viewport, the
    highlighted screenshot and the tab list. *)
Record Capture : Type := mkCapture
  { capturedUrl : string;
    capturedScreenshot : string;
    capturedElements : list InteractiveElement;
    capturedViewport : option Viewport.t;
    capturedHighlights : string;
    capturedTabs : list TabInfo }.

(** The part of a [Browser] object the synchronizer works on, together with
    a record of what it has done so far: how many capture cycles it has
    started and for how long, in milliseconds, it has slept between them. *)
Record Browser : Type := mkBrowser
  { state : option BrowserState.t;
    cycles : nat;
    waited : list Q }.

Definition initState (url : string) : BrowserState.t :=
  {| BrowserState.url := url;
     BrowserState.tabs := [];
     BrowserState.viewport := Viewport.new;
     BrowserState.interactiveElements := ∅;
     BrowserState.screenshotWithHighlights := None;
     BrowserState.screenshot := None |}.

(** The constructor calls [initState()]. *)
Definition newBrowser : Browser :=
  {| state := Some (initState ""); cycles := 0; waited := [] |}.

(** [close()] ends with [this.state = undefined]. *)
Definition close (b : Browser) : Browser :=
  {| state := None; cycles := cycles b; waited := waited b |}.

(** [for (const element of ...) interactiveElements[element.index] = element] *)
Definition indexElements (elements : list InteractiveElement)
  : gmap nat InteractiveElement :=
  fold_left (fun m element => <[index element := element]> m) elements ∅.

Definition assembleState (c : Capture) : BrowserState.t :=
  {| BrowserState.url := capturedUrl c;
     BrowserState.tabs := capturedTabs c;
     BrowserState.viewport := default Viewport.new (capturedViewport c);
     BrowserState.interactiveElements := indexElements (capturedElements c);
     BrowserState.screenshotWithHighlights := Some (capturedHighlights c);
     BrowserState.screenshot := Some (capturedScreenshot c) |}.

Section Synchronizer.
(** The page: the outcome of the capture cycle started as the [k]-th one,
    given the state held at that moment. *)
Context (cycle : nat -> option BrowserState.t -> Error + Capture).

Definition _updateState (b : Browser) : Browser * (Error + BrowserState.t) :=
  let started := {| state := state b; cycles := S (cycles b); waited := waited b |} in
  match cycle (cycles b) (state b) with
  | inr c =>
      let s := assembleState c in
      ({| state := Some s; cycles := cycles started; waited := waited started |},
       inr s)
  | inl e =>
      match state started with
      | Some s => (started, inr s)
      | None => (started, inl e)
      end
  end.

(** Modelled from the spec: [backOff] of the exponential-backoff package,
    which the sources import but do not contain.  The request is attempted
    up to [numOfAttempts] times, one attempt after the other; the first
    attempt is not delayed unless [delayFirstAttempt] is set, and the sleep
    before a delayed attempt is [startingDelay] times [timeMultiple] to the
    number of delayed attempts before it.  A failed attempt is followed by
    another only if [retry] says so and attempts are left; otherwise its
    error is thrown. *)
Record BackoffOptions : Type := mkBackoffOptions
  { numOfAttempts : nat;
    startingDelay : Q;
    timeMultiple : Q;
    delayFirstAttempt : bool;
    retry : Error -> nat -> bool }.

Definition sleep (ms : Q) (b : Browser) : Browser :=
  {| state := state b; cycles := cycles b; waited := waited b ++ [ms] |}.

Definition applyDelay (options : BackoffOptions) (attemptNumber : nat) (b : Browser)
  : Browser :=
  if delayFirstAttempt options
  then sleep (startingDelay options * timeMultiple options ^ Z.of_nat attemptNumber) b
  else match attemptNumber with
       | O => b
       | S delayed =>
           sleep (startingDelay options * timeMultiple options ^ Z.of_nat delayed) b
       end.

(** The loop of [backOff], with [attemptsLeft] attempts left after the one
    about to be made. *)
Fixpoint backOff_from (options : BackoffOptions)
    (request : Browser -> Browser * (Error + BrowserState.t))
    (attemptsLeft attemptNumber : nat) (b : Browser)
  : Browser * (Error + BrowserState.t) :=
  match request (applyDelay options attemptNumber b) with
  | (b', inr s) => (b', inr s)
  | (b', inl e) =>
      match attemptsLeft with
      | O => (b', inl e)
      | S attemptsLeft' =>
          if retry options e (S attemptNumber)
          then backOff_from options request attemptsLeft' (S attemptNumber) b'
          else (b', inl e)
      end
  end.

Definition backOff (request : Browser -> Browser * (Error + BrowserState.t))
    (options : BackoffOptions) (b : Browser) : Browser * (Error + BrowserState.t) :=
  backOff_from options request (Nat.pred (Nat.max 1 (numOfAttempts options))) 0 b.

Definition updateStateOptions : BackoffOptions :=
  {| numOfAttempts := 3;
     startingDelay := 500;
     timeMultiple := 3 # 2;
     delayFirstAttempt := false;
     retry := fun _ _ => true |}.

Definition updateState (b : Browser) : Browser * (Error + BrowserState.t) :=
  match backOff _updateState updateStateOptions b with
  | (b', inr s) =>
      ({| state := Some s; cycles := cycles b'; waited := waited b' |}, inr s)
  | (b', inl e) => (b', inl e)
  end.

(** [getState()] is [this.state!]. *)
Definition getState (b : Browser) : option BrowserState.t := state b.
End Synchronizer.

(** Pages used in the examples: one on which every capture cycle fails, and
    one on which the first two fail and the third succeeds. *)
Definition ex_capture : Capture :=
  {| capturedUrl := "https://example.com/";
     capturedScreenshot := "png";
     capturedElements := [ex_menu];
     capturedViewport := None;
     capturedHighlights := "png+";
     capturedTabs := [mkTabInfo 0 "https://example.com/" "Example"] |}.

Definition ex_page_down : nat -> option BrowserState.t -> Error + Capture :=
  fun _ _ => inl "Target closed".

Definition ex_page_flaky : nat -> option BrowserState.t -> Error + Capture :=
  fun k _ => if (k <? 2)%nat then inl "Target closed" else inr ex_capture.

(** A browser that holds the snapshot taken by an earlier cycle. *)
Definition ex_browser_with_snapshot : Browser :=
  {| state := Some (assembleState ex_capture); cycles := 1; waited := [] |}.

(** * The conversation ([src/llm.ts], [src/agent/messageManager.ts]) *)

Inductive MessageRole : Type := SYSTEM | USER | ASSISTANT | TOOL.

#[global] Instance MessageRole_eq_dec : EqDecision MessageRole.
Proof. solve_decision. Defined.

(** A content part, by its [type]; [cacheControl] is the optional marker
    every part may carry: [None] when the key is absent. *)
Inductive MessageContent : Type :=
  | TextContent (text : string) (cacheControl : option bool)
  | ImageContent (imageB64 imageUrl : option string) (cacheControl : option bool)
  | ToolContent (tool : string) (toolCallId name : option string)
      (result : string) (cacheControl : option bool)
  | ThinkingBlock (thinking signature : string) (cacheControl : option bool).

#[global] Instance MessageContent_eq_dec : EqDecision MessageContent.
Proof. solve_decision. Defined.

(** [content] is a string ([inl]) or an array of parts ([inr]). *)
Record Message : Type := mkMessage
  { role : MessageRole;
    content : string + list MessageContent;
    isStateMessage : option bool }.

#[global] Instance Message_eq_dec : EqDecision Message.
Proof. solve_decision. Defined.

(** [content.type === 'text' && 'cacheControl' in content
     && content.cacheControl === true] *)
Definition isActiveMarker (part : MessageContent) : bool :=
  match part with
  | TextContent _ (Some true) => true
  | _ => false
  end.

(** [hasCacheControl]: [some] is not a function of a string, and the call
    throws a [TypeError] on a message whose content is one. *)
Definition hasCacheControl (message : Message) : Error + bool :=
  match content message with
  | inl _ => inl "TypeError: message.content.some is not a function"
  | inr parts => inr (existsb isActiveMarker parts)
  end.

Definition clearMarker (part : MessageContent) : MessageContent :=
  match part with
  | TextContent text (Some _) => TextContent text (Some false)
  | _ => part
  end.

(** [removeCacheControl]: the loop over a string visits its characters,
    none of which has a [type], and changes nothing. *)
Definition removeCacheControl (message : Message) : Message :=
  match content message with
  | inl _ => message
  | inr parts =>
      {| role := role message;
         content := inr (map clearMarker parts);
         isStateMessage := isStateMessage message |}
  end.

(** One iteration of the loop of [getMessages], which runs from the last
    message to the first.  The state is [foundFirstCacheControl], the
    messages already visited and the error thrown, if any; once an error
    is thrown the remaining messages stay as they are. *)
Definition getMessages_step (msg : Message)
    (st : bool * list Message * option Error) : bool * list Message * option Error :=
  let '(foundFirstCacheControl, visited, thrown) := st in
  match thrown with
  | Some _ => (foundFirstCacheControl, msg :: visited, thrown)
  | None =>
      match role msg with
      | SYSTEM => (foundFirstCacheControl, msg :: visited, None)
      | _ =>
          let msg' := if foundFirstCacheControl then removeCacheControl msg else msg in
          match hasCacheControl msg' with
          | inl e => (foundFirstCacheControl, msg' :: visited, Some e)
          | inr has => (foundFirstCacheControl || has, msg' :: visited, None)
          end
      end
  end.

(** [getMessages]: the log as the call leaves it, and the error thrown or
    the array returned, which is the log itself. *)
Definition getMessages (_messages : list Message)
  : list Message * (Error + list Message) :=
  let '(_, _messages', thrown) := foldr getMessages_step (false, [], None) _messages in
  (_messages', match thrown with Some e => inl e | None => inr _messages' end).

Definition removeLastMessage (_messages : list Message) : list Message :=
  if (1 <? length _messages)%nat then removelast _messages else _messages.

Definition setMessages (messages : list Message) : list Message := messages.

Definition getMessagesAsState (_messages : list Message) : list Message :=
  filter (fun msg => isStateMessage msg = Some true) _messages.

(** A message carries an active cache boundary. *)
Definition hasActiveBoundary (message : Message) : Prop :=
  exists parts text,
    content message = inr parts /\ TextContent text (Some true) ∈ parts.

(** The number of active markers in the log. *)
Definition activeMarkers (messages : list Message) : nat :=
  sum_list_with
    (fun message =>
       match content message with
       | inl _ => 0%nat
       | inr parts => length (filter (fun part => isActiveMarker part = true) parts)
       end)
    messages.

(** What [getMessages] does to a message older than the latest boundary. *)
Definition clearPast (message : Message) : Message :=
  match role message with
  | SYSTEM => message
  | _ => removeCacheControl message
  end.

(** A user message with one marked part and one with two; an assistant
    message without any. *)
Definition ex_marked (text : string) : Message :=
  {| role := USER; content := inr [TextContent text (Some true)];
     isStateMessage := Some true |}.

Definition ex_plain (text : string) : Message :=
  {| role := ASSISTANT; content := inr [TextContent text None];
     isStateMessage := None |}.

Definition ex_twice_marked : Message :=
  {| role := USER;
     content := inr [TextContent "<task>" (Some true); TextContent "</task>" (Some true)];
     isStateMessage := None |}.

(** Six messages, the second and the fifth of them marked. *)
Definition ex_log : list Message :=
  [ex_plain "1"; ex_marked "2"; ex_plain "3"; ex_plain "4"; ex_marked "5"; ex_plain "6"].

(** No boundary is active on the message, unless it is a system message. *)
Definition noBoundary (message : Message) : Prop :=
  role message <> SYSTEM -> ~ hasActiveBoundary message.

Definition ex_cleared (text : string) : Message :=
  {| role := USER; content := inr [TextContent text (Some false)];
     isStateMessage := Some true |}.

(** The six messages as [getMessages] leaves them. *)
Definition ex_log_read : list Message :=
  [ex_plain "1"; ex_cleared "2"; ex_plain "3"; ex_plain "4"; ex_marked "5"; ex_plain "6"].

(** * The agent ([src/agent/models.ts], [src/agent/agent.ts]) *)

Module ActionResult.
Record t : Type := mk
  { isDone : option bool;
    content : option string;
    error : option string;
    giveControl : option bool }.
End ActionResult.

Module ActionModel.
Record t : Type := mk { name : string; params : gmap string string }.
End ActionModel.

Module AgentLLMOutput.
Record t : Type := mk
  { action : ActionModel.t;
    thought : option string;
    summary : option string;
    thinkingBlock : option MessageContent }.
End AgentLLMOutput.

Record AgentOutput : Type := mkAgentOutput
  { agentState : option (list Message);
    result : ActionResult.t;
    stepCount : nat;
    storageState : option string;
    traceId : string }.

Inductive AgentStreamChunk : Type :=
  | StepChunk (actionResult : ActionResult.t) (summary : string)
      (screenshot : option string)
  | TimeoutChunk (actionResult : ActionResult.t) (summary : string) (step : nat)
      (agentState : option (list Message)) (screenshot : option string)
  | ErrorChunk (content : string)
  | FinalOutputChunk (content : AgentOutput).

(** The [type] of a chunk is ['error']. *)
Definition isErrorChunk (chunk : AgentStreamChunk) : bool :=
  match chunk with
  | ErrorChunk _ => true
  | _ => false
  end.

Definition isStepChunk (chunk : AgentStreamChunk) : bool :=
  match chunk with
  | StepChunk _ _ _ => true
  | _ => false
  end.

(** The images of [assets/demo_images], scaled. *)
Record DemoImages : Type := mkDemoImages
  { complexLayoutHighlight : string;
    complexLayoutSmallElements : string;
    stillLoading : string;
    stillLoading2 : string;
    scrollOverElementExample : string }.

Definition text_ (s : string) : MessageContent := TextContent s None.
Definition image_ (b64 : option string) : MessageContent := ImageContent b64 None None.

(** ** The message manager, continued *)

Section MessageManager.
(** The texts the manager composes; how they are laid out plays no part
    here.  [systemMessage] is the system prompt with the action
    descriptions, [taskText] the last part of the first user message,
    [stateDescription] the first part of a perception entry,
    [previousActionOutput] and [outputText] the texts written by
    [addMessageFromModelOutput], and [scaleB64Image] the image scaler of
    [browser/utils.ts]. *)
Context (systemMessage : string)
        (taskText : string -> option string -> string)
        (stateDescription : BrowserState.t -> option ActionResult.t -> option string -> string)
        (previousActionOutput : nat -> ActionResult.t -> string)
        (outputText : nat -> AgentLLMOutput.t -> string)
        (scaleB64Image : string -> string).

Definition firstUserMessage (images : DemoImages) (prompt : string)
    (outputModel : option string) : Message :=
  {| role := USER;
     content := inr
       [ text_ "<complex_layout_example>";
         text_ "Here's an example of a complex layout. As an example, if you want to select a 'Roster' section for Colorado Rockies. Then you need to click on element with index 121.";
         image_ (Some (complexLayoutHighlight images));
         text_ "</complex_layout_example>";
         text_ "<small_elements_example>";
         text_ "Here's an example of small elements on the page and their functions. Element 7, represented by 'x' icon, is a 'clear text' button. Element 8 is a 'submit' button, represented by '=' icon. This clarification should help you better understand similar layouts.";
         image_ (Some (complexLayoutSmallElements images));
         text_ "</small_elements_example>";
         text_ "<loading_pages_example>";
         text_ "Here are some examples of loading pages. If the main content on the page is empty or if there are loading elements, such as skeleton screens, page is still loading. Then, you HAVE to perform `wait_for_page_to_load` action.";
         image_ (Some (stillLoading images));
         image_ (Some (stillLoading2 images));
         text_ "</loading_pages_example>";
         text_ "<scroll_over_element_example>";
         text_ "In some cases, to reveal more content, you need to scroll in scrollable areas of the webpage. Scrollable areas have VERTICAL scrollbars very clearly visible on their right side. In the screenshot below, you can clearly see a scrollbar on the right side of the list of search items. This indicates that the list is scrollable. To scroll over this area, you need to identify any element within the scrollable area and use its index with `scroll_down_over_element` action to scroll over it. In this example, approriate element is with index 15.";
         image_ (Some (scrollOverElementExample images));
         TextContent "</scroll_over_element_example>" (Some true);
         text_ (taskText prompt outputModel) ];
     isStateMessage := None |}.

(** [images] is what loading the five demo images gives: the images, or the
    error of the first one that cannot be read. *)
Definition addSystemMessageAndUserPrompt (images : Error + DemoImages)
    (prompt : string) (outputModel : option string) (_messages : list Message)
  : list Message * option Error :=
  match images with
  | inl e => (_messages, Some e)
  | inr images =>
      let systemMsg :=
        {| role := SYSTEM; content := inl systemMessage; isStateMessage := None |} in
      ((_messages ++ [systemMsg]) ++ [firstUserMessage images prompt outputModel], None)
  end.

(** The perception entry. *)
Definition stateMsg (state : BrowserState.t) (previousResult : option ActionResult.t)
    (userFollowUpMessage : option string) : Message :=
  {| role := USER;
     content := inr
       [ text_ (stateDescription state previousResult userFollowUpMessage);
         text_ "<current_state_clean_screenshot>";
         image_ (BrowserState.screenshot state);
         text_ "</current_state_clean_screenshot>";
         text_ "<current_state>";
         image_ (BrowserState.screenshotWithHighlights state);
         text_ "</current_state>" ];
     isStateMessage := None |}.

Definition addCurrentStateMessage (state : BrowserState.t)
    (previousResult : option ActionResult.t) (userFollowUpMessage : option string)
    (_messages : list Message) : list Message :=
  _messages ++ [stateMsg state previousResult userFollowUpMessage].

(** The rewriting of a state message to its first part.  The first part of
    an empty array is [undefined]; no state message is ever built with an
    empty array, and the empty array stands for that case. *)
Definition compactStateMessage (msg : Message) : Message :=
  match isStateMessage msg with
  | Some true =>
      {| role := role msg;
         content := inr match content msg with
                        | inl s => [text_ s]
                        | inr parts => take 1 parts
                        end;
         isStateMessage := isStateMessage msg |}
  | _ => msg
  end.

(** A string is truthy unless it is empty. *)
Definition truthy (s : option string) : option string :=
  match s with
  | Some "" => None
  | _ => s
  end.

Definition addMessageFromModelOutput (step : nat)
    (previousResult : option ActionResult.t) (modelOutput : AgentLLMOutput.t)
    (screenshot : option string) (_messages : list Message) : list Message :=
  let compacted := map compactStateMessage _messages in
  let withState :=
    match previousResult, truthy screenshot with
    | Some previous, Some shot =>
        compacted ++
        [ {| role := USER;
             content := inr
               [ TextContent (previousActionOutput step previous) (Some true);
                 text_ ("<state_" +:+ pretty step +:+ ">");
                 image_ (Some (scaleB64Image shot));
                 text_ ("</state_" +:+ pretty step +:+ ">") ];
             isStateMessage := Some true |} ]
    | _, _ => compacted
    end in
  let assistantContent :=
    match AgentLLMOutput.thinkingBlock modelOutput with
    | Some block => [block; text_ (outputText step modelOutput)]
    | None => [text_ (outputText step modelOutput)]
    end in
  withState ++
  [ {| role := ASSISTANT; content := inr assistantContent; isStateMessage := None |} ].
End MessageManager.

(** ** The agent *)

(** The agent's browser and conversation, and how many calls it has made so
    far to the model, to the action registry and to the clock. *)
Record Agent : Type := mkAgent
  { browser : Browser;
    messages : list Message;
    modelCalls : nat;
    actionsRun : nat;
    clockReads : nat }.

Definition set_browser (b : Browser) (a : Agent) : Agent :=
  {| browser := b; messages := messages a; modelCalls := modelCalls a;
     actionsRun := actionsRun a; clockReads := clockReads a |}.

Definition set_messages (log : list Message) (a : Agent) : Agent :=
  {| browser := browser a; messages := log; modelCalls := modelCalls a;
     actionsRun := actionsRun a; clockReads := clockReads a |}.

Definition modelCalled (a : Agent) : Agent :=
  {| browser := browser a; messages := messages a; modelCalls := S (modelCalls a);
     actionsRun := actionsRun a; clockReads := clockReads a |}.

Definition actionRun (a : Agent) : Agent :=
  {| browser := browser a; messages := messages a; modelCalls := modelCalls a;
     actionsRun := S (actionsRun a); clockReads := clockReads a |}.

Definition clockRead (a : Agent) : Agent :=
  {| browser := browser a; messages := messages a; modelCalls := modelCalls a;
     actionsRun := actionsRun a; clockReads := S (clockReads a) |}.

(** [new Agent(llm)] *)
Definition newAgent : Agent :=
  {| browser := newBrowser; messages := []; modelCalls := 0; actionsRun := 0;
     clockReads := 0 |}.

Record RunParams : Type := mkRunParams
  { prompt : string;
    maxSteps : nat;
    agentStateParam : option string;
    timeout : option Z;
    returnScreenshots : bool;
    returnAgentState : bool;
    returnStorageState : bool;
    startUrl : option string;
    outputModel : option string }.

Section Agent.
(** The world around the agent: the page ([cycle], [goto]), the model with
    the parsing of its reply ([generateAction], by the number of the call),
    the action registry ([executeAction], by the number of the call), the
    clock ([now], by the number of the reading), the demo images, the JSON
    parser of a serialized agent state, the cookie store and the trace id;
    and the texts of the message manager. *)
Context (cycle : nat -> option BrowserState.t -> Error + Capture)
        (goto : string -> option Error)
        (generateAction : nat -> list Message -> Error + AgentLLMOutput.t)
        (executeAction : nat -> ActionModel.t -> Error + ActionResult.t)
        (now : nat -> Z)
        (images : Error + DemoImages)
        (parseAgentState : string -> Error + list Message)
        (cookies : string)
        (theTraceId : string)
        (systemMessage : string)
        (taskText : string -> option string -> string)
        (stateDescription : BrowserState.t -> option ActionResult.t -> option string -> string)
        (previousActionOutput : nat -> ActionResult.t -> string)
        (outputText : nat -> AgentLLMOutput.t -> string)
        (scaleB64Image : string -> string).

Definition step (stepNo : nat) (previousResult : option ActionResult.t) (a : Agent)
  : Agent * (Error + ActionResult.t * string) :=
  let '(b, captured) := updateState cycle (browser a) in
  let a := set_browser b a in
  match captured with
  | inl e => (a, inl e)
  | inr state =>
      let a :=
        match previousResult with
        | Some previous =>
            set_messages
              (addCurrentStateMessage stateDescription state (Some previous) None
                 (messages a)) a
        | None => a
        end in
      let '(log, inputMessages) := getMessages (messages a) in
      let a := set_messages log a in
      match inputMessages with
      | inl e => (a, inl e)
      | inr inputMessages =>
          let reply := generateAction (modelCalls a) inputMessages in
          let a := modelCalled a in
          match reply with
          | inl e => (set_messages (removeLastMessage (messages a)) a, inl e)
          | inr modelOutput =>
              let a :=
                match previousResult with
                | Some _ => set_messages (removeLastMessage (messages a)) a
                | None => a
                end in
              let a :=
                set_messages
                  (addMessageFromModelOutput previousActionOutput outputText
                     scaleB64Image stepNo previousResult modelOutput
                     (BrowserState.screenshot state) (messages a)) a in
              let outcome :=
                executeAction (actionsRun a) (AgentLLMOutput.action modelOutput) in
              let a := actionRun a in
              match outcome with
              | inl e => (a, inl e)
              | inr result =>
                  (a, inr (result, default "" (AgentLLMOutput.summary modelOutput)))
              end
          end
      end
  end.

Definition setupMessages (p : RunParams) (a : Agent) : Agent * option Error :=
  match truthy (agentStateParam p) with
  | Some serialized =>
      match parseAgentState serialized with
      | inl e => (a, Some e)
      | inr restored =>
          let a := set_messages (setMessages restored) a in
          let '(b, captured) := updateState cycle (browser a) in
          let a := set_browser b a in
          match captured with
          | inl e => (a, Some e)
          | inr browserState =>
              (set_messages
                 (addCurrentStateMessage stateDescription browserState None
                    (Some (prompt p)) (messages a)) a, None)
          end
      end
  | None =>
      let '(log, thrown) :=
        addSystemMessageAndUserPrompt systemMessage taskText images (prompt p)
          (outputModel p) (messages a) in
      let a := set_messages log a in
      match thrown with
      | Some e => (a, Some e)
      | None =>
          match truthy (startUrl p) with
          | None => (a, None)
          | Some url =>
              match goto url with
              | Some e => (a, Some e)
              | None =>
                  let '(b, captured) := updateState cycle (browser a) in
                  let a := set_browser b a in
                  match captured with
                  | inl e => (a, Some e)
                  | inr browserState =>
                      (set_messages
                         (addCurrentStateMessage stateDescription browserState None
                            None (messages a)) a, None)
                  end
              end
          end
      end
  end.

(** [Agent.getState]: [this.state.messages = this.messageManager.getMessages()]. *)
Definition getAgentState (a : Agent) : Agent * (Error + list Message) :=
  let '(log, read) := getMessages (messages a) in (set_messages log a, read).

(** [returnAgentState ? this.getState() : undefined] *)
Definition agentStateIfAsked (p : RunParams) (a : Agent)
  : Agent * (Error + option (list Message)) :=
  if returnAgentState p
  then match getAgentState a with
       | (a', inl e) => (a', inl e)
       | (a', inr log) => (a', inr (Some log))
       end
  else (a, inr None).

Definition closeBrowser (a : Agent) : Agent := set_browser (close (browser a)) a.

Definition isDoneOf (r : ActionResult.t) : bool := default false (ActionResult.isDone r).

(** The [while] loop of [run], with [remaining] the steps left under the
    cap.  The result is the agent, [step], [result], [isDone] and the error
    thrown by a step, if one was. *)
Fixpoint run_loop (remaining : nat) (stepNo : nat) (result : option ActionResult.t)
    (a : Agent) : Agent * nat * option ActionResult.t * bool * option Error :=
  match remaining with
  | O => (a, stepNo, result, false, None)
  | S remaining' =>
      match step stepNo result a with
      | (a', inl e) => (a', stepNo, result, false, Some e)
      | (a', inr (stepResult, _)) =>
          if isDoneOf stepResult
          then (a', S stepNo, Some stepResult, true, None)
          else run_loop remaining' (S stepNo) (Some stepResult) a'
      end
  end.

Definition noResult : ActionResult.t :=
  ActionResult.mk None None (Some "No result produced") None.

(** [run].  The [finally] block of the loop ends in a [return]: whatever a
    step threw is dropped there, and the caller receives the output. *)
Definition run (p : RunParams) (a : Agent) : Agent * (Error + AgentOutput) :=
  match truthy (Some (prompt p)), truthy (agentStateParam p) with
  | None, None => (a, inl "Either prompt or agentState must be provided")
  | _, _ =>
      match setupMessages p a with
      | (a, Some e) => (a, inl e)
      | (a, None) =>
          let '(a, stepNo, result, _, _) := run_loop (maxSteps p) 0 None a in
          let storage := if returnStorageState p then Some cookies else None in
          let a := closeBrowser a in
          match agentStateIfAsked p a with
          | (a, inl e) => (a, inl e)
          | (a, inr saved) =>
              (a, inr {| agentState := saved;
                         result := default noResult result;
                         stepCount := stepNo;
                         storageState := storage;
                         traceId := theTraceId |})
          end
      end
  end.

(** The chunks a stream has received, and whether it has been closed. *)
Record Stream : Type := mkStream
  { chunks : list AgentStreamChunk; closed : bool }.

Definition enqueue (chunk : AgentStreamChunk) (s : Stream) : Stream :=
  {| chunks := chunks s ++ [chunk]; closed := closed s |}.

Definition closeStream (s : Stream) : Stream :=
  {| chunks := chunks s; closed := true |}.

(** The [catch] block of [runStream]. *)
Definition streamFailed (e : Error) (a : Agent) (s : Stream) : Agent * Stream :=
  (closeBrowser a, closeStream (enqueue (ErrorChunk ("Error in run stream: " +:+ e)) s)).

(** The loop of [runStream], with [remaining] the steps left under the
    cap, followed by the report that the cap was reached. *)
Fixpoint stream_loop (p : RunParams) (startTime : option Z) (remaining : nat)
    (stepNo : nat) (result : option ActionResult.t) (a : Agent) (s : Stream)
  : Agent * Stream :=
  match remaining with
  | O =>
      (closeBrowser a,
       closeStream
         (enqueue (ErrorChunk ("Maximum number of steps reached: " +:+ pretty (maxSteps p)))
            s))
  | S remaining' =>
      match step stepNo result a with
      | (a, inl e) => streamFailed e a s
      | (a, inr (stepResult, summary)) =>
          let stepNo := S stepNo in
          let shot :=
            if returnScreenshots p
            then match getState (browser a) with
                 | Some state => inr (BrowserState.screenshot state)
                 | None => inl "TypeError: Cannot read properties of undefined"
                 end
            else inr None in
          match shot with
          | inl e => streamFailed e a s
          | inr screenshot =>
              let '(a, timedOut) :=
                match timeout p, startTime with
                | Some limit, Some started =>
                    (clockRead a, bool_decide (limit < now (clockReads a) - started)%Z)
                | _, _ => (a, false)
                end in
              if timedOut
              then match agentStateIfAsked p a with
                   | (a, inl e) => streamFailed e a s
                   | (a, inr saved) =>
                       (closeBrowser a,
                        closeStream
                          (enqueue (TimeoutChunk stepResult summary stepNo saved screenshot)
                             s))
                   end
              else
                let s := enqueue (StepChunk stepResult summary screenshot) s in
                if isDoneOf stepResult
                then
                  let storage := if returnStorageState p then Some cookies else None in
                  match agentStateIfAsked p a with
                  | (a, inl e) => streamFailed e a s
                  | (a, inr saved) =>
                      (closeBrowser a,
                       closeStream
                         (enqueue
                            (FinalOutputChunk
                               {| agentState := saved; result := stepResult;
                                  stepCount := stepNo; storageState := storage;
                                  traceId := theTraceId |}) s))
                  end
                else stream_loop p startTime remaining' stepNo (Some stepResult) a s
          end
      end
  end.

(** [runStream]: the stream as the run leaves it, or the error with which
    [start] fails when the messages cannot be set up. *)
Definition runStream (p : RunParams) (a : Agent) : Agent * (Error + Stream) :=
  match setupMessages p a with
  | (a, Some e) => (a, inl e)
  | (a, None) =>
      let '(a, startTime) :=
        match timeout p with
        | Some _ => (clockRead a, Some (now (clockReads a)))
        | None => (a, None)
        end in
      let '(a, s) :=
        stream_loop p startTime (maxSteps p) 0 None a
          {| chunks := []; closed := false |} in
      (a, inr s)
  end.
End Agent.

(** ** A world for the examples *)

Definition ex_stateDescription
    (_ : BrowserState.t) (_ : option ActionResult.t) (_ : option string) : string :=
  "<viewport>".
Definition ex_previousActionOutput (_ : nat) (_ : ActionResult.t) : string :=
  "<action_output>".
Definition ex_outputText (_ : nat) (_ : AgentLLMOutput.t) : string := "<output>".
Definition ex_scaleB64Image (s : string) : string := s.

(** A model that cannot be reached, and one that always asks for a click. *)
Definition ex_model_down (_ : nat) (_ : list Message) : Error + AgentLLMOutput.t :=
  inl "Error: overloaded".

Definition ex_click : AgentLLMOutput.t :=
  {| AgentLLMOutput.action :=
       {| ActionModel.name := "click_element"; ActionModel.params := {["index" := "0"]} |};
     AgentLLMOutput.thought := Some "t";
     AgentLLMOutput.summary := Some "clicking";
     AgentLLMOutput.thinkingBlock := None |}.

Definition ex_model_clicks (_ : nat) (_ : list Message) : Error + AgentLLMOutput.t :=
  inr ex_click.

(** An action registry none of whose actions reports completion. *)
Definition ex_clicked : ActionResult.t :=
  ActionResult.mk None (Some "Clicked element with index 0") None None.

Definition ex_never_done (_ : nat) (_ : ActionModel.t) : Error + ActionResult.t :=
  inr ex_clicked.

(** An agent two steps into a run: a snapshot in hand, and six messages of
    which the second and the fifth carry a cache boundary. *)
Definition ex_agent : Agent :=
  {| browser := ex_browser_with_snapshot; messages := ex_log; modelCalls := 2;
     actionsRun := 2; clockReads := 0 |}.

(** A message [getMessages] can read: a system message, or one whose
    content is an array. *)
Definition readableMessage (message : Message) : Prop :=
  role message = SYSTEM \/ exists parts, content message = inr parts.

(** An agent ready for a step: its browser holds a state, and its
    conversation can be read. *)
Definition ready (a : Agent) : Prop :=
  is_Some (state (browser a)) /\ Forall readableMessage (messages a).

Definition ex_page_up : nat -> option BrowserState.t -> Error + Capture :=
  fun _ _ => inr ex_capture.

Definition ex_images : Error + DemoImages :=
  inr (mkDemoImages "png1" "png2" "png3" "png4" "png5").

Definition ex_goto (_ : string) : option Error := None.
Definition ex_now (_ : nat) : Z := 0%Z.
Definition ex_parseAgentState (_ : string) : Error + list Message :=
  inl "SyntaxError: Unexpected end of JSON input".
Definition ex_taskText (task : string) (_ : option string) : string := task.

(** A run of at most five steps, without a timeout. *)
Definition ex_params : RunParams :=
  {| prompt := "Find the opening hours"; maxSteps := 5; agentStateParam := None;
     timeout := None; returnScreenshots := false; returnAgentState := false;
     returnStorageState := false; startUrl := None; outputModel := None |}.

Definition ex_run (p : RunParams) (a : Agent) : Agent * (Error + AgentOutput) :=
  run ex_page_up ex_goto ex_model_clicks ex_never_done ex_images ex_parseAgentState
    "cookies" "trace" "You are a browser agent." ex_taskText ex_stateDescription
    ex_previousActionOutput ex_outputText ex_scaleB64Image p a.

Definition ex_runStream (p : RunParams) (a : Agent) : Agent * (Error + Stream) :=
  runStream ex_page_up ex_goto ex_model_clicks ex_never_done ex_now ex_images
    ex_parseAgentState "cookies" "trace" "You are a browser agent." ex_taskText
    ex_stateDescription ex_previousActionOutput ex_outputText ex_scaleB64Image p a.

(** * Further definitions

    What the properties beyond the specification's claims are stated
    with. *)

(** ** Rectangles *)

(** The edges of the rectangle are in order. *)
Definition wellFormed (r : Rect.t) : Prop :=
  Rect.left r <= Rect.right r /\ Rect.top r <= Rect.bottom r.

(** The area between the edges, as [calculateIou] computes it. *)
Definition edgeArea (r : Rect.t) : Q :=
  (Rect.right r - Rect.left r) * (Rect.bottom r - Rect.top r).

(** ** An action registry whose first action reports completion *)

Definition ex_finished : ActionResult.t :=
  ActionResult.mk (Some true) (Some "42") None None.



(** An output of the model with a thinking block. *)
Definition ex_click_thinking : AgentLLMOutput.t :=
  {| AgentLLMOutput.action := AgentLLMOutput.action ex_click;
     AgentLLMOutput.thought := Some "t";
     AgentLLMOutput.summary := Some "clicking";
     AgentLLMOutput.thinkingBlock := Some (ThinkingBlock "The menu is element 0." "sig" None) |}.


(** ** Strings as sequences of code units *)

Module JsString.
Import Stdlib.Strings.Ascii.

Definition chars (s : string) : list ascii := String.list_ascii_of_string s.
Definition ofChars (l : list ascii) : string := String.string_of_list_ascii l.

(** The code unit lies in the range from [lo] to [hi]. *)
Definition charBetween (lo hi c : ascii) : bool :=
  (nat_of_ascii lo <=? nat_of_ascii c)%nat && (nat_of_ascii c <=? nat_of_ascii hi)%nat.

(** [\d], and its complement [\D] *)
Definition isDigitChar (c : ascii) : bool := charBetween "0"%char "9"%char c.
End JsString.

(** ** Identifiers ([src/agent/utils.ts])

    The ids these functions are written for are ASCII.  [toLowerCase] is
    modelled on the letters [A] to [Z]; no other character is turned into
    a hexadecimal digit by the lower-casing of the language, so that it is
    what the code does on every string as far as these functions can
    tell. *)

Module Uuid.
Import Stdlib.Strings.Ascii JsString.

(** [[0-9a-f]] *)
Definition isLowerHex (c : ascii) : bool :=
  charBetween "0"%char "9"%char c || charBetween "a"%char "f"%char c.

Definition toLowerCaseChar (c : ascii) : ascii :=
  if charBetween "A"%char "Z"%char c then ascii_of_nat (nat_of_ascii c + 32) else c.

Definition toLowerCase (l : list ascii) : list ascii := map toLowerCaseChar l.

(** [id.startsWith('0x') ? id.slice(2) : id] *)
Definition dropHexPrefix (l : list ascii) : list ascii :=
  if bool_decide (take 2 l = ["0"; "x"]%char) then drop 2 l else l.

(** [/^[0-9a-f]+$/.test(id)] *)
Definition isHexString (l : list ascii) : bool :=
  match l with
  | [] => false
  | _ => forallb isLowerHex l
  end.

(** [.] matches every character but a line terminator. *)
Definition dotMatches (c : ascii) : bool :=
  negb (Ascii.eqb c "010"%char || Ascii.eqb c "013"%char).

(** [id.replace(/^(.{8})(.{4})(.{4})(.{4})(.{12})$/, '$1-$2-$3-$4-$5')] *)
Definition insertDashes (l : list ascii) : list ascii :=
  if (length l =? 32)%nat && forallb dotMatches l
  then take 8 l ++ "-"%char :: take 4 (drop 8 l) ++ "-"%char :: take 4 (drop 12 l)
       ++ "-"%char :: take 4 (drop 16 l) ++ "-"%char :: drop 20 l
  else l.

(** [id.padStart(32, '0')] *)
Definition padStart32 (l : list ascii) : list ascii :=
  replicate (32 - length l) "0"%char ++ l.

(** [[0-9a-f]{n}] at the front of [l]: what follows it. *)
Definition hexRun (n : nat) (l : list ascii) : option (list ascii) :=
  if (length (take n l) =? n)%nat && forallb isLowerHex (take n l)
  then Some (drop n l) else None.

Definition dash (l : list ascii) : option (list ascii) :=
  match l with
  | "-"%char :: rest => Some rest
  | _ => None
  end.

(** [/^[0-9a-f]{8}-[0-9a-f]{4}-[0-9a-f]{4}-[0-9a-f]{4}-[0-9a-f]{12}$/.test(id)]:
    the pieces of the pattern are matched one after the other, and nothing
    may be left. *)
Definition uuidPattern : list (list ascii -> option (list ascii)) :=
  [hexRun 8; dash; hexRun 4; dash; hexRun 4; dash; hexRun 4; dash; hexRun 12].

Definition matchPieces (pieces : list (list ascii -> option (list ascii)))
    (l : list ascii) : option (list ascii) :=
  foldl (fun rest piece => rest ≫= piece) (Some l) pieces.

Definition isStringUUID (id : string) : bool :=
  match matchPieces uuidPattern (chars id) with
  | Some [] => true
  | _ => false
  end.

Definition NIL_UUID : string := "00000000-0000-0000-0000-000000000000".

Section Identifiers.
(** What [newUUID()] returns when it is called. *)
Context (newUUID : string).

Definition otelSpanIdToUUID (spanId : string) : string :=
  let id := dropHexPrefix (toLowerCase (chars spanId)) in
  if negb (isHexString id) then newUUID
  else ofChars (insertDashes (padStart32 id)).

Definition otelTraceIdToUUID (traceId : string) : string :=
  let id := dropHexPrefix (toLowerCase (chars traceId)) in
  if negb (isHexString id) then newUUID
  else ofChars (insertDashes id).
End Identifiers.

(** A hexadecimal digit in either case. *)
Definition isHexDigit (c : ascii) : bool :=
  isLowerHex c || charBetween "A"%char "F"%char c.

(** The id without its dashes. *)
Definition withoutDashes (id : string) : string :=
  ofChars (filter (fun c => c <> "-"%char) (chars id)).

End Uuid.

(** ** The provider adapter ([src/llm/ai-sdk-adapter.ts])

    A message as the AI SDK takes it.  [ephemeral] is the provider option
    [{anthropic: {cacheControl: {type: 'ephemeral'}}}], which a part
    carries or not.  The [name] of a tool message is no field of
    [Message] and is left out. *)

Inductive CorePart : Type :=
  | TextPart (text : string) (ephemeral : bool)
  | ImagePart (image : string) (ephemeral : bool).

Record ToolResultPart : Type := mkToolResultPart
  { resultToolCallId : option string;
    resultToolName : string;
    resultValue : string;
    resultEphemeral : bool }.

(** The content of a formatted message: a string, an array of text and
    image parts, the tool results of a tool message, or the array a system
    message was given, which is passed on as it is. *)
Inductive CoreContent : Type :=
  | CoreString (s : string)
  | CoreParts (parts : list CorePart)
  | CoreToolResults (results : list ToolResultPart)
  | CoreUnformatted (parts : list MessageContent).

Record CoreMessage : Type := mkCoreMessage
  { coreRole : MessageRole; coreContent : CoreContent }.

(** [content.cacheControl ? ... : {}] *)
Definition cacheMarked (cacheControl : option bool) : bool :=
  match cacheControl with
  | Some true => true
  | _ => false
  end.

(** The body of the [forEach] over the parts of a user or assistant
    message: what it pushes. *)
Definition formatPart (content : MessageContent) : list CorePart :=
  match content with
  | TextContent text cacheControl => [TextPart text (cacheMarked cacheControl)]
  | ImageContent imageB64 imageUrl cacheControl =>
      [ImagePart
         match truthy imageUrl with
         | Some url => url
         | None => "data:image/png;base64," +:+ default "undefined" imageB64
         end
         (cacheMarked cacheControl)]
  | _ => []
  end.

(** [.filter(content => content.type === 'tool-result').map(...)] on one
    part. *)
Definition formatToolResult (content : MessageContent) : list ToolResultPart :=
  match content with
  | ToolContent tool toolCallId _ result cacheControl =>
      [mkToolResultPart toolCallId tool result (cacheMarked cacheControl)]
  | _ => []
  end.

(** The function [formatMessages] maps over the messages.  A string has no
    [filter]: a tool message whose content is one makes the call throw. *)
Definition formatMessage (message : Message) : Error + CoreMessage :=
  match role message with
  | TOOL =>
      match content message with
      | inl _ => inl "TypeError: toolContent.filter is not a function"
      | inr parts =>
          inr (mkCoreMessage TOOL (CoreToolResults (flat_map formatToolResult parts)))
      end
  | SYSTEM =>
      inr (mkCoreMessage SYSTEM
             match content message with
             | inl s => CoreString s
             | inr parts => CoreUnformatted parts
             end)
  | messageRole =>
      match content message with
      | inl s => inr (mkCoreMessage messageRole (CoreString s))
      | inr parts =>
          let formattedContent := flat_map formatPart parts in
          inr (mkCoreMessage messageRole
                 match formattedContent with
                 | [TextPart text _] => CoreString text
                 | _ => CoreParts formattedContent
                 end)
      end
  end.

Fixpoint formatMessages (messages : list Message) : Error + list CoreMessage :=
  match messages with
  | [] => inr []
  | message :: messages' =>
      match formatMessage message with
      | inl e => inl e
      | inr formatted =>
          match formatMessages messages' with
          | inl e => inl e
          | inr rest => inr (formatted :: rest)
          end
      end
  end.

(** A part the adapter passes on to the provider. *)
Definition isTextOrImage (content : MessageContent) : bool :=
  match content with
  | TextContent _ _ | ImageContent _ _ _ => true
  | _ => false
  end.

(** ** The action registry ([src/controller/controller.ts])

    [_actions] is an object used as a map, and [_actions[name]] is not
    only what was stored under [name]: an object has the properties of its
    prototype as well, and an assignment to the name [__proto__] sets the
    prototype of the object instead of a property.  [B] is the browser
    handed to [executeAction] and [W] the world the action functions act
    on. *)

Record ActionParameter : Type := mkActionParameter
  { parameterType : string; parameterDescription : string }.

(** The properties of [Object.prototype].  The value of each is a function
    but for [__proto__], which gives the prototype of the object. *)
Definition objectPrototypeKeys : list string :=
  [ "constructor"; "__defineGetter__"; "__defineSetter__"; "hasOwnProperty";
    "__lookupGetter__"; "__lookupSetter__"; "isPrototypeOf"; "propertyIsEnumerable";
    "toString"; "valueOf"; "__proto__"; "toLocaleString" ].

Section Controller.
Context {B W : Type}.
(** The message of the [TypeError] that the call [actionObj.function(params)]
    throws when [actionObj.function] is no function. *)
Context (notAFunction : string).

(** What an action function is called with: the parameters chosen by the
    model and, under the key [browser], the browser if the controller has
    put it there. *)
Record ActionArguments : Type := mkActionArguments
  { givenParams : gmap string string; givenBrowser : option B }.

Record Action : Type := mkAction
  { actionName : string;
    actionDescription : string;
    actionFunction : ActionArguments -> W -> W * (Error + ActionResult.t);
    browserContext : bool;
    actionParams : gmap string ActionParameter }.

(** The object [_actions]: its own properties, and the action it has for
    its prototype once one was registered under the name [__proto__]. *)
Record Registry : Type := mkRegistry
  { ownActions : gmap string Action; prototypeAction : option Action }.

(** [private _actions: Record<string, Action> = {}] *)
Definition noActions : Registry := mkRegistry ∅ None.

(** [this._actions[name] = {name, description, function: func,
    browserContext, params: params || {}}] *)
Definition registerAction (name description : string)
    (func : ActionArguments -> W -> W * (Error + ActionResult.t))
    (params : option (gmap string ActionParameter)) (browserContext : bool)
    (_actions : Registry) : Registry :=
  let actionObj := mkAction name description func browserContext (default ∅ params) in
  if bool_decide (name = "__proto__")
  then mkRegistry (ownActions _actions) (Some actionObj)
  else mkRegistry (<[name := actionObj]> (ownActions _actions)) (prototypeAction _actions).

(** What [executeAction] can tell of the value of a property: an action, a
    truthy value that is none (a string, [true], a function or another
    object: whatever it is, its [function] is no function), or [undefined]
    and the other falsy values. *)
Inductive Property : Type :=
  | AnAction (actionObj : Action)
  | Truthy
  | Falsy.

(** The properties of an action, as the object that has the action for its
    prototype inherits them. *)
Definition actionProperty (actionObj : Action) (key : string) : option Property :=
  if bool_decide (key = "name")
  then Some (if bool_decide (actionName actionObj = "") then Falsy else Truthy)
  else if bool_decide (key = "description")
  then Some (if bool_decide (actionDescription actionObj = "") then Falsy else Truthy)
  else if bool_decide (key = "function") then Some Truthy
  else if bool_decide (key = "browserContext")
  then Some (if browserContext actionObj then Truthy else Falsy)
  else if bool_decide (key = "params") then Some Truthy
  else None.

(** [this._actions[actionName]] *)
Definition getAction (_actions : Registry) (actionName : string) : Property :=
  if bool_decide (actionName = "__proto__")
  then match prototypeAction _actions with
       | Some actionObj => AnAction actionObj
       | None => Truthy
       end
  else
    match ownActions _actions !! actionName with
    | Some actionObj => AnAction actionObj
    | None =>
        match prototypeAction _actions ≫= (fun actionObj => actionProperty actionObj actionName) with
        | Some property => property
        | None => if bool_decide (actionName ∈ objectPrototypeKeys) then Truthy else Falsy
        end
    end.

Definition executeAction (_actions : Registry) (action : ActionModel.t)
    (browser : B) (w : W) : W * (Error + ActionResult.t) :=
  let actionName := ActionModel.name action in
  let params := ActionModel.params action in
  match getAction _actions actionName with
  | Falsy => (w, inl ("Action " +:+ actionName +:+ " not found"))
  | Truthy =>
      (w, inl ("Error executing action " +:+ actionName +:+ ": " +:+ notAFunction))
  | AnAction actionObj =>
      let params :=
        if browserContext actionObj
        then mkActionArguments (delete "browser"%string params) (Some browser)
        else mkActionArguments params None in
      match actionFunction actionObj params w with
      | (w', inr result) => (w', inr result)
      | (w', inl errorMessage) =>
          (w', inl ("Error executing action " +:+ actionName +:+ ": " +:+ errorMessage))
      end
  end.

(** What [executeAction] does with the action it has found. *)
Definition runAction (actionObj : Action) (action : ActionModel.t) (browser : B)
    (w : W) : W * (Error + ActionResult.t) :=
  match actionFunction actionObj
          (if browserContext actionObj
           then mkActionArguments (delete "browser"%string (ActionModel.params action))
                  (Some browser)
           else mkActionArguments (ActionModel.params action) None) w with
  | (w', inr result) => (w', inr result)
  | (w', inl errorMessage) =>
      (w', inl ("Error executing action " +:+ ActionModel.name action +:+ ": "
                +:+ errorMessage))
  end.
End Controller.

(** An action function that finishes the task, whatever it is given. *)
Definition ex_finish (_ : @ActionArguments unit) (w : unit)
  : unit * (Error + ActionResult.t) :=
  (w, inr ex_finished).

(** ** Tabs ([src/browser/browser.ts])

    The pages of the browser context, in the order of [context.pages()]. *)

Record Page : Type := mkPage
  { pageUrl : string; pageTitle : Error + string }.

(** [getTabsInfo], from the page with id [nextId] on. *)
Fixpoint getTabsInfo_from (nextId : nat) (pages : list Page) : Error + list TabInfo :=
  match pages with
  | [] => inr []
  | page :: pages' =>
      match pageTitle page with
      | inl e => inl e
      | inr title =>
          match getTabsInfo_from (S nextId) pages' with
          | inl e => inl e
          | inr tabsInfo => inr (mkTabInfo nextId (pageUrl page) title :: tabsInfo)
          end
      end
  end.

Definition getTabsInfo (pages : list Page) : Error + list TabInfo :=
  getTabsInfo_from 0 pages.

(** Two tabs. *)
Definition ex_pages : list Page :=
  [mkPage "https://example.com/a" (inr "A"); mkPage "https://example.com/b" (inr "B")].

(** [pages[pageId]], for the [pageId] requested, a whole number *)
Definition pageAt (pages : list Page) (requested : Z) : option Page :=
  if (0 <=? requested)%Z then pages !! Z.to_nat requested else None.

(** [switchToTab]: the current page afterwards, and the error thrown.
    [bringToFront] is what bringing the page to the front and waiting for
    it to load gives. *)
Definition switchToTab (bringToFront : Page -> option Error) (requested : Z)
    (pages : list Page) (currentPage : option Page) : option Page * option Error :=
  if (Z.of_nat (length pages) <=? requested)%Z
  then (currentPage, Some ("No tab found with page_id: " +:+ pretty requested))
  else
    match pageAt pages requested with
    | Some page => (Some page, bringToFront page)
    | None =>
        (None, Some "TypeError: Cannot read properties of undefined (reading 'bringToFront')")
    end.

(** ** Highlights ([putHighlightElementsOnScreenshot], [src/browser/utils.ts])

    The overlays the function hands to the image library: for every
    element that is drawn, the border of its rectangle and a label with
    its index. *)

Record RGBColor : Type := mkRGBColor { red : Z; green : Z; blue : Z }.

Definition baseColors : list RGBColor :=
  [ mkRGBColor 204 0 0; mkRGBColor 0 136 0; mkRGBColor 0 0 204;
    mkRGBColor 204 112 0; mkRGBColor 102 0 102; mkRGBColor 0 102 102;
    mkRGBColor 204 51 153; mkRGBColor 44 0 102; mkRGBColor 204 35 0;
    mkRGBColor 28 102 66; mkRGBColor 170 0 0; mkRGBColor 36 82 123 ].

(** [%] is the remainder with the sign of the dividend. *)
Definition generateUniqueColor (baseColor : RGBColor) (elementIdx : Z) : RGBColor :=
  let offsetR := (Z.rem (elementIdx * 17) 31 - 15)%Z in
  let offsetG := (Z.rem (elementIdx * 23) 29 - 14)%Z in
  let offsetB := (Z.rem (elementIdx * 13) 27 - 13)%Z in
  mkRGBColor (Z.max 0 (Z.min 255 (red baseColor + offsetR)))
             (Z.max 0 (Z.min 255 (green baseColor + offsetG)))
             (Z.max 0 (Z.min 255 (blue baseColor + offsetB))).

Record Label : Type := mkLabel
  { labelLeft : Q; labelTop : Q; labelRight : Q; labelBottom : Q }.

Definition textWidth : Q := 10.
Definition textHeight : Q := 12.
Definition labelWidth : Q := textWidth + 4.
Definition labelHeight : Q := textHeight + 4.

(** The condition under which the loop over [placedLabels] moves the
    label. *)
Definition overlapsLabel (labelRect existing : Label) : bool :=
  negb (Qlt_bool (labelRight labelRect) (labelLeft existing)
        || Qlt_bool (labelRight existing) (labelLeft labelRect)
        || Qlt_bool (labelBottom labelRect) (labelTop existing)
        || Qlt_bool (labelBottom existing) (labelTop labelRect)).

(** Where the label of an element is drawn, [(labelX, labelY)], and the
    rectangle recorded in [placedLabels] for it. *)
Definition placeLabel (rect : Rect.t) (placedLabels : list Label)
    (imageWidth imageHeight : Q) : Q * Q * Label :=
  let labelX :=
    if Qlt_bool (Rect.width rect) labelWidth || Qlt_bool (Rect.height rect) labelHeight
    then Rect.left rect + Rect.width rect
    else Rect.left rect + Rect.width rect - labelWidth in
  let labelY := Rect.top rect in
  let labelRect := mkLabel labelX labelY (labelX + labelWidth) (labelY + labelHeight) in
  let '(labelY, labelRect) :=
    match List.find (overlapsLabel labelRect) placedLabels with
    | Some existing =>
        let labelY := labelBottom existing + 2 in
        (labelY, mkLabel (labelLeft labelRect) labelY (labelRight labelRect)
                   (labelY + labelHeight))
    | None => (labelY, labelRect)
    end in
  let labelX :=
    if Qlt_bool labelX 0 then 0
    else if Qle_bool imageWidth (labelX + labelWidth) then imageWidth - labelWidth - 1
    else labelX in
  let labelY :=
    if Qlt_bool labelY 0 then 0
    else if Qle_bool imageHeight (labelY + labelHeight) then imageHeight - labelHeight - 1
    else labelY in
  (labelX, labelY, labelRect).

Inductive Overlay : Type :=
  | BorderOverlay (x y width height : Q) (color : RGBColor)
  | LabelOverlay (x y width height : Q) (color : RGBColor) (text : string).

(** Don't draw sheets elements. *)
Definition isSheetsElement (element : InteractiveElement) : bool :=
  String.prefix "row_" (browserAgentId element)
  || String.prefix "column_" (browserAgentId element).

(** One iteration of the loop over [Object.entries(elements)], on the
    overlays and the labels placed so far. *)
Definition highlightStep (imageWidth imageHeight : Q)
    (st : list Overlay * list Label) (entry : nat * InteractiveElement)
  : list Overlay * list Label :=
  let '(composites, placedLabels) := st in
  let '(idx, element) := entry in
  if isSheetsElement element then st
  else
    let baseColor := nth (idx mod length baseColors) baseColors (mkRGBColor 0 0 0) in
    let color := generateUniqueColor baseColor (Z.of_nat idx) in
    let rect := rect element in
    let '(labelX, labelY, labelRect) :=
      placeLabel rect placedLabels imageWidth imageHeight in
    (composites ++
       [BorderOverlay (Rect.left rect) (Rect.top rect) (Rect.width rect)
          (Rect.height rect) color;
        LabelOverlay labelX labelY labelWidth labelHeight color (pretty idx)],
     placedLabels ++ [labelRect]).

(** The overlays for the entries of the record of elements, in the order
    of [Object.entries], on an image of the given size. *)
Definition highlightOverlays (imageWidth imageHeight : Q)
    (entries : list (nat * InteractiveElement)) : list Overlay :=
  (fold_left (highlightStep imageWidth imageHeight) entries ([], [])).1.

(** A colour the image library accepts, close to a base colour. *)
Definition validColor (idx : nat) (color : RGBColor) : Prop :=
  let baseColor := nth (idx mod length baseColors) baseColors (mkRGBColor 0 0 0) in
  (0 <= red color <= 255 /\ -15 <= red color - red baseColor <= 15)%Z
  /\ (0 <= green color <= 255 /\ -14 <= green color - green baseColor <= 14)%Z
  /\ (0 <= blue color <= 255 /\ -13 <= blue color - blue baseColor <= 13)%Z.

(** What holds of an overlay: its label lies inside the image (if the image
    has room for one), and its colour is a colour. *)
Definition overlayOk (imageWidth imageHeight : Q) (overlay : Overlay) : Prop :=
  match overlay with
  | BorderOverlay _ _ _ _ color => exists idx, validColor idx color
  | LabelOverlay x y width height color _ =>
      (exists idx, validColor idx color)
      /\ width = labelWidth /\ height = labelHeight
      /\ (labelWidth + 1 <= imageWidth -> 0 <= x /\ x + width < imageWidth)
      /\ (labelHeight + 1 <= imageHeight -> 0 <= y /\ y + height < imageHeight)
  end.

(** ** Clicking an element ([click_element], [src/controller/default-actions.ts]) *)

Module ClickElement.
Import Stdlib.Strings.Ascii JsString.

Definition digitValue (c : ascii) : N := N.of_nat (nat_of_ascii c - 48).

(** The number a string of decimal digits denotes. *)
Definition decimalValue (digits : list ascii) : N :=
  foldl (fun n c => 10 * n + digitValue c)%N 0%N digits.

Section ClickElement.
(** Numbers are doubles.  [nearestDouble n] is the number [parseInt] gives
    for digits that denote [n], from 2^53 on, where not every integer is a
    double; [exponentText n] is how a number from 10^21 on is printed.
    [clickAt element cleanedIndex waitAfterClick] is what the [try] block
    comes to: the message of the result, or the message of the error it
    has caught. *)
Context (nearestDouble : N -> N)
        (exponentText : N -> string)
        (clickAt : InteractiveElement -> N -> bool -> Error + string).

(** [parseInt(cleanedIndexStr, 10)] on a string of digits *)
Definition parseInt10 (digits : list ascii) : N :=
  let n := decimalValue digits in
  if (n <? 2 ^ 53)%N then n else nearestDouble n.

(** [`${cleanedIndex}`] *)
Definition numberText (n : N) : string :=
  if (n <? 10 ^ 21)%N then pretty n else exponentText n.

(** [indexText] is [String(index)], and [state] what [browser.getState()]
    returns. *)
Definition click_element (indexText : string) (waitAfterClick : bool)
    (state : option BrowserState.t) : Error + ActionResult.t :=
  let cleanedIndexStr := List.filter isDigitChar (chars indexText) in
  match cleanedIndexStr with
  | [] => inr (ActionResult.mk None None (Some "`index` should be a valid number.") None)
  | _ =>
      let cleanedIndex := parseInt10 cleanedIndexStr in
      match state with
      | None =>
          inl "TypeError: Cannot read properties of undefined (reading 'interactiveElements')"
      | Some state =>
          match BrowserState.interactiveElements state !! N.to_nat cleanedIndex with
          | None =>
              inr (ActionResult.mk None None
                     (Some ("Element with index " +:+ numberText cleanedIndex
                            +:+ " does not exist - retry or use alternative actions."))
                     None)
          | Some element =>
              match clickAt element cleanedIndex waitAfterClick with
              | inr msg => inr (ActionResult.mk None (Some msg) None None)
              | inl errorMessage => inr (ActionResult.mk None None (Some errorMessage) None)
              end
          end
      end
  end.
(** What [click_element] returns for element [n]. *)
Definition clickOutcome (n : N) (waitAfterClick : bool) (state : BrowserState.t)
  : ActionResult.t :=
  match BrowserState.interactiveElements state !! N.to_nat n with
  | None =>
      ActionResult.mk None None
        (Some ("Element with index " +:+ pretty n
               +:+ " does not exist - retry or use alternative actions."))
        None
  | Some element =>
      match clickAt element n waitAfterClick with
      | inr msg => ActionResult.mk None (Some msg) None None
      | inl errorMessage => ActionResult.mk None None (Some errorMessage) None
      end
  end.
End ClickElement.
End ClickElement.
(** * Numbers *)

Lemma Qlt_bool_iff x y : Qlt_bool x y = true <-> x < y.
Proof.
  unfold Qlt_bool. rewrite negb_true_iff.
  split; intros H.
  - apply Qnot_le_lt. intros Hle. apply Qle_bool_iff in Hle. congruence.
  - destruct (Qle_bool y x) eqn:E; [|reflexivity].
    apply Qle_bool_iff in E. exfalso. exact (Qlt_not_le _ _ H E).
Qed.

Lemma Qlt_bool_false x y : Qlt_bool x y = false <-> y <= x.
Proof.
  unfold Qlt_bool. rewrite negb_false_iff. apply Qle_bool_iff.
Qed.

(** * Facts about the sort *)

Section JsSortFacts.
Context {T : Type} (compareFn : T -> T -> Q).

Lemma sort_insert_Permutation a l : sort_insert compareFn a l ≡ₚ a :: l.
Proof.
  induction l as [|b l IH]; simpl; [reflexivity|].
  destruct (Qlt_bool 0 (compareFn a b)); [|reflexivity].
  rewrite IH. apply perm_swap.
Qed.

Lemma js_sort_Permutation l : js_sort compareFn l ≡ₚ l.
Proof.
  induction l as [|a l IH]; simpl; [reflexivity|].
  rewrite sort_insert_Permutation. by rewrite IH.
Qed.

Lemma js_sort_length l : length (js_sort compareFn l) = length l.
Proof. apply Permutation_length, js_sort_Permutation. Qed.

Lemma js_sort_nil_inv l : js_sort compareFn l = [] -> l = [].
Proof.
  intros H. apply Permutation_nil. rewrite <- H.
  apply js_sort_Permutation.
Qed.

Lemma sort_insert_head a l :
  Forall ((precedes compareFn) a) l -> sort_insert compareFn a l = a :: l.
Proof.
  destruct l as [|b l]; simpl; [done|].
  intros H. apply Forall_cons in H as [H _].
  destruct (Qlt_bool 0 (compareFn a b)) eqn:E; [|done].
  apply Qlt_bool_iff in E. unfold precedes in H. lra.
Qed.

(** A sorted array is left as it is. *)
Lemma js_sort_sorted_id l :
  StronglySorted (precedes compareFn) l -> js_sort compareFn l = l.
Proof.
  induction 1 as [|a l Hs IH Ha]; simpl; [done|].
  rewrite IH. by apply sort_insert_head.
Qed.

(** What makes a comparator consistent. *)
Hypothesis compareFn_opp : forall a b, compareFn b a == - compareFn a b.
Hypothesis compareFn_trans :
  forall a b c, compareFn a b <= 0 -> compareFn b c <= 0 -> compareFn a c <= 0.

Lemma sort_insert_sorted a l :
  StronglySorted (precedes compareFn) l -> StronglySorted (precedes compareFn) (sort_insert compareFn a l).
Proof using compareFn_opp compareFn_trans.
  induction 1 as [|b l Hs IH Hb]; simpl.
  - repeat constructor.
  - destruct (Qlt_bool 0 (compareFn a b)) eqn:E.
    + apply Qlt_bool_iff in E.
      constructor; [exact IH|].
      rewrite sort_insert_Permutation. constructor; [|exact Hb].
      unfold precedes. rewrite compareFn_opp. lra.
    + apply Qlt_bool_false in E.
      constructor; [by constructor|].
      constructor; [exact E|].
      eapply Forall_impl; [exact Hb|].
      intros c Hc. by apply (compareFn_trans a b c).
Qed.

Lemma js_sort_sorted l : StronglySorted (precedes compareFn) (js_sort compareFn l).
Proof using compareFn_opp compareFn_trans.
  induction l as [|a l IH]; simpl; [constructor|].
  by apply sort_insert_sorted.
Qed.

(** Two arrangements of the same elements in which every element has to
    come before the ones after it are the same arrangement. *)
Lemma strictly_sorted_unique l l' :
  l ≡ₚ l' ->
  StronglySorted (strictly_precedes compareFn) l ->
  StronglySorted (strictly_precedes compareFn) l' ->
  l = l'.
Proof using compareFn_opp.
  intros Hp Hl. revert l' Hp.
  induction Hl as [|a l Hs IH Ha]; intros l' Hp Hl'.
  - by apply Permutation_nil in Hp.
  - destruct Hl' as [|b l' Hs' Hb].
    + symmetry in Hp. by apply Permutation_nil in Hp.
    + assert (a = b) as ->.
      { assert (Hin : a ∈ b :: l') by (rewrite <- Hp; left).
        assert (Hin' : b ∈ a :: l) by (rewrite Hp; left).
        apply elem_of_cons in Hin as [?|Hin]; [done|].
        apply elem_of_cons in Hin' as [?|Hin']; [done|].
        rewrite Forall_forall in Ha, Hb.
        specialize (Ha _ Hin'). specialize (Hb _ Hin).
        unfold strictly_precedes in *.
        rewrite compareFn_opp in Hb. lra. }
      f_equal. apply IH; [|done]. by apply Permutation_cons_inv in Hp.
Qed.

Lemma tie_free_Permutation l l' : l ≡ₚ l' -> tie_free compareFn l -> tie_free compareFn l'.
Proof.
  intros Hp [Hnd Ht]. split; [by rewrite <- Hp|].
  intros a b Ha Hb. rewrite <- Hp in Ha, Hb. by apply Ht.
Qed.

Lemma sorted_tie_free_strict l :
  tie_free compareFn l -> StronglySorted (precedes compareFn) l -> StronglySorted (strictly_precedes compareFn) l.
Proof.
  intros [Hnd Ht] Hs. induction Hs as [|a l Hs IH Ha]; [constructor|].
  apply NoDup_cons in Hnd as [Hnotin Hnd].
  constructor.
  - apply IH; [done|]. intros b c Hb Hc. apply Ht; by right.
  - rewrite Forall_forall in Ha |- *. intros b Hb.
    specialize (Ha _ Hb). unfold precedes, strictly_precedes in *.
    destruct (Qlt_le_dec (compareFn a b) 0) as [|Hge]; [done|].
    assert (a = b) as ->; [|done].
    apply Ht; [by left|by right|]. lra.
Qed.

(** Without ties the sorted arrangement does not depend on the order in
    which the entries were given. *)
Lemma js_sort_tie_free_Permutation l l' :
  l ≡ₚ l' -> tie_free compareFn l -> js_sort compareFn l = js_sort compareFn l'.
Proof using compareFn_opp compareFn_trans.
  intros Hp Ht. apply strictly_sorted_unique.
  - by rewrite !js_sort_Permutation.
  - apply sorted_tie_free_strict; [|apply js_sort_sorted].
    eapply tie_free_Permutation; [|exact Ht]. symmetry. apply js_sort_Permutation.
  - apply sorted_tie_free_strict; [|apply js_sort_sorted].
    eapply tie_free_Permutation; [|exact Ht].
    etrans; [exact Hp|]. symmetry. apply js_sort_Permutation.
Qed.
End JsSortFacts.

(** The sort commutes with a change of representation. *)
Lemma js_sort_map {T U : Type} (g : U -> T) (compareFn : T -> T -> Q) (l : list U) :
  js_sort compareFn (map g l) = map g (js_sort (fun a b => compareFn (g a) (g b)) l).
Proof.
  induction l as [|a l IH]; simpl; [done|].
  rewrite IH. generalize (js_sort (fun a b => compareFn (g a) (g b)) l).
  intros s. induction s as [|b s IHs]; simpl; [done|].
  destruct (Qlt_bool 0 (compareFn (g a) (g b))); simpl; [by rewrite IHs|done].
Qed.

Lemma js_sort_ext {T : Type} (f g : T -> T -> Q) (l : list T) :
  (forall a b, f a b = g a b) -> js_sort f l = js_sort g l.
Proof.
  intros H. induction l as [|a l IH]; simpl; [done|].
  rewrite IH. generalize (js_sort g l).
  intros s. induction s as [|b s IHs]; simpl; [done|].
  rewrite H. by rewrite IHs.
Qed.

Lemma StronglySorted_weaken {T : Type} (R S : T -> T -> Prop) (l : list T) :
  (forall a b, R a b -> S a b) -> StronglySorted R l -> StronglySorted S l.
Proof.
  intros HRS. induction 1 as [|a l Hs IH Ha]; constructor; [done|].
  eapply Forall_impl; [exact Ha|]. intros b. apply HRS.
Qed.

(** * Exchanging neighbours *)

Section SwapFacts.
Context {T : Type}.

Lemma swaps_trans (Q : T -> T -> Prop) l1 l2 l3 :
  swaps Q l1 l2 -> swaps Q l2 l3 -> swaps Q l1 l3.
Proof.
  induction 1 as [l|k1 a b k2 l' Hab Hs IH]; [done|].
  intros H3. eapply swaps_step; [done|]. by apply IH.
Qed.

Lemma swaps_weaken (Q Q' : T -> T -> Prop) l l' :
  (forall a b, Q a b -> Q' a b) -> swaps Q l l' -> swaps Q' l l'.
Proof.
  intros HQ. induction 1 as [l|k1 a b k2 l' Hab Hs IH]; [constructor|].
  eapply swaps_step; [by apply HQ|done].
Qed.

Lemma swaps_app_l (Q : T -> T -> Prop) k l l' :
  swaps Q l l' -> swaps Q (k ++ l) (k ++ l').
Proof.
  induction 1 as [l|k1 a b k2 l' Hab Hs IH]; [constructor|].
  rewrite app_assoc. eapply swaps_step; [done|]. by rewrite <- app_assoc.
Qed.

Lemma swaps_app_r (Q : T -> T -> Prop) k l l' :
  swaps Q l l' -> swaps Q (l ++ k) (l' ++ k).
Proof.
  induction 1 as [l|k1 a b k2 l' Hab Hs IH]; [constructor|].
  rewrite <- app_assoc. cbn [app]. eapply swaps_step; [done|].
  by rewrite <- app_assoc in IH.
Qed.

Lemma swaps_app (Q : T -> T -> Prop) l1 l1' l2 l2' :
  swaps Q l1 l1' -> swaps Q l2 l2' -> swaps Q (l1 ++ l2) (l1' ++ l2').
Proof.
  intros H1 H2. eapply swaps_trans; [by apply swaps_app_r|by apply swaps_app_l].
Qed.

Lemma swaps_cons (Q : T -> T -> Prop) x l l' :
  swaps Q l l' -> swaps Q (x :: l) (x :: l').
Proof. apply (swaps_app_l Q [x]). Qed.

Lemma swaps_Permutation (Q : T -> T -> Prop) l l' : swaps Q l l' -> l ≡ₚ l'.
Proof.
  induction 1 as [l|k1 a b k2 l' Hab Hs IH]; [done|].
  rewrite <- IH. apply Permutation_app_head, perm_swap.
Qed.

(** A property of all ordered pairs that holds of [b], [a] whenever [a], [b]
    may be exchanged survives the exchanges. *)
Lemma swaps_StronglySorted (Q R : T -> T -> Prop) l l' :
  (forall a b, Q a b -> R b a) ->
  swaps Q l l' -> StronglySorted R l -> StronglySorted R l'.
Proof.
  intros HQR. induction 1 as [l|k1 a b k2 l' Hab Hs IH]; [done|].
  intros Hsorted. apply IH.
  rewrite StronglySorted_app in Hsorted |- *.
  destruct Hsorted as (Hcross & Hk1 & Hab2).
  rewrite !StronglySorted_cons in Hab2. destruct Hab2 as (Ha & Hb & Hk2).
  apply Forall_cons in Ha as [_ Ha].
  split; [|split; [done|]].
  - intros x y Hx Hy. apply Hcross; [done|].
    rewrite !elem_of_cons in Hy |- *. tauto.
  - rewrite !StronglySorted_cons. split; [|done].
    constructor; [by apply HQR|done].
Qed.

(** The sort only ever exchanges neighbours that the comparator wants in
    the other order. *)
Lemma sort_insert_swaps (compareFn : T -> T -> Q) a l :
  swaps (fun a b => 0 < compareFn a b) (a :: l) (sort_insert compareFn a l).
Proof.
  induction l as [|b l IH]; cbn [sort_insert]; [constructor|].
  destruct (Qlt_bool 0 (compareFn a b)) eqn:E; [|constructor].
  apply Qlt_bool_iff in E.
  apply (swaps_step _ [] a b l); [done|]. by apply swaps_cons.
Qed.

Lemma js_sort_swaps (compareFn : T -> T -> Q) l :
  swaps (fun a b => 0 < compareFn a b) l (js_sort compareFn l).
Proof.
  induction l as [|a l IH]; cbn [js_sort foldr]; [constructor|].
  eapply swaps_trans; [apply swaps_cons, IH|]. apply sort_insert_swaps.
Qed.
End SwapFacts.

(** * The sort and an exchange of two neighbours in its input *)

Section SortSwapFacts.
Context {T : Type} (compareFn : T -> T -> Q).
Hypothesis compareFn_opp : forall a b, compareFn b a == - compareFn a b.
Hypothesis compareFn_trans :
  forall a b c, compareFn a b <= 0 -> compareFn b c <= 0 -> compareFn a c <= 0.

(** Entries that compare equal compare alike with every other entry. *)
Lemma tie_compare_l a b y :
  compareFn a b == 0 ->
  Qlt_bool 0 (compareFn a y) = Qlt_bool 0 (compareFn b y).
Proof using compareFn_opp compareFn_trans.
  intros Htie.
  assert (Hab : compareFn a b <= 0) by lra.
  assert (Hba : compareFn b a <= 0) by (rewrite compareFn_opp; lra).
  destruct (Qlt_bool 0 (compareFn a y)) eqn:Ea, (Qlt_bool 0 (compareFn b y)) eqn:Eb;
    try done; exfalso.
  - apply Qlt_bool_iff in Ea. apply Qlt_bool_false in Eb.
    pose proof (compareFn_trans a b y Hab Eb). lra.
  - apply Qlt_bool_iff in Eb. apply Qlt_bool_false in Ea.
    pose proof (compareFn_trans b a y Hba Ea). lra.
Qed.

Lemma tie_compare_r a b x :
  compareFn a b == 0 ->
  Qlt_bool 0 (compareFn x a) = Qlt_bool 0 (compareFn x b).
Proof using compareFn_opp compareFn_trans.
  intros Htie.
  assert (Hab : compareFn a b <= 0) by lra.
  assert (Hba : compareFn b a <= 0) by (rewrite compareFn_opp; lra).
  destruct (Qlt_bool 0 (compareFn x a)) eqn:Ea, (Qlt_bool 0 (compareFn x b)) eqn:Eb;
    try done; exfalso.
  - apply Qlt_bool_iff in Ea. apply Qlt_bool_false in Eb.
    pose proof (compareFn_trans x b a Eb Hba). lra.
  - apply Qlt_bool_iff in Eb. apply Qlt_bool_false in Ea.
    pose proof (compareFn_trans x a b Ea Hab). lra.
Qed.

(** Two entries one of which has to come first are inserted to the same
    effect in either order. *)
Lemma sort_insert_comm a b l :
  compareFn a b < 0 ->
  sort_insert compareFn a (sort_insert compareFn b l)
  = sort_insert compareFn b (sort_insert compareFn a l).
Proof using compareFn_opp compareFn_trans.
  intros Hab.
  assert (Ha_b : Qlt_bool 0 (compareFn a b) = false) by (apply Qlt_bool_false; lra).
  assert (Hb_a : Qlt_bool 0 (compareFn b a) = true).
  { apply Qlt_bool_iff. rewrite compareFn_opp. lra. }
  induction l as [|y l IH]; cbn [sort_insert].
  - by rewrite Ha_b, Hb_a.
  - destruct (Qlt_bool 0 (compareFn b y)) eqn:Eb; cbn [sort_insert].
    + destruct (Qlt_bool 0 (compareFn a y)) eqn:Ea; cbn [sort_insert].
      * by rewrite Eb, IH.
      * by rewrite Hb_a, Eb.
    + assert (Ea : Qlt_bool 0 (compareFn a y) = false).
      { apply Qlt_bool_false. apply Qlt_bool_false in Eb.
        apply (compareFn_trans a b y); [lra|done]. }
      rewrite Ea, Ha_b. cbn [sort_insert]. by rewrite Hb_a, Eb.
Qed.

Lemma js_sort_app l1 l2 :
  js_sort compareFn (l1 ++ l2)
  = foldr (sort_insert compareFn) (js_sort compareFn l2) l1.
Proof. unfold js_sort. apply foldr_app. Qed.

(** Exchanging two neighbours that do not compare equal does not change
    the sorted arrangement. *)
Lemma js_sort_swap_distinct l1 a b l2 :
  ~ compareFn a b == 0 ->
  js_sort compareFn (l1 ++ a :: b :: l2) = js_sort compareFn (l1 ++ b :: a :: l2).
Proof using compareFn_opp compareFn_trans.
  intros Hne. rewrite !js_sort_app. f_equal. cbn [js_sort foldr].
  destruct (Qlt_le_dec (compareFn a b) 0) as [Hlt|Hge].
  - by apply sort_insert_comm.
  - symmetry. apply sort_insert_comm. rewrite compareFn_opp.
    destruct (Qlt_le_dec 0 (compareFn a b)) as [?|Hle]; [lra|].
    exfalso. apply Hne. lra.
Qed.

(** Exchanging two neighbours that compare equal exchanges them, still
    neighbours, in the sorted arrangement. *)
Lemma sort_insert_tie a b l :
  compareFn a b == 0 ->
  exists m1 m2,
    sort_insert compareFn a (sort_insert compareFn b l) = m1 ++ a :: b :: m2
    /\ sort_insert compareFn b (sort_insert compareFn a l) = m1 ++ b :: a :: m2.
Proof using compareFn_opp compareFn_trans.
  intros Htie.
  assert (Ha_b : Qlt_bool 0 (compareFn a b) = false) by (apply Qlt_bool_false; lra).
  assert (Hb_a : Qlt_bool 0 (compareFn b a) = false).
  { apply Qlt_bool_false. rewrite compareFn_opp. lra. }
  induction l as [|y l (m1 & m2 & IH1 & IH2)]; cbn [sort_insert].
  - exists [], []. by rewrite Ha_b, Hb_a.
  - rewrite (tie_compare_l a b y Htie).
    destruct (Qlt_bool 0 (compareFn b y)) eqn:Eb; cbn [sort_insert].
    + rewrite (tie_compare_l a b y Htie), Eb, IH1, IH2. by exists (y :: m1), m2.
    + rewrite Ha_b, Hb_a. by exists [], (y :: l).
Qed.

Lemma sort_insert_adjacent_tie x a b m1 m2 :
  compareFn a b == 0 ->
  exists k1 k2,
    sort_insert compareFn x (m1 ++ a :: b :: m2) = k1 ++ a :: b :: k2
    /\ sort_insert compareFn x (m1 ++ b :: a :: m2) = k1 ++ b :: a :: k2.
Proof using compareFn_opp compareFn_trans.
  intros Htie. induction m1 as [|y m1 (k1 & k2 & IH1 & IH2)]; cbn [app sort_insert].
  - rewrite (tie_compare_r a b x Htie).
    destruct (Qlt_bool 0 (compareFn x b)) eqn:Eb.
    + by exists [], (sort_insert compareFn x m2).
    + by exists [x], m2.
  - destruct (Qlt_bool 0 (compareFn x y)).
    + rewrite IH1, IH2. by exists (y :: k1), k2.
    + by exists (x :: y :: m1), m2.
Qed.

Lemma js_sort_swap_tie l1 a b l2 :
  compareFn a b == 0 ->
  exists m1 m2,
    js_sort compareFn (l1 ++ a :: b :: l2) = m1 ++ a :: b :: m2
    /\ js_sort compareFn (l1 ++ b :: a :: l2) = m1 ++ b :: a :: m2.
Proof using compareFn_opp compareFn_trans.
  intros Htie. induction l1 as [|x l1 (m1 & m2 & IH1 & IH2)].
  - apply (sort_insert_tie a b (js_sort compareFn l2) Htie).
  - cbn [app js_sort foldr]. fold (js_sort compareFn (l1 ++ a :: b :: l2)).
    fold (js_sort compareFn (l1 ++ b :: a :: l2)). rewrite IH1, IH2.
    by apply sort_insert_adjacent_tie.
Qed.
End SortSwapFacts.

(** * The element resolver *)

Section ResolverFacts.
Context {T : Type} (el : T -> InteractiveElement).

(** ** The three comparators are consistent *)

Lemma byTop_opp a b : byTop el b a == - byTop el a b.
Proof. unfold byTop. ring. Qed.

Lemma byTop_trans a b c :
  byTop el a b <= 0 -> byTop el b c <= 0 -> byTop el a c <= 0.
Proof. unfold byTop. lra. Qed.

Lemma byLeft_opp a b : byLeft el b a == - byLeft el a b.
Proof. unfold byLeft. ring. Qed.

Lemma byLeft_trans a b c :
  byLeft el a b <= 0 -> byLeft el b c <= 0 -> byLeft el a c <= 0.
Proof. unfold byLeft. lra. Qed.

Lemma byAreaThenWeight_cases a b :
  (~ area el b == area el a /\ byAreaThenWeight el a b = area el b - area el a)
  \/ (area el b == area el a
      /\ byAreaThenWeight el a b = weight (el b) - weight (el a)).
Proof.
  unfold byAreaThenWeight.
  destruct (Qeq_bool (area el b) (area el a)) eqn:E; simpl.
  - right. split; [by apply Qeq_bool_iff|done].
  - left. split; [|done]. intros H. apply Qeq_bool_iff in H. congruence.
Qed.

Lemma byAreaThenWeight_opp a b :
  byAreaThenWeight el b a == - byAreaThenWeight el a b.
Proof.
  destruct (byAreaThenWeight_cases a b) as [[H1 ->]|[H1 ->]],
           (byAreaThenWeight_cases b a) as [[H2 ->]|[H2 ->]];
    try ring; exfalso.
  - apply H1. by symmetry.
  - apply H2. by symmetry.
Qed.

Lemma byAreaThenWeight_trans a b c :
  byAreaThenWeight el a b <= 0 -> byAreaThenWeight el b c <= 0 ->
  byAreaThenWeight el a c <= 0.
Proof.
  destruct (byAreaThenWeight_cases a b) as [[H1 ->]|[H1 ->]],
           (byAreaThenWeight_cases b c) as [[H2 ->]|[H2 ->]],
           (byAreaThenWeight_cases a c) as [[H3 ->]|[H3 ->]];
    intros; try lra; exfalso;
    first [by apply H3; lra | by apply H1; lra | by apply H2; lra].
Qed.

Lemma precedes_area_then_weight a b :
  precedes (byAreaThenWeight el) a b <-> area_then_weight_desc el a b.
Proof.
  unfold precedes, area_then_weight_desc.
  destruct (byAreaThenWeight_cases a b) as [[H1 ->]|[H1 ->]]; split.
  - intros H. left. destruct (Qlt_le_dec (area el b) (area el a)); [done|].
    exfalso. apply H1. lra.
  - intros [H|[H _]]; [lra|]. exfalso. apply H1. by symmetry.
  - intros H. right. split; [by symmetry|lra].
  - intros [H|[_ H]]; lra.
Qed.

Lemma sortedByArea_Permutation elements : sortedByArea el elements ≡ₚ elements.
Proof. apply js_sort_Permutation. Qed.

Lemma sortedByArea_sorted elements :
  StronglySorted (area_then_weight_desc el) (sortedByArea el elements).
Proof.
  eapply StronglySorted_weaken; [|apply js_sort_sorted].
  - intros a b. apply precedes_area_then_weight.
  - apply byAreaThenWeight_opp.
  - apply byAreaThenWeight_trans.
Qed.

Lemma containerOutranks_bool current existing :
  Qle_bool (weight (el current)) (weight (el existing))
    && Z.eqb (zIndex (el existing)) (zIndex (el current)) = true
  <-> containerOutranks el current existing.
Proof.
  unfold containerOutranks.
  rewrite andb_true_iff, Qle_bool_iff, Z.eqb_eq. done.
Qed.

Lemma checkAgainst_undecided iouThreshold current existing rest :
  ~ decides el iouThreshold current existing ->
  checkAgainst el iouThreshold current (existing :: rest)
  = (let '(shouldAdd, rest') := checkAgainst el iouThreshold current rest in
     (shouldAdd, existing :: rest')).
Proof.
  intros Hn. simpl.
  destruct (Qlt_bool _ _) eqn:E1.
  { exfalso. apply Hn. left. by apply Qlt_bool_iff. }
  destruct (isFullyContained _ _) eqn:E2; [|done].
  destruct (Qle_bool (weight _) _ && _) eqn:E3.
  { exfalso. apply Hn. right. split; [done|]. left.
    by apply containerOutranks_bool. }
  destruct (Qle_bool (area el existing * _) _) eqn:E4; [|done].
  exfalso. apply Hn. right. split; [done|]. right. by apply Qle_bool_iff.
Qed.

(** No accepted element decides el: the candidate is accepted. *)
Lemma checkAgainst_none iouThreshold current filtered :
  Forall (fun e => ~ decides el iouThreshold current e) filtered ->
  checkAgainst el iouThreshold current filtered = (true, filtered).
Proof.
  induction 1 as [|e l He Hl IH]; [done|].
  rewrite checkAgainst_undecided by done. by rewrite IH.
Qed.

Lemma checkAgainst_skip iouThreshold current before rest :
  Forall (fun e => ~ decides el iouThreshold current e) before ->
  checkAgainst el iouThreshold current (before ++ rest)
  = (let '(shouldAdd, rest') := checkAgainst el iouThreshold current rest in
     (shouldAdd, before ++ rest')).
Proof.
  induction 1 as [|e l He Hl IH].
  - rewrite app_nil_l.
    by destruct (checkAgainst el iouThreshold current rest).
  - rewrite <- app_comm_cons, checkAgainst_undecided by done. rewrite IH.
    by destruct (checkAgainst el iouThreshold current rest).
Qed.

Lemma checkAgainst_nearDuplicate iouThreshold current existing rest :
  nearDuplicate el iouThreshold current existing ->
  checkAgainst el iouThreshold current (existing :: rest)
  = (false, existing :: rest).
Proof.
  intros H. simpl. apply Qlt_bool_iff in H. by rewrite H.
Qed.

Lemma checkAgainst_containerOutranks iouThreshold current existing rest :
  ~ nearDuplicate el iouThreshold current existing ->
  containedIn el current existing ->
  containerOutranks el current existing ->
  checkAgainst el iouThreshold current (existing :: rest)
  = (false, existing :: rest).
Proof.
  intros Hn Hc Ho. simpl.
  destruct (Qlt_bool _ _) eqn:E1.
  { exfalso. apply Hn. by apply Qlt_bool_iff. }
  rewrite Hc. apply containerOutranks_bool in Ho. by rewrite Ho.
Qed.

Lemma checkAgainst_evicts iouThreshold current existing rest :
  ~ nearDuplicate el iouThreshold current existing ->
  containedIn el current existing ->
  ~ containerOutranks el current existing ->
  atLeastHalf el current existing ->
  checkAgainst el iouThreshold current (existing :: rest) = (true, rest).
Proof.
  intros Hn Hc Ho Hh. simpl.
  destruct (Qlt_bool _ _) eqn:E1.
  { exfalso. apply Hn. by apply Qlt_bool_iff. }
  rewrite Hc.
  destruct (Qle_bool (weight _) _ && _) eqn:E3.
  { exfalso. apply Ho. by apply containerOutranks_bool. }
  apply Qle_bool_iff in Hh. by rewrite Hh.
Qed.
End ResolverFacts.

(** * Overlap filtering *)

(** The child has an IoU of 12/13 with the accepted neighbour, above the
    threshold 0.7, and is nevertheless kept: the container, met first,
    is evicted and the scan stops there. *)
Lemma C3_counterexample :
  sortedByArea id [ex_container; ex_neighbour; ex_child]
    = [ex_container; ex_neighbour; ex_child]
  /\ fold_left (considerCandidate id defaultIouThreshold)
       [ex_container; ex_neighbour] [] = [ex_container; ex_neighbour]
  /\ ex_neighbour ∈ [ex_container; ex_neighbour]
  /\ nearDuplicate id defaultIouThreshold ex_child ex_neighbour
  /\ considerCandidate id defaultIouThreshold [ex_container; ex_neighbour] ex_child
     = [ex_neighbour; ex_child]
  /\ filterOverlappingElements id [ex_container; ex_neighbour; ex_child]
       defaultIouThreshold = [ex_neighbour; ex_child].
Proof.
  split; [by vm_compute|]. split; [by vm_compute|].
  split; [set_solver|]. split; [by vm_compute|].
  split; by vm_compute.
Qed.

(** C3 (as amended).  Candidates are processed in the order of the sorted
    array, a rearrangement of the input by descending area and, among equal
    areas, descending weight.  A candidate is compared with the accepted
    elements in the order of their acceptance and the first one that decides
    settles it: an IoU above the threshold drops the candidate; otherwise, if
    the candidate lies inside that element, it is dropped when the container
    has equal-or-greater weight and the same z-index, and else, when its area
    is at least half the container's, the container is removed and the
    candidate appended.  A candidate that no accepted element decides is
    appended. *)
Theorem C3_overlap_filtering (elements : list InteractiveElement) (iouThreshold : Q) :
  filterOverlappingElements id elements iouThreshold
    = fold_left (considerCandidate id iouThreshold) (sortedByArea id elements) []
  /\ sortedByArea id elements ≡ₚ elements
  /\ StronglySorted (area_then_weight_desc id) (sortedByArea id elements)
  /\ forall (accepted : list InteractiveElement) (candidate : InteractiveElement),
      (Forall (fun e => ~ decides id iouThreshold candidate e) accepted ->
       considerCandidate id iouThreshold accepted candidate = accepted ++ [candidate])
      /\ forall before existing after,
          accepted = before ++ existing :: after ->
          Forall (fun e => ~ decides id iouThreshold candidate e) before ->
          (nearDuplicate id iouThreshold candidate existing ->
           considerCandidate id iouThreshold accepted candidate = accepted)
          /\ (~ nearDuplicate id iouThreshold candidate existing ->
              containedIn id candidate existing ->
              containerOutranks id candidate existing ->
              considerCandidate id iouThreshold accepted candidate = accepted)
          /\ (~ nearDuplicate id iouThreshold candidate existing ->
              containedIn id candidate existing ->
              ~ containerOutranks id candidate existing ->
              atLeastHalf id candidate existing ->
              considerCandidate id iouThreshold accepted candidate
              = before ++ after ++ [candidate]).
Proof.
  split; [by destruct elements|].
  split; [apply sortedByArea_Permutation|].
  split; [apply sortedByArea_sorted|].
  intros accepted candidate. split.
  - intros H. unfold considerCandidate. by rewrite checkAgainst_none.
  - intros before existing after -> Hbefore. unfold considerCandidate.
    rewrite checkAgainst_skip by done.
    split; [|split].
    + intros H. by rewrite checkAgainst_nearDuplicate.
    + intros H1 H2 H3. by rewrite checkAgainst_containerOutranks.
    + intros H1 H2 H3 H4. rewrite checkAgainst_evicts by done.
      by rewrite app_assoc.
Qed.

Lemma C3_overlap_filtering_witness :
  considerCandidate id defaultIouThreshold [ex_container; ex_neighbour] ex_child
  = [] ++ [ex_neighbour] ++ [ex_child].
Proof.
  pose proof (C3_overlap_filtering [ex_container; ex_neighbour; ex_child]
                defaultIouThreshold) as (_ & _ & _ & H).
  destruct (H [ex_container; ex_neighbour] ex_child) as [_ H'].
  destruct (H' [] ex_container [ex_neighbour] eq_refl (List.Forall_nil _)) as (_ & _ & H'').
  apply H''.
  - unfold nearDuplicate. vm_compute. discriminate.
  - reflexivity.
  - unfold containerOutranks. vm_compute. intros [H1 _]. by apply H1.
  - unfold atLeastHalf. vm_compute. discriminate.
Defined.

(** * Reading order *)

Section ReadingOrderFacts.
Context {T : Type} (el : T -> InteractiveElement).

Lemma sameRowb_iff a b : sameRowb el a b = true <-> sameRow el a b.
Proof. apply Qle_bool_iff. Qed.

Lemma groupStep_snoc rows currentRow previous element :
  groupStep el (rows, currentRow ++ [previous]) element
  = if sameRowb el previous element
    then (rows, (currentRow ++ [previous]) ++ [element])
    else (rows ++ [currentRow ++ [previous]], [element]).
Proof. unfold groupStep. by rewrite last_snoc. Qed.

(** The grouping loop, entered with a non-empty current row. *)
Lemma groupStep_fold l rows currentRow previous :
  fold_left (groupStep el) l (rows, currentRow ++ [previous])
  = (let '(row, rows') := splitRows el previous l in
     match rows' with
     | [] => (rows, currentRow ++ previous :: row)
     | _ => (rows ++ (currentRow ++ previous :: row) :: removelast rows',
             default [] (last rows'))
     end).
Proof.
  revert rows currentRow previous.
  induction l as [|element l IH]; intros rows currentRow previous; [done|].
  cbn [fold_left splitRows]. rewrite groupStep_snoc.
  destruct (sameRowb el previous element).
  - rewrite IH. destruct (splitRows el element l) as [row rows'].
    by rewrite <- !app_assoc.
  - pose proof (IH (rows ++ [currentRow ++ [previous]]) [] element) as IH'.
    cbn [app] in IH'. rewrite IH'.
    destruct (splitRows el element l) as [row rows'].
    destruct rows' as [|r rows']; [done|].
    by rewrite <- !app_assoc.
Qed.

Lemma splitRows_rows_nonempty previous l :
  Forall (fun row => row <> []) (splitRows el previous l).2.
Proof.
  revert previous. induction l as [|element l IH]; intros previous; simpl.
  - constructor.
  - specialize (IH element). destruct (splitRows el element l) as [row rows].
    destruct (sameRowb el previous element); simpl in *; [done|].
    by constructor.
Qed.

Lemma removelast_snoc_last {A : Type} (L : list (list A)) :
  L <> [] -> Forall (fun row => row <> []) L ->
  exists r, default [] (last L) = r /\ r <> [] /\ removelast L ++ [r] = L.
Proof.
  destruct L as [|r L] using rev_ind; [done|]. intros _ H.
  rewrite removelast_last, last_snoc. simpl.
  exists r. split; [done|]. split; [|done].
  rewrite List.Forall_app in H. destruct H as [_ H]. by inversion H.
Qed.

(** The loop computes the rows of the reading-order rule. *)
Lemma groupRows_rowsOf l : groupRows el l = rowsOf el l.
Proof.
  unfold groupRows. destruct l as [|first l]; [done|].
  cbn [fold_left rowsOf].
  change (groupStep el ([], []) first) with (@nil (list T), [first]).
  pose proof (groupStep_fold l [] [] first) as Hfold.
  cbn [app] in Hfold. rewrite Hfold. clear Hfold.
  pose proof (splitRows_rows_nonempty first l) as Hne.
  destruct (splitRows el first l) as [row rows']. cbn [snd] in Hne.
  destruct rows' as [|r0 rows0]; [done|].
  destruct (removelast_snoc_last (r0 :: rows0)) as (r & -> & Hr & Heq); [done|done|].
  destruct r; [done|]. cbn [app]. by rewrite Heq.
Qed.

Lemma splitRows_spec previous l :
  let '(row, rows) := splitRows el previous l in
  row ++ concat rows = l
  /\ chained el (previous :: row)
  /\ Forall (chained el) rows
  /\ separated el ((previous :: row) :: rows).
Proof.
  revert previous. induction l as [|element l IH]; intros previous.
  - by cbn.
  - cbn [splitRows]. specialize (IH element).
    destruct (splitRows el element l) as [row rows].
    destruct IH as (Hcat & Hch & Hrows & Hsep).
    destruct (sameRowb el previous element) eqn:E.
    + apply sameRowb_iff in E.
      split; [by rewrite <- Hcat|]. split; [done|]. split; [done|].
      destruct rows as [|row2 rows]; [done|].
      destruct Hsep as [Hsep1 Hsep2]. split; [|done].
      intros a b Ha Hb. apply Hsep1; [|done]. by rewrite last_cons_cons in Ha.
    + split; [by rewrite <- Hcat|]. split; [done|].
      split; [by constructor|]. split; [|done].
      intros a b [= <-] [= <-] Hs. apply sameRowb_iff in Hs. congruence.
Qed.

(** The rows are consecutive runs of the processed sequence, none of them
    empty; inside a run neighbours are within the tolerance, and a run ends
    exactly where the next element is out of the tolerance of the last one
    added. *)
Lemma rowsOf_spec l :
  concat (rowsOf el l) = l
  /\ Forall (fun row => row <> []) (rowsOf el l)
  /\ Forall (chained el) (rowsOf el l)
  /\ separated el (rowsOf el l).
Proof.
  destruct l as [|first l]; [by repeat split; constructor|].
  cbn [rowsOf]. pose proof (splitRows_spec first l) as H.
  pose proof (splitRows_rows_nonempty first l) as Hne.
  destruct (splitRows el first l) as [row rows].
  destruct H as (Hcat & Hch & Hrows & Hsep).
  split; [by rewrite <- Hcat|]. split; [by constructor|].
  split; [by constructor|done].
Qed.

Lemma js_sort_byTop_sorted l :
  StronglySorted (top_ascending el) (js_sort (byTop el) l).
Proof.
  eapply StronglySorted_weaken; [|apply js_sort_sorted].
  - intros a b. unfold precedes, byTop, top_ascending. lra.
  - apply byTop_opp.
  - apply byTop_trans.
Qed.

Lemma js_sort_byLeft_sorted l :
  StronglySorted (left_ascending el) (js_sort (byLeft el) l).
Proof.
  eapply StronglySorted_weaken; [|apply js_sort_sorted].
  - intros a b. unfold precedes, byLeft, left_ascending. lra.
  - apply byLeft_opp.
  - apply byLeft_trans.
Qed.
End ReadingOrderFacts.

Lemma reindex_lookup l i :
  reindex l !! i = (fun e => set_index e i) <$> l !! i.
Proof. unfold reindex. apply list_lookup_imap. Qed.

Lemma reindex_length l : length (reindex l) = length l.
Proof. unfold reindex. apply length_imap. Qed.

Lemma sortElementsByPosition_reindex elements :
  sortElementsByPosition elements = reindex (positionOrder id elements).
Proof. by destruct elements. Qed.

Lemma sortElementsByPosition_index elements i e :
  sortElementsByPosition elements !! i = Some e -> index e = i.
Proof.
  rewrite sortElementsByPosition_reindex, reindex_lookup.
  destruct (positionOrder id elements !! i); [|done]. by intros [= <-].
Qed.

(** Two elements whose top edges are further apart than the tolerance. *)
Lemma rows_of_two_apart (a b : InteractiveElement) :
  Rect.top (rect a) + ROW_THRESHOLD < Rect.top (rect b) ->
  js_sort (byTop id) [a; b] = [a; b]
  /\ js_sort (byTop id) [b; a] = [a; b]
  /\ groupRows id [a; b] = [[a]; [b]].
Proof.
  unfold ROW_THRESHOLD. intros H.
  assert (Hab : Qlt_bool 0 (byTop id a b) = false).
  { apply Qlt_bool_false. unfold byTop, id. lra. }
  assert (Hba : Qlt_bool 0 (byTop id b a) = true).
  { apply Qlt_bool_iff. unfold byTop, id. lra. }
  split; [by cbn; rewrite Hab|]. split; [by cbn; rewrite Hba|].
  rewrite groupRows_rowsOf. cbn [rowsOf splitRows].
  assert (Hrow : sameRowb id a b = false).
  { destruct (sameRowb id a b) eqn:E; [|done]. exfalso.
    apply sameRowb_iff in E. unfold sameRow, ROW_THRESHOLD, id in E.
    rewrite Qabs_pos in E; lra. }
  by rewrite Hrow.
Qed.

(** Two elements whose top edges are within the tolerance, given in either
    order. *)
Lemma rows_of_two_close (a b : InteractiveElement) :
  Qabs (Rect.top (rect b) - Rect.top (rect a)) <= ROW_THRESHOLD ->
  Rect.left (rect a) < Rect.left (rect b) ->
  forall l, l = [a; b] \/ l = [b; a] ->
    (groupRows id (js_sort (byTop id) l) = [[a; b]]
     \/ groupRows id (js_sort (byTop id) l) = [[b; a]])
    /\ sortElementsByPosition l = [set_index a 0; set_index b 1].
Proof.
  unfold ROW_THRESHOLD. intros H1 H3 l Hl.
  apply Qabs_Qle_condition in H1.
  assert (Hrow : forall c d, (c = a \/ c = b) -> (d = a \/ d = b) -> sameRowb id c d = true).
  { intros c d Hc Hd. apply sameRowb_iff. unfold sameRow, ROW_THRESHOLD, id.
    apply Qabs_Qle_condition. destruct Hc as [->| ->], Hd as [->| ->]; split; lra. }
  assert (Hab : Qlt_bool 0 (byLeft id a b) = false).
  { apply Qlt_bool_false. unfold byLeft, id. lra. }
  assert (Hba : Qlt_bool 0 (byLeft id b a) = true).
  { apply Qlt_bool_iff. unfold byLeft, id. lra. }
  assert (Hrows : forall c d, (c = a /\ d = b) \/ (c = b /\ d = a) ->
            groupRows id [c; d] = [[c; d]]
            /\ reindex (concat (map (js_sort (byLeft id)) [[c; d]]))
               = [set_index a 0; set_index b 1]).
  { intros c d Hcd. rewrite groupRows_rowsOf. cbn [rowsOf splitRows].
    rewrite Hrow by (destruct Hcd as [[-> ->]|[-> ->]]; auto).
    split; [done|].
    destruct Hcd as [[-> ->]|[-> ->]]; cbn; rewrite ?Hab, ?Hba; reflexivity. }
  rewrite sortElementsByPosition_reindex. unfold positionOrder.
  assert (Hsort : js_sort (byTop id) l = [a; b] \/ js_sort (byTop id) l = [b; a]).
  { destruct Hl as [-> | ->]; unfold js_sort; cbn [foldr sort_insert];
      destruct (Qlt_bool 0 (byTop id _ _)); first [by left | by right]. }
  destruct Hsort as [-> | ->].
  - destruct (Hrows a b) as [-> ->]; auto.
  - destruct (Hrows b a) as [-> ->]; auto.
Qed.

(** C6.  The reading-order sort takes the elements in ascending order of
    their top edge and cuts that sequence into rows: an element joins the
    current row if and only if its top edge is within 20 pixels of the
    element added last.  Every row is then sorted by ascending left edge, the
    rows are flattened from the top one down, and the [index] fields are
    0, 1, 2, ... along the result.  Elements at y = 0 and y = 30 are in
    separate rows; elements at y = 0 and y = 15 are in one row, the one
    further left first. *)
Theorem C6_reading_order (elements : list InteractiveElement) :
  let sortedByY := js_sort (byTop id) elements in
  let rows := groupRows id sortedByY in
  let sortedElements := concat (map (js_sort (byLeft id)) rows) in
  (sortedByY ≡ₚ elements /\ StronglySorted (top_ascending id) sortedByY)
  /\ (concat rows = sortedByY
      /\ Forall (fun row => row <> []) rows
      /\ Forall (chained id) rows
      /\ separated id rows)
  /\ Forall (fun row => js_sort (byLeft id) row ≡ₚ row
                        /\ StronglySorted (left_ascending id) (js_sort (byLeft id) row))
            rows
  /\ sortElementsByPosition elements = imap (fun i e => set_index e i) sortedElements
  /\ (forall i e, sortElementsByPosition elements !! i = Some e -> index e = i)
  /\ (forall a b : InteractiveElement,
        Rect.top (rect a) == 0 -> Rect.top (rect b) == 30 ->
        groupRows id (js_sort (byTop id) [a; b]) = [[a]; [b]]
        /\ groupRows id (js_sort (byTop id) [b; a]) = [[a]; [b]])
  /\ (forall a b : InteractiveElement,
        (Rect.top (rect a) == 0 /\ Rect.top (rect b) == 15)
        \/ (Rect.top (rect a) == 15 /\ Rect.top (rect b) == 0) ->
        Rect.left (rect a) < Rect.left (rect b) ->
        forall l, l = [a; b] \/ l = [b; a] ->
          (exists row, groupRows id (js_sort (byTop id) l) = [row])
          /\ sortElementsByPosition l = [set_index a 0; set_index b 1]).
Proof.
  intros sortedByY rows sortedElements.
  split; [split; [apply js_sort_Permutation|apply js_sort_byTop_sorted]|].
  split; [unfold rows; rewrite groupRows_rowsOf; apply rowsOf_spec|].
  split.
  { apply Forall_forall. intros row _.
    split; [apply js_sort_Permutation|apply js_sort_byLeft_sorted]. }
  split; [apply sortElementsByPosition_reindex|].
  split; [apply sortElementsByPosition_index|].
  split.
  - intros a b Ha Hb.
    destruct (rows_of_two_apart a b) as (H1 & H2 & H3).
    { unfold ROW_THRESHOLD. lra. }
    by rewrite H1, H2, H3.
  - intros a b Htop Hleft l Hl.
    destruct (rows_of_two_close a b) with (l := l) as [Hrows Hres]; try done.
    { unfold ROW_THRESHOLD. apply Qabs_Qle_condition.
      destruct Htop as [[-> ->]|[-> ->]]; split; lra. }
    split; [|done]. destruct Hrows as [-> | ->]; eauto.
Qed.

Lemma C6_reading_order_witness :
  (groupRows id (js_sort (byTop id) [ex_y30; ex_y0]) = [[ex_y0]; [ex_y30]])
  /\ sortElementsByPosition [ex_y0; ex_y15] = [set_index ex_y15 0; set_index ex_y0 1].
Proof.
  pose proof (C6_reading_order []) as (_ & _ & _ & _ & _ & Hapart & Hclose).
  split.
  - apply (Hapart ex_y0 ex_y30); reflexivity.
  - apply (Hclose ex_y15 ex_y0); [right; split; reflexivity|reflexivity|by right].
Defined.

(** * The reading order and an exchange of two neighbours in its input *)

Section ReadingOrderSwapFacts.
Context {T : Type} (el : T -> InteractiveElement).

Lemma sameRowb_top_l a b x :
  Rect.top (rect (el a)) == Rect.top (rect (el b)) ->
  sameRowb el a x = sameRowb el b x.
Proof.
  intros Htop. unfold sameRowb.
  assert (Habs : Qabs (Rect.top (rect (el x)) - Rect.top (rect (el a)))
                 == Qabs (Rect.top (rect (el x)) - Rect.top (rect (el b)))).
  { apply Qabs_wd. lra. }
  destruct (Qle_bool (Qabs (_ - Rect.top (rect (el a)))) _) eqn:Ea,
           (Qle_bool (Qabs (_ - Rect.top (rect (el b)))) _) eqn:Eb; try done; exfalso.
  - apply Qle_bool_iff in Ea. rewrite Habs in Ea. apply Qle_bool_iff in Ea. congruence.
  - apply Qle_bool_iff in Eb. rewrite <- Habs in Eb. apply Qle_bool_iff in Eb. congruence.
Qed.

Lemma sameRowb_top_r a b x :
  Rect.top (rect (el a)) == Rect.top (rect (el b)) ->
  sameRowb el x a = sameRowb el x b.
Proof.
  intros Htop. unfold sameRowb.
  assert (Habs : Qabs (Rect.top (rect (el a)) - Rect.top (rect (el x)))
                 == Qabs (Rect.top (rect (el b)) - Rect.top (rect (el x)))).
  { apply Qabs_wd. lra. }
  destruct (Qle_bool (Qabs (Rect.top (rect (el a)) - _)) _) eqn:Ea,
           (Qle_bool (Qabs (Rect.top (rect (el b)) - _)) _) eqn:Eb; try done; exfalso.
  - apply Qle_bool_iff in Ea. rewrite Habs in Ea. apply Qle_bool_iff in Ea. congruence.
  - apply Qle_bool_iff in Eb. rewrite <- Habs in Eb. apply Qle_bool_iff in Eb. congruence.
Qed.

Lemma sameRowb_same_top a b :
  Rect.top (rect (el a)) == Rect.top (rect (el b)) -> sameRowb el a b = true.
Proof.
  intros Htop. apply Qle_bool_iff.
  assert (Qabs (Rect.top (rect (el b)) - Rect.top (rect (el a))) == Qabs 0) as ->
    by (apply Qabs_wd; lra).
  done.
Qed.

Lemma splitRows_top a b l :
  Rect.top (rect (el a)) == Rect.top (rect (el b)) ->
  splitRows el a l = splitRows el b l.
Proof.
  intros Htop. destruct l as [|x l]; [done|].
  cbn [splitRows]. by rewrite (sameRowb_top_l a b x Htop).
Qed.

Section RowwiseFunction.
Context {U : Type} (f : list T -> U) (a b : T).
Hypothesis same_top : Rect.top (rect (el a)) == Rect.top (rect (el b)).
Hypothesis f_swap : forall r1 r2, f (r1 ++ a :: b :: r2) = f (r1 ++ b :: a :: r2).

Lemma splitRows_swap m1 m2 previous pre :
  f (pre ++ (splitRows el previous (m1 ++ a :: b :: m2)).1)
  = f (pre ++ (splitRows el previous (m1 ++ b :: a :: m2)).1)
  /\ map f (splitRows el previous (m1 ++ a :: b :: m2)).2
     = map f (splitRows el previous (m1 ++ b :: a :: m2)).2.
Proof using same_top f_swap.
  revert previous pre. induction m1 as [|x m1 IH]; intros previous pre.
  - cbn [app splitRows].
    rewrite (splitRows_top a b m2 same_top).
    destruct (splitRows el b m2) as [row rows].
    rewrite (sameRowb_same_top a b same_top).
    rewrite (sameRowb_same_top b a) by by symmetry.
    rewrite (sameRowb_top_r a b previous same_top).
    destruct (sameRowb el previous b); cbn [fst snd map].
    + by rewrite f_swap.
    + split; [done|]. f_equal. apply (f_swap []).
  - cbn [app splitRows].
    destruct (IH x (pre ++ [x])) as [IH1 _]. destruct (IH x [x]) as [IH2 IH3].
    destruct (splitRows el x (m1 ++ a :: b :: m2)) as [row rows],
             (splitRows el x (m1 ++ b :: a :: m2)) as [row' rows'].
    cbn [fst snd app] in *.
    destruct (sameRowb el previous x); cbn [fst snd map].
    + split; [|done]. by rewrite !cons_middle, !app_assoc.
    + split; [done|]. by rewrite IH3, IH2.
Qed.

(** Exchanging two neighbours with the same top edge exchanges them inside
    their row and leaves the other rows alone. *)
Lemma rowsOf_swap m1 m2 :
  map f (rowsOf el (m1 ++ a :: b :: m2)) = map f (rowsOf el (m1 ++ b :: a :: m2)).
Proof using same_top f_swap.
  destruct m1 as [|x m1]; cbn [app rowsOf].
  - cbn [splitRows]. rewrite (splitRows_top a b m2 same_top).
    destruct (splitRows el b m2) as [row rows].
    rewrite (sameRowb_same_top a b same_top).
    rewrite (sameRowb_same_top b a) by by symmetry.
    cbn [map]. f_equal. apply (f_swap []).
  - destruct (splitRows_swap m1 m2 x [x]) as [H1 H2].
    destruct (splitRows el x (m1 ++ a :: b :: m2)) as [row rows],
             (splitRows el x (m1 ++ b :: a :: m2)) as [row' rows'].
    cbn [fst snd app map] in *. by rewrite H1, H2.
Qed.
End RowwiseFunction.

(** The reading order does not depend on the order in which two neighbours
    at different positions are given. *)
Lemma positionOrder_swap l1 a b l2 :
  ~ samePosition el a b ->
  positionOrder el (l1 ++ a :: b :: l2) = positionOrder el (l1 ++ b :: a :: l2).
Proof.
  intros Hpos. unfold positionOrder. rewrite !groupRows_rowsOf.
  destruct (Qeq_dec (Rect.top (rect (el a))) (Rect.top (rect (el b)))) as [Htop|Htop].
  - destruct (js_sort_swap_tie (byTop el) (byTop_opp el) (byTop_trans el) l1 a b l2)
      as (m1 & m2 & -> & ->).
    { unfold byTop. lra. }
    f_equal. apply rowsOf_swap; [done|].
    intros r1 r2. apply js_sort_swap_distinct.
    + apply byLeft_opp.
    + apply byLeft_trans.
    + unfold byLeft. intros Hleft. apply Hpos. split; [done|lra].
  - rewrite (js_sort_swap_distinct (byTop el) (byTop_opp el) (byTop_trans el) l1 a b l2);
      [done|].
    unfold byTop. intros H. apply Htop. lra.
Qed.

(** It is reached by exchanging neighbours at different positions only. *)
Lemma positionOrder_swaps l :
  swaps (fun a b => ~ samePosition el a b) l (positionOrder el l).
Proof.
  unfold positionOrder. rewrite groupRows_rowsOf.
  eapply swaps_trans.
  - eapply swaps_weaken; [|apply (js_sort_swaps (byTop el))].
    intros a b Hab [Htop _]. unfold byTop in Hab. lra.
  - destruct (rowsOf_spec el (js_sort (byTop el) l)) as [Hcat _].
    rewrite <- Hcat at 1.
    generalize (rowsOf el (js_sort (byTop el) l)). intros rows.
    induction rows as [|row rows IH]; cbn [concat map]; [constructor|].
    apply swaps_app; [|done].
    eapply swaps_weaken; [|apply (js_sort_swaps (byLeft el))].
    intros a b Hab [_ Hleft]. unfold byLeft in Hab. lra.
Qed.

Lemma positionOrder_swaps_eq l l' :
  swaps (fun a b => ~ samePosition el a b) l l' ->
  positionOrder el l' = positionOrder el l.
Proof.
  induction 1 as [l|k1 a b k2 l' Hab Hs IH]; [done|].
  rewrite IH. symmetry. by apply positionOrder_swap.
Qed.

(** Of two elements at the same position the earlier one may stay in front
    of the later one under the order of the overlap filter. *)
Definition areaOrderedWhereTied (a b : T) : Prop :=
  samePosition el a b -> byAreaThenWeight el a b <= 0.

Lemma samePosition_sym a b : samePosition el a b -> samePosition el b a.
Proof. intros [H1 H2]. split; by symmetry. Qed.

(** Where that holds of all pairs, the sort of the overlap filter exchanges
    neighbours at different positions only. *)
Lemma sortedByArea_swaps l :
  StronglySorted areaOrderedWhereTied l ->
  swaps (fun a b => ~ samePosition el a b) l (sortedByArea el l).
Proof.
  intros Hinv.
  pose proof (js_sort_swaps (byAreaThenWeight el) l) as Hswaps.
  unfold sortedByArea. revert Hinv.
  induction Hswaps as [l|k1 a b k2 l' Hab Hs IH]; intros Hinv; [constructor|].
  assert (Hpos : ~ samePosition el a b).
  { intros Hsame. apply StronglySorted_app in Hinv as (_ & _ & Hinv).
    apply StronglySorted_cons in Hinv as [Ha _].
    apply Forall_cons in Ha as [Ha _]. specialize (Ha Hsame). lra. }
  eapply swaps_step; [exact Hpos|]. apply IH.
  eapply (swaps_StronglySorted (fun a b => ~ samePosition el a b));
    [|eapply swaps_step; [exact Hpos|constructor]|exact Hinv].
  intros x y Hxy Hsame. destruct Hxy. by apply samePosition_sym.
Qed.

(** The reading order of a list sorted for the overlap filter is not
    changed by sorting it for the overlap filter again. *)
Lemma positionOrder_sortedByArea l :
  StronglySorted (precedes (byAreaThenWeight el)) l ->
  positionOrder el (sortedByArea el (positionOrder el l)) = positionOrder el l.
Proof.
  intros Hsorted.
  assert (Hinv : StronglySorted areaOrderedWhereTied (positionOrder el l)).
  { eapply (swaps_StronglySorted (fun a b => ~ samePosition el a b));
      [|apply positionOrder_swaps|].
    - intros x y Hxy Hsame. destruct Hxy. by apply samePosition_sym.
    - eapply StronglySorted_weaken; [|exact Hsorted]. by intros a b Hab _. }
  rewrite (positionOrder_swaps_eq _ _ (sortedByArea_swaps _ Hinv)).
  apply positionOrder_swaps_eq, positionOrder_swaps.
Qed.
End ReadingOrderSwapFacts.

(** * The resolver and the order of its input *)

Section OrderFacts.
Context {T : Type} (el : T -> InteractiveElement).

Lemma byAreaThenWeight_zero a b :
  byAreaThenWeight el a b == 0 ->
  area el a == area el b /\ weight (el a) == weight (el b).
Proof.
  destruct (byAreaThenWeight_cases el a b) as [[H1 ->]|[H1 ->]]; intros H.
  - exfalso. apply H1. lra.
  - split; lra.
Qed.

Lemma distinct_sort_keys_tie_free elements :
  distinct_sort_keys el elements -> tie_free (byAreaThenWeight el) elements.
Proof.
  intros [Hnd Hkeys]. split; [done|].
  intros a b Ha Hb Hz. apply byAreaThenWeight_zero in Hz as [H1 H2].
  by apply Hkeys.
Qed.

Lemma sortedByArea_Permutation_eq elements elements' :
  elements ≡ₚ elements' -> distinct_sort_keys el elements ->
  sortedByArea el elements' = sortedByArea el elements.
Proof.
  intros Hp Hk. symmetry. apply js_sort_tie_free_Permutation.
  - apply byAreaThenWeight_opp.
  - apply byAreaThenWeight_trans.
  - done.
  - by apply distinct_sort_keys_tie_free.
Qed.

Lemma filterOverlappingElements_fold elements iouThreshold :
  filterOverlappingElements el elements iouThreshold
  = fold_left (considerCandidate el iouThreshold) (sortedByArea el elements) [].
Proof. by destruct elements. Qed.

Lemma filterOverlappingElements_Permutation elements elements' iouThreshold :
  elements ≡ₚ elements' -> distinct_sort_keys el elements ->
  filterOverlappingElements el elements' iouThreshold
  = filterOverlappingElements el elements iouThreshold.
Proof.
  intros Hp Hk. rewrite !filterOverlappingElements_fold.
  by rewrite (sortedByArea_Permutation_eq elements elements').
Qed.
End OrderFacts.

(** Of two overlapping boxes that tie on area and weight, the one given
    first survives: the two orders resolve to different elements. *)
Lemma C5_counterexample :
  [ex_twin_a; ex_twin_b] ≡ₚ [ex_twin_b; ex_twin_a]
  /\ filterElements [ex_twin_a; ex_twin_b] defaultIouThreshold = [set_index ex_twin_a 0]
  /\ filterElements [ex_twin_b; ex_twin_a] defaultIouThreshold = [set_index ex_twin_b 0]
  /\ filterElements [ex_twin_b; ex_twin_a] defaultIouThreshold
     <> filterElements [ex_twin_a; ex_twin_b] defaultIouThreshold.
Proof.
  split; [apply perm_swap|].
  split; [by vm_compute|]. split; [by vm_compute|].
  by vm_compute.
Qed.

(** C5 (as amended).  For a list in which no two entries agree on both area
    and weight, every reordering resolves to the same elements, in the same
    order and with the same indices. *)
Theorem C5_resolver_order_independent
    (elements elements' : list InteractiveElement) (iouThreshold : Q) :
  elements ≡ₚ elements' ->
  distinct_sort_keys id elements ->
  filterElements elements' iouThreshold = filterElements elements iouThreshold.
Proof.
  intros Hp Hk. unfold filterElements.
  by rewrite (filterOverlappingElements_Permutation id elements elements').
Qed.

Lemma ex_distinct_sort_keys :
  distinct_sort_keys id [ex_container; ex_neighbour; ex_child].
Proof.
  split.
  - apply (bool_decide_unpack _). by vm_compute.
  - intros a b Ha Hb Harea Hweight.
    repeat (apply elem_of_cons in Ha as [->|Ha]);
      [| | |by apply elem_of_nil in Ha];
      (repeat (apply elem_of_cons in Hb as [->|Hb]);
         [| | |by apply elem_of_nil in Hb]);
      try reflexivity; vm_compute in Harea; discriminate.
Defined.

Lemma C5_resolver_order_independent_witness :
  filterElements [ex_child; ex_container; ex_neighbour] defaultIouThreshold
  = filterElements [ex_container; ex_neighbour; ex_child] defaultIouThreshold.
Proof.
  apply C5_resolver_order_independent.
  - symmetry. apply (Permutation_cons_append [ex_container; ex_neighbour] ex_child).
  - exact ex_distinct_sort_keys.
Defined.

(** * The resolver under a change of representation *)

Section Representation.
Context {T U : Type} (el : T -> InteractiveElement) (g : U -> T).

Lemma splitRows_map previous l :
  splitRows el (g previous) (map g l)
  = (map g (splitRows (fun u => el (g u)) previous l).1,
     map (map g) (splitRows (fun u => el (g u)) previous l).2).
Proof.
  revert previous. induction l as [|element l IH]; intros previous; [done|].
  cbn [map splitRows]. rewrite IH.
  destruct (splitRows (fun u => el (g u)) element l) as [row rows].
  change (sameRowb (fun u => el (g u)) previous element)
    with (sameRowb el (g previous) (g element)).
  by destruct (sameRowb el (g previous) (g element)).
Qed.

Lemma rowsOf_map l :
  rowsOf el (map g l) = map (map g) (rowsOf (fun u => el (g u)) l).
Proof.
  destruct l as [|first l]; [done|].
  cbn [map rowsOf]. rewrite splitRows_map.
  by destruct (splitRows (fun u => el (g u)) first l).
Qed.

Lemma positionOrder_map l :
  positionOrder el (map g l) = map g (positionOrder (fun u => el (g u)) l).
Proof.
  unfold positionOrder. rewrite !groupRows_rowsOf.
  rewrite js_sort_map, rowsOf_map.
  change (fun a b => byTop el (g a) (g b)) with (byTop (fun u => el (g u))).
  generalize (rowsOf (fun u => el (g u)) (js_sort (byTop (fun u => el (g u))) l)).
  intros rows. rewrite concat_map, !map_map. f_equal.
  apply map_ext. intros row. by rewrite js_sort_map.
Qed.

Lemma sortedByArea_map l :
  sortedByArea el (map g l) = map g (sortedByArea (fun u => el (g u)) l).
Proof. unfold sortedByArea. by rewrite js_sort_map. Qed.
End Representation.

Section Extensionality.
Context {T : Type} (el el' : T -> InteractiveElement).
Hypothesis same_rect : forall a, rect (el a) = rect (el' a).

Lemma byTop_ext a b : byTop el a b = byTop el' a b.
Proof using same_rect. unfold byTop. by rewrite !same_rect. Qed.

Lemma byLeft_ext a b : byLeft el a b = byLeft el' a b.
Proof using same_rect. unfold byLeft. by rewrite !same_rect. Qed.

Lemma splitRows_ext previous l : splitRows el previous l = splitRows el' previous l.
Proof using same_rect.
  revert previous. induction l as [|element l IH]; intros previous; [done|].
  cbn [splitRows]. rewrite IH. unfold sameRowb. by rewrite !same_rect.
Qed.

Lemma positionOrder_ext l : positionOrder el l = positionOrder el' l.
Proof using same_rect.
  unfold positionOrder. rewrite !groupRows_rowsOf.
  rewrite (js_sort_ext (byTop el) (byTop el')) by apply byTop_ext.
  assert (Hrows : forall s, rowsOf el s = rowsOf el' s).
  { intros [|first s]; [done|]. cbn [rowsOf]. by rewrite splitRows_ext. }
  rewrite Hrows. f_equal. apply map_ext. intros row.
  apply js_sort_ext, byLeft_ext.
Qed.

Lemma sortedByArea_ext l :
  (forall a, weight (el a) = weight (el' a)) ->
  sortedByArea el l = sortedByArea el' l.
Proof using same_rect.
  intros Hw. apply js_sort_ext. intros a b.
  unfold byAreaThenWeight, area. by rewrite !same_rect, !Hw.
Qed.
End Extensionality.

(** * Resolving a resolved list *)

Section FilterFacts.
Context {T : Type} (el : T -> InteractiveElement).

(** Elements that do not decide one another are all accepted. *)
Lemma fold_considerCandidate_conflict_free iouThreshold candidates accepted :
  NoDup (accepted ++ candidates) ->
  conflict_free el iouThreshold (accepted ++ candidates) ->
  fold_left (considerCandidate el iouThreshold) candidates accepted
  = accepted ++ candidates.
Proof.
  revert accepted. induction candidates as [|c candidates IH]; intros accepted Hnd Hcf.
  - by rewrite app_nil_r.
  - cbn [fold_left]. unfold considerCandidate at 2.
    rewrite checkAgainst_none.
    + rewrite IH; rewrite <- app_assoc; done.
    + apply Forall_forall. intros e He. apply Hcf.
      * apply elem_of_app. right. left.
      * apply elem_of_app. by left.
      * intros ->. apply NoDup_app in Hnd as (_ & Hnd & _).
        apply (Hnd e He). left.
Qed.

Lemma checkAgainst_sublist iouThreshold current filtered :
  (checkAgainst el iouThreshold current filtered).2 `sublist_of` filtered.
Proof.
  induction filtered as [|existing rest IH]; cbn [checkAgainst]; [done|].
  destruct (Qlt_bool _ _); [done|].
  destruct (checkAgainst el iouThreshold current rest) as [shouldAdd rest'].
  cbn [snd] in IH.
  destruct (isFullyContained _ _).
  - destruct (Qle_bool (weight _) _ && _); [done|].
    destruct (Qle_bool (area el existing * _) _); cbn [snd].
    + by apply sublist_cons.
    + by apply sublist_skip.
  - cbn [snd]. by apply sublist_skip.
Qed.

Lemma considerCandidate_sublist iouThreshold filtered current :
  considerCandidate el iouThreshold filtered current `sublist_of` filtered ++ [current].
Proof.
  unfold considerCandidate.
  pose proof (checkAgainst_sublist iouThreshold current filtered) as H.
  destruct (checkAgainst el iouThreshold current filtered) as [[] filtered'];
    cbn [snd] in H.
  - by apply sublist_app.
  - by apply sublist_inserts_r.
Qed.

Lemma fold_considerCandidate_sublist iouThreshold candidates accepted :
  fold_left (considerCandidate el iouThreshold) candidates accepted
    `sublist_of` accepted ++ candidates.
Proof.
  revert accepted. induction candidates as [|c candidates IH]; intros accepted.
  - by rewrite app_nil_r.
  - cbn [fold_left]. etrans; [apply IH|].
    rewrite cons_middle, app_assoc.
    apply sublist_app; [|done]. apply considerCandidate_sublist.
Qed.

(** What the overlap filter returns is the sorted array with some entries
    left out. *)
Lemma filterOverlappingElements_sublist elements iouThreshold :
  filterOverlappingElements el elements iouThreshold
    `sublist_of` sortedByArea el elements.
Proof.
  rewrite filterOverlappingElements_fold.
  apply (fold_considerCandidate_sublist iouThreshold _ []).
Qed.

Lemma positionOrder_Permutation elements : positionOrder el elements ≡ₚ elements.
Proof.
  unfold positionOrder. rewrite groupRows_rowsOf.
  etrans; [|apply (js_sort_Permutation (byTop el))].
  destruct (rowsOf_spec el (js_sort (byTop el) elements)) as [Hcat _].
  rewrite <- Hcat at 2.
  generalize (rowsOf el (js_sort (byTop el) elements)). intros rows.
  induction rows as [|row rows IH]; [done|].
  cbn [map concat]. by rewrite IH, js_sort_Permutation.
Qed.
End FilterFacts.

Lemma StronglySorted_sublist {T : Type} (R : T -> T -> Prop) (l1 l2 : list T) :
  l1 `sublist_of` l2 -> StronglySorted R l2 -> StronglySorted R l1.
Proof.
  induction 1 as [|a l1 l2 Hsub IH|a l1 l2 Hsub IH]; intros Hs.
  - constructor.
  - apply StronglySorted_inv in Hs as [Hs Ha]. constructor; [by apply IH|].
    apply Forall_forall. intros b Hb. rewrite Forall_forall in Ha.
    apply Ha. by eapply elem_of_sublist.
  - apply StronglySorted_inv in Hs as [Hs _]. by apply IH.
Qed.

Lemma map_fmap {A B : Type} (f : A -> B) (l : list A) : map f l = f <$> l.
Proof. reflexivity. Qed.

Lemma map_untag_tagged l : map untag (tagged l) = l.
Proof.
  unfold tagged. rewrite map_fmap, fmap_imap. apply list_eq. intros i.
  rewrite list_lookup_imap. by destruct (l !! i).
Qed.

Lemma reindex_idemp l : reindex (reindex l) = reindex l.
Proof.
  apply list_eq. intros i. rewrite !reindex_lookup.
  by destruct (l !! i).
Qed.

Lemma reindex_NoDup l : NoDup (reindex l).
Proof.
  apply NoDup_alt. intros i j e Hi Hj.
  rewrite reindex_lookup in Hi, Hj.
  destruct (l !! i); [|done]. destruct (l !! j); [|done].
  injection Hi as <-. by injection Hj as Hj.
Qed.

Lemma conflict_free_Permutation {T : Type} (el : T -> InteractiveElement)
    iouThreshold (l l' : list T) :
  l ≡ₚ l' -> conflict_free el iouThreshold l -> conflict_free el iouThreshold l'.
Proof.
  intros Hp Hcf c e Hc He. rewrite <- Hp in Hc, He. by apply Hcf.
Qed.

Lemma tagged_NoDup l : NoDup (tagged l).
Proof.
  apply NoDup_alt. intros i j d Hi Hj. unfold tagged in Hi, Hj.
  rewrite list_lookup_imap in Hi, Hj.
  destruct (l !! i); [|done]. destruct (l !! j); [|done].
  cbn in Hi, Hj. destruct d as [k e]. congruence.
Qed.

Lemma positionIn_lookup l i d :
  NoDup l -> l !! i = Some d -> positionIn l d = i.
Proof.
  intros Hnd Hi. unfold positionIn.
  destruct (list_find (fun d' => d' = d) l) as [[j y]|] eqn:E; cbn.
  - apply list_find_Some in E as (Hj & -> & _).
    by eapply NoDup_lookup.
  - apply list_find_None in E. rewrite Forall_forall in E.
    exfalso. eapply E; [|done]. by eapply list_elem_of_lookup_2.
Qed.

Lemma map_relabel l : NoDup l -> map (relabel l) l = reindex (map untag l).
Proof.
  intros Hnd. apply list_eq. intros i.
  rewrite reindex_lookup, !map_fmap, !list_lookup_fmap.
  destruct (l !! i) as [d|] eqn:E; [|done]. cbn.
  unfold relabel. by rewrite (positionIn_lookup l i d).
Qed.

Lemma StronglySorted_map_inv {T U : Type} (R : T -> T -> Prop) (g : U -> T) l :
  StronglySorted R (map g l) -> StronglySorted (fun a b => R (g a) (g b)) l.
Proof.
  induction l as [|a l IH]; cbn [map]; intros Hs; [constructor|].
  apply StronglySorted_inv in Hs as [Hs Ha]. constructor; [by apply IH|].
  rewrite Forall_forall in Ha. apply Forall_forall. intros b Hb.
  apply Ha, list_elem_of_In, in_map, list_elem_of_In, Hb.
Qed.

(** A settled list resolves to itself. *)
Lemma filterElements_fixed (elements : list InteractiveElement) (iouThreshold : Q) :
  let resolved := filterElements elements iouThreshold in
  conflict_free id iouThreshold resolved ->
  filterElements resolved iouThreshold = resolved.
Proof.
  intros resolved Hcf.
  set (filtered := filterOverlappingElements id elements iouThreshold).
  set (ordered := positionOrder id filtered).
  assert (Hres : resolved = reindex ordered).
  { unfold resolved, filterElements. apply sortElementsByPosition_reindex. }
  rewrite Hres in Hcf |- *.
  (* the first pass handed a list sorted by area and weight to the
     reading order *)
  assert (Hsorted : StronglySorted (precedes (byAreaThenWeight id)) filtered).
  { eapply StronglySorted_sublist; [apply filterOverlappingElements_sublist|].
    apply js_sort_sorted;
      [apply byAreaThenWeight_opp|apply byAreaThenWeight_trans]. }
  (* the entries told apart by their place in that list *)
  set (el := fun d => id (untag d)).
  set (DX := tagged filtered).
  set (DP := positionOrder el DX).
  assert (HDP : map untag DP = ordered).
  { unfold DP, ordered, el. rewrite <- positionOrder_map. unfold DX.
    by rewrite map_untag_tagged. }
  assert (Hnd : NoDup DP).
  { unfold DP. rewrite positionOrder_Permutation. apply tagged_NoDup. }
  assert (HR : reindex ordered = map (relabel DP) DP).
  { by rewrite map_relabel, HDP. }
  assert (Hfix : positionOrder el (sortedByArea el DP) = DP).
  { apply positionOrder_sortedByArea.
    change (StronglySorted
              (fun a b => precedes (byAreaThenWeight id) (untag a) (untag b)) DX).
    apply StronglySorted_map_inv. unfold DX.
    by rewrite map_untag_tagged. }
  unfold filterElements.
  rewrite filterOverlappingElements_fold.
  rewrite (fold_considerCandidate_conflict_free id iouThreshold _ []).
  - cbn [app]. rewrite sortElementsByPosition_reindex, HR.
    rewrite sortedByArea_map.
    rewrite (sortedByArea_ext (fun u => id (relabel DP u)) el) by done.
    rewrite positionOrder_map.
    rewrite (positionOrder_ext (fun u => id (relabel DP u)) el) by done.
    by rewrite Hfix, <- HR, reindex_idemp.
  - cbn [app]. rewrite sortedByArea_Permutation. apply reindex_NoDup.
  - cbn [app]. eapply conflict_free_Permutation; [|exact Hcf].
    symmetry. apply sortedByArea_Permutation.
Qed.

(** Resolving the resolved list of the container, its neighbour and the
    child drops the child: once the container is gone the child is a near
    duplicate of the neighbour. *)
Lemma C4_counterexample :
  filterElements [ex_container; ex_neighbour; ex_child] defaultIouThreshold
    = [set_index ex_neighbour 0; set_index ex_child 1]
  /\ filterElements
       (filterElements [ex_container; ex_neighbour; ex_child] defaultIouThreshold)
       defaultIouThreshold
     = [set_index ex_neighbour 0]
  /\ filterElements
       (filterElements [ex_container; ex_neighbour; ex_child] defaultIouThreshold)
       defaultIouThreshold
     <> filterElements [ex_container; ex_neighbour; ex_child] defaultIouThreshold.
Proof.
  split; [by vm_compute|]. split; [by vm_compute|]. by vm_compute.
Qed.

(** C4 (as amended).  Resolving the empty list gives the empty list.  If in
    the resolved list no element is decided by a different one (no IoU above
    the threshold, no containment that drops or evicts), then resolving it
    again returns it unchanged: the same elements, in the same order, with
    the same indices. *)
Theorem C4_resolver_idempotent_when_settled
    (elements : list InteractiveElement) (iouThreshold : Q) :
  filterElements [] iouThreshold = []
  /\ (conflict_free id iouThreshold (filterElements elements iouThreshold) ->
      filterElements (filterElements elements iouThreshold) iouThreshold
      = filterElements elements iouThreshold).
Proof.
  split; [done|]. apply filterElements_fixed.
Qed.

Lemma ex_page_resolved :
  filterElements [ex_link; ex_menu; ex_button] defaultIouThreshold
  = [set_index ex_menu 0; set_index ex_link 1; set_index ex_button 2].
Proof. by vm_compute. Defined.

Lemma ex_page_conflict_free :
  conflict_free id defaultIouThreshold
    [set_index ex_menu 0; set_index ex_link 1; set_index ex_button 2].
Proof.
  intros c e Hc He Hne.
  repeat (apply elem_of_cons in Hc as [->|Hc]); [| | |by apply elem_of_nil in Hc];
    (repeat (apply elem_of_cons in He as [->|He]); [| | |by apply elem_of_nil in He]);
    try done;
    (intros [H|[H _]]; vm_compute in H; discriminate).
Defined.

Lemma C4_resolver_idempotent_when_settled_witness :
  filterElements (filterElements [ex_link; ex_menu; ex_button] defaultIouThreshold)
    defaultIouThreshold
  = filterElements [ex_link; ex_menu; ex_button] defaultIouThreshold.
Proof.
  apply (C4_resolver_idempotent_when_settled [ex_link; ex_menu; ex_button]).
  rewrite ex_page_resolved. exact ex_page_conflict_free.
Defined.

(** * The resolver on element objects *)

Lemma set_index_set_index e i j : set_index (set_index e i) j = set_index e j.
Proof. done. Qed.

Lemma assignIndices_untouched i sortedElements objects r :
  r ∉ sortedElements ->
  assignIndices i sortedElements objects !! r = objects !! r.
Proof.
  revert i objects.
  induction sortedElements as [|r0 rest IH]; intros i objects Hr; [done|].
  apply not_elem_of_cons in Hr as [Hne Hr].
  cbn [assignIndices]. rewrite IH by done. by rewrite lookup_alter_ne.
Qed.

(** Every object in the array ends with the position of its last
    occurrence in its [index] field, and is otherwise as it was. *)
Lemma assignIndices_assigned i sortedElements objects r :
  r ∈ sortedElements ->
  exists k, sortedElements !! k = Some r
    /\ assignIndices i sortedElements objects !! r
       = (fun e => set_index e (i + k)) <$> objects !! r.
Proof.
  revert i objects.
  induction sortedElements as [|r0 rest IH]; intros i objects Hr.
  - by apply elem_of_nil in Hr.
  - cbn [assignIndices].
    destruct (decide (r ∈ rest)) as [Hin|Hnotin].
    + destruct (IH (S i) (alter (fun e => set_index e i) r0 objects) Hin)
        as (k & Hk & Hlook).
      exists (S k). split; [done|]. rewrite Hlook.
      replace (i + S k)%nat with (S i + k)%nat by lia.
      destruct (decide (r0 = r)) as [->|Hne].
      * rewrite lookup_alter_eq. by destruct (objects !! r).
      * by rewrite lookup_alter_ne.
    + apply elem_of_cons in Hr as [->|Hr]; [|done].
      exists 0%nat. split; [done|].
      rewrite assignIndices_untouched by done.
      rewrite lookup_alter_eq. by rewrite Nat.add_0_r.
Qed.

Lemma filterOverlappingElements_obj_eq objects elements iouThreshold :
  filterOverlappingElements_obj objects elements iouThreshold
  = (sortedByArea (deref objects) elements,
     filterOverlappingElements (deref objects) elements iouThreshold).
Proof. by destruct elements. Qed.

Lemma sortElementsByPosition_obj_eq objects elements :
  sortElementsByPosition_obj objects elements
  = (assignIndices 0 (positionOrder (deref objects) elements) objects,
     positionOrder (deref objects) elements).
Proof. by destruct elements. Qed.



(** * The state synchronizer *)

Section SynchronizerFacts.
Context (cycle : nat -> option BrowserState.t -> Error + Capture).

(** With a state in hand a failed cycle is answered with that state. *)
Lemma _updateState_stale b s e :
  state b = Some s -> cycle (cycles b) (state b) = inl e ->
  _updateState cycle b
  = ({| state := Some s; cycles := S (cycles b); waited := waited b |}, inr s).
Proof.
  intros Hs He. unfold _updateState. rewrite He. cbn [state]. by rewrite Hs.
Qed.

Lemma _updateState_throws b e :
  state b = None -> cycle (cycles b) (state b) = inl e ->
  _updateState cycle b
  = ({| state := None; cycles := S (cycles b); waited := waited b |}, inl e).
Proof.
  intros Hs He. unfold _updateState. rewrite He. cbn [state]. by rewrite Hs.
Qed.

Lemma _updateState_fresh b c :
  cycle (cycles b) (state b) = inr c ->
  _updateState cycle b
  = ({| state := Some (assembleState c); cycles := S (cycles b); waited := waited b |},
     inr (assembleState c)).
Proof. intros Hc. unfold _updateState. by rewrite Hc. Qed.

(** [_updateState] throws only without a state. *)
Lemma _updateState_error b b' e :
  _updateState cycle b = (b', inl e) -> state b = None.
Proof.
  unfold _updateState. destruct (cycle (cycles b) (state b)); [|done].
  cbn [state]. by destruct (state b).
Qed.

Lemma backOff_first_attempt request options b b' s :
  delayFirstAttempt options = false ->
  request b = (b', inr s) ->
  backOff request options b = (b', inr s).
Proof.
  intros Hd Hr. unfold backOff.
  destruct (Nat.pred _); cbn [backOff_from]; unfold applyDelay;
    by rewrite Hd, Hr.
Qed.

(** The first failed cycle ends the call when a state is held: no further
    attempt is made and nothing is slept. *)
Lemma updateState_stale b s e :
  state b = Some s -> cycle (cycles b) (state b) = inl e ->
  updateState cycle b
  = ({| state := Some s; cycles := S (cycles b); waited := waited b |}, inr s).
Proof.
  intros Hs He. unfold updateState.
  by rewrite (backOff_first_attempt (_updateState cycle) updateStateOptions b _ s
                eq_refl (_updateState_stale b s e Hs He)).
Qed.

(** An error leaves [updateState] only if even its first attempt was made
    without a state. *)
Lemma updateState_error b b' e :
  updateState cycle b = (b', inl e) -> state b = None.
Proof.
  unfold updateState, backOff.
  cbn [numOfAttempts updateStateOptions Nat.max Nat.pred backOff_from
       applyDelay delayFirstAttempt].
  destruct (_updateState cycle b) as [b1 [e1|s1]] eqn:E1; [|done].
  intros _. by apply _updateState_error in E1.
Qed.

(** Without a state the three attempts are made, 500 and 750 milliseconds
    apart, and the error of the last one is thrown. *)
Lemma updateState_exhausted b e1 e2 e3 :
  state b = None ->
  cycle (cycles b) None = inl e1 ->
  cycle (S (cycles b)) None = inl e2 ->
  cycle (S (S (cycles b))) None = inl e3 ->
  updateState cycle b
  = ({| state := None; cycles := S (S (S (cycles b)));
        waited := (waited b ++ [500]) ++ [500 * (3 # 2) ^ 1] |}, inl e3).
Proof.
  intros Hs H1 H2 H3. unfold updateState, backOff.
  cbn [numOfAttempts updateStateOptions Nat.max Nat.pred backOff_from
       applyDelay delayFirstAttempt retry startingDelay timeMultiple].
  rewrite (_updateState_throws b e1) by (by rewrite ?Hs).
  unfold sleep. cbn [state cycles waited].
  rewrite (_updateState_throws _ e2) by done.
  cbn [state cycles waited].
  rewrite (_updateState_throws _ e3) by done.
  done.
Qed.

(** Without a state two failed cycles are followed by a third, and its
    snapshot is returned. *)
Lemma updateState_third_attempt b e1 e2 c :
  state b = None ->
  cycle (cycles b) None = inl e1 ->
  cycle (S (cycles b)) None = inl e2 ->
  cycle (S (S (cycles b))) None = inr c ->
  updateState cycle b
  = ({| state := Some (assembleState c); cycles := S (S (S (cycles b)));
        waited := (waited b ++ [500]) ++ [500 * (3 # 2) ^ 1] |},
     inr (assembleState c)).
Proof.
  intros Hs H1 H2 H3. unfold updateState, backOff.
  cbn [numOfAttempts updateStateOptions Nat.max Nat.pred backOff_from
       applyDelay delayFirstAttempt retry startingDelay timeMultiple].
  rewrite (_updateState_throws b e1) by (by rewrite ?Hs).
  unfold sleep. cbn [state cycles waited].
  rewrite (_updateState_throws _ e2) by done.
  cbn [state cycles waited].
  rewrite (_updateState_fresh _ c) by done.
  done.
Qed.
End SynchronizerFacts.

(** C1.  When every capture cycle fails and the browser holds a snapshot,
    [updateState] returns that snapshot and keeps it; an error leaves
    [updateState] only when no snapshot is held, and then, if every cycle
    fails, it does. *)
Theorem C1_stale_snapshot_instead_of_error
    (cycle : nat -> option BrowserState.t -> Error + Capture) (b : Browser) :
  (forall s, state b = Some s ->
     (forall k st, exists e, cycle k st = inl e) ->
     (updateState cycle b).2 = inr s
     /\ state (updateState cycle b).1 = Some s)
  /\ (forall e, (updateState cycle b).2 = inl e -> state b = None)
  /\ (state b = None ->
      (forall k st, exists e, cycle k st = inl e) ->
      exists e, (updateState cycle b).2 = inl e
                /\ state (updateState cycle b).1 = None).
Proof.
  split; [|split].
  - intros s Hs Hfail. destruct (Hfail (cycles b) (state b)) as [e He].
    by rewrite (updateState_stale cycle b s e Hs He).
  - intros e He. destruct (updateState cycle b) as [b' r] eqn:E.
    cbn [snd] in He. subst r. by apply updateState_error in E.
  - intros Hs Hfail.
    destruct (Hfail (cycles b) None) as [e1 H1],
             (Hfail (S (cycles b)) None) as [e2 H2],
             (Hfail (S (S (cycles b))) None) as [e3 H3].
    exists e3. by rewrite (updateState_exhausted cycle b e1 e2 e3).
Qed.

Lemma C1_stale_snapshot_instead_of_error_witness :
  (updateState ex_page_down ex_browser_with_snapshot).2
    = inr (assembleState ex_capture)
  /\ state (updateState ex_page_down ex_browser_with_snapshot).1
     = Some (assembleState ex_capture).
Proof.
  apply (C1_stale_snapshot_instead_of_error ex_page_down ex_browser_with_snapshot).
  - reflexivity.
  - intros k st. exists "Target closed"%string. reflexivity.
Defined.

(** C2, on the code.  A browser as the constructor leaves it, on a page
    whose first two capture cycles fail and whose third succeeds:
    [updateState] makes one attempt, sleeps for no time at all, and returns
    the empty state of the constructor, not the snapshot of the third
    cycle. *)
Theorem C2_first_failure_is_not_retried :
  ex_page_flaky 0 (state newBrowser) = inl "Target closed"%string
  /\ ex_page_flaky 1 (state newBrowser) = inl "Target closed"%string
  /\ ex_page_flaky 2 (state newBrowser) = inr ex_capture
  /\ (updateState ex_page_flaky newBrowser).2 = inr (initState "")
  /\ cycles (updateState ex_page_flaky newBrowser).1 = 1%nat
  /\ waited (updateState ex_page_flaky newBrowser).1 = []
  /\ (updateState ex_page_flaky newBrowser).2 <> inr (assembleState ex_capture).
Proof. repeat split; done. Qed.

(** The retries are made when no state is held, as after [close()]: three
    cycles, 500 and 750 milliseconds apart, and the snapshot of the third. *)
Lemma updateState_retries_after_close :
  (updateState ex_page_flaky (close newBrowser)).2 = inr (assembleState ex_capture)
  /\ cycles (updateState ex_page_flaky (close newBrowser)).1 = 3%nat
  /\ Forall2 Qeq (waited (updateState ex_page_flaky (close newBrowser)).1) [500; 750].
Proof.
  rewrite (updateState_third_attempt ex_page_flaky (close newBrowser)
             "Target closed" "Target closed" ex_capture) by done.
  split; [done|]. split; [done|].
  repeat constructor.
Qed.

(** * The conversation *)

Lemma isActiveMarker_true part :
  isActiveMarker part = true <-> exists text, part = TextContent text (Some true).
Proof.
  split.
  - destruct part as [text [[|]|]| | |]; try done. eauto.
  - by intros [text ->].
Qed.

Lemma hasCacheControl_true message :
  hasCacheControl message = inr true <-> hasActiveBoundary message.
Proof.
  unfold hasCacheControl, hasActiveBoundary.
  destruct (content message) as [s|parts]; split.
  - done.
  - by intros (parts & text & [=] & _).
  - intros [= H]. apply existsb_exists in H as (part & Hin & Hpart).
    apply isActiveMarker_true in Hpart as [text ->].
    exists parts, text. split; [done|]. by apply list_elem_of_In.
  - intros (parts' & text & [= <-] & Hin). f_equal.
    apply existsb_exists. exists (TextContent text (Some true)).
    split; [by apply list_elem_of_In|done].
Qed.

Lemma removeCacheControl_noBoundary message :
  ~ hasActiveBoundary (removeCacheControl message).
Proof.
  unfold removeCacheControl, hasActiveBoundary.
  destruct (content message) as [s|parts] eqn:E.
  - rewrite E. by intros (parts & text & [=] & _).
  - cbn [content]. intros (parts' & text & [= <-] & Hin).
    apply list_elem_of_In, in_map_iff in Hin as (part & Hpart & _).
    by destruct part as [? [[|]|]| | |].
Qed.

Lemma clearPast_noBoundary message : noBoundary (clearPast message).
Proof.
  unfold noBoundary, clearPast.
  destruct (role message) eqn:E; try (intros _; apply removeCacheControl_noBoundary).
  by rewrite E.
Qed.

Lemma removeCacheControl_role message : role (removeCacheControl message) = role message.
Proof. unfold removeCacheControl. by destruct (content message). Qed.

(** The loop of [getMessages], when it runs to its end: either no message
    carries a boundary and the log is left alone, or the log splits at the
    last message that carries one, and exactly the messages before it are
    cleared. *)
Lemma getMessages_loop (messages : list Message) :
  forall found messages', 
  foldr getMessages_step (false, [], None) messages = (found, messages', None) ->
  (found = false /\ messages' = messages /\ Forall noBoundary messages)
  \/ (found = true
      /\ exists older latest newer,
           messages = older ++ latest :: newer
           /\ role latest <> SYSTEM
           /\ hasActiveBoundary latest
           /\ Forall noBoundary newer
           /\ messages' = map clearPast older ++ latest :: newer).
Proof.
  induction messages as [|msg messages IH]; intros found messages'.
  - intros [= <- <-]. left. by repeat split.
  - cbn [foldr].
    destruct (foldr getMessages_step (false, [], None) messages)
      as [[found0 visited] thrown] eqn:E.
    destruct thrown as [e|]; [done|].
    specialize (IH found0 visited eq_refl).
    unfold getMessages_step.
    destruct (decide (role msg = SYSTEM)) as [Hsys|Hsys].
    { rewrite Hsys. intros [= <- <-].
      destruct IH as [(-> & -> & Hall)|(-> & older & latest & newer & -> & H1 & H2 & H3 & ->)].
      - left. split; [done|]. split; [done|]. constructor; [|done]. by intros ?.
      - right. split; [done|]. exists (msg :: older), latest, newer.
        do 4 (split; [done|]). cbn [map].
        assert (clearPast msg = msg) as -> by (unfold clearPast; by rewrite Hsys).
        done. }
    assert (Hstep :
      (let msg' := if found0 then removeCacheControl msg else msg in
       match hasCacheControl msg' with
       | inl e => (found0, msg' :: visited, Some e)
       | inr has => (found0 || has, msg' :: visited, None)
       end) = (found, messages', None) ->
      (found = false /\ messages' = msg :: messages /\ Forall noBoundary (msg :: messages))
      \/ (found = true
          /\ exists older latest newer,
               msg :: messages = older ++ latest :: newer
               /\ role latest <> SYSTEM
               /\ hasActiveBoundary latest
               /\ Forall noBoundary newer
               /\ messages' = map clearPast older ++ latest :: newer)).
    { cbn zeta.
      destruct IH as [(-> & -> & Hall)|(-> & older & latest & newer & -> & H1 & H2 & H3 & ->)].
      - destruct (hasCacheControl msg) as [e|[]] eqn:Hhas; [done| |].
        + intros [= <- <-]. right. split; [done|].
          exists [], msg, messages. do 2 (split; [done|]).
          split; [by apply hasCacheControl_true|done].
        + intros [= <- <-]. left. split; [done|]. split; [done|].
          constructor; [|done]. intros _ Hactive.
          apply hasCacheControl_true in Hactive. congruence.
      - destruct (hasCacheControl (removeCacheControl msg)) as [e|has]; [done|].
        intros [= <- <-]. right. split; [done|].
        exists (msg :: older), latest, newer. do 4 (split; [done|]).
        cbn [map].
        assert (clearPast msg = removeCacheControl msg) as ->
          by (unfold clearPast; by destruct (role msg)).
        done. }
    by destruct (role msg).
Qed.

(** In a log split at its only boundary, a message with an active boundary
    is the one at the split. *)
Lemma boundary_position older latest newer i message :
  Forall noBoundary older -> Forall noBoundary newer ->
  (older ++ latest :: newer) !! i = Some message ->
  role message <> SYSTEM -> hasActiveBoundary message ->
  i = length older /\ message = latest.
Proof.
  intros Holder Hnewer Hi Hrole Hactive.
  destruct (lt_eq_lt_dec i (length older)) as [[Hlt|Heq]|Hgt].
  - rewrite lookup_app_l in Hi by done.
    rewrite Forall_lookup in Holder. by destruct (Holder i message Hi Hrole).
  - subst i. rewrite list_lookup_middle in Hi by done. by injection Hi as <-.
  - rewrite lookup_app_r in Hi by lia.
    destruct (i - length older)%nat as [|k] eqn:Ek; [lia|]. cbn in Hi.
    rewrite Forall_lookup in Hnewer. by destruct (Hnewer k message Hi Hrole).
Qed.

(** A message with two marked parts keeps both: two markers are active in
    the log that [getMessages] returns. *)
Lemma C7_counterexample :
  getMessages [ex_twice_marked] = ([ex_twice_marked], inr [ex_twice_marked])
  /\ activeMarkers (getMessages [ex_twice_marked]).1 = 2%nat.
Proof. split; reflexivity. Qed.

(** C7 (as amended).  When [getMessages] returns, at most one message other
    than a system message carries an active boundary, and it is the last
    one that carried one before the call: the text markers of every earlier
    message other than a system message are cleared, and the messages from
    that last one on are as they were.  The markers of that one message all
    stay active. *)
Theorem C7_latest_boundary_only (messages messages' : list Message) :
  getMessages messages = (messages', inr messages') ->
  ((Forall noBoundary messages /\ messages' = messages)
   \/ (exists older latest newer,
         messages = older ++ latest :: newer
         /\ role latest <> SYSTEM
         /\ hasActiveBoundary latest
         /\ Forall noBoundary newer
         /\ messages' = map clearPast older ++ latest :: newer))
  /\ (forall i j mi mj,
        messages' !! i = Some mi -> messages' !! j = Some mj ->
        role mi <> SYSTEM -> role mj <> SYSTEM ->
        hasActiveBoundary mi -> hasActiveBoundary mj -> i = j).
Proof.
  unfold getMessages.
  destruct (foldr getMessages_step (false, [], None) messages)
    as [[found visited] thrown] eqn:E.
  destruct thrown as [e|]; [done|]. intros [= <-].
  apply getMessages_loop in E
    as [(_ & -> & Hall)|(_ & older & latest & newer & -> & H1 & H2 & H3 & ->)].
  - split; [by left|].
    intros i j mi mj Hi _ Hrole _ Hactive _.
    rewrite Forall_lookup in Hall. by destruct (Hall i mi Hi Hrole).
  - split; [right; by exists older, latest, newer|].
    assert (Holder : Forall noBoundary (map clearPast older)).
    { apply Forall_forall. intros m Hm.
      apply list_elem_of_In, in_map_iff in Hm as (m0 & <- & _).
      apply clearPast_noBoundary. }
    intros i j mi mj Hi Hj Hri Hrj Hai Haj.
    destruct (boundary_position _ _ _ _ _ Holder H3 Hi Hri Hai) as [-> _].
    by destruct (boundary_position _ _ _ _ _ Holder H3 Hj Hrj Haj) as [-> _].
Qed.

(** Markers on the second and the fifth of six messages: the log is read
    with the marker of the second cleared, and only the fifth has an active
    boundary. *)
Lemma C7_latest_boundary_only_witness :
  getMessages ex_log = (ex_log_read, inr ex_log_read)
  /\ hasActiveBoundary (ex_marked "5")
  /\ ~ hasActiveBoundary (ex_cleared "2").
Proof.
  assert (Hread : getMessages ex_log = (ex_log_read, inr ex_log_read)) by reflexivity.
  assert (Hfifth : hasActiveBoundary (ex_marked "5")).
  { exists [TextContent "5" (Some true)], "5"%string. split; [reflexivity|by left]. }
  split; [exact Hread|]. split; [exact Hfifth|].
  intros Hsecond.
  destruct (C7_latest_boundary_only ex_log ex_log_read Hread) as [_ Hone].
  specialize (Hone 1%nat 4%nat (ex_cleared "2") (ex_marked "5")
                eq_refl eq_refl).
  discriminate Hone; [discriminate|discriminate|exact Hsecond|exact Hfifth].
Defined.

Lemma getMessages_step_visited msg found visited thrown :
  getMessages_step msg (found, visited, thrown)
  = (let '(f, v, t) := getMessages_step msg (found, [], thrown) in (f, v ++ visited, t)).
Proof.
  unfold getMessages_step. destruct thrown; [done|].
  destruct (role msg); try done;
    by destruct (hasCacheControl (if found then removeCacheControl msg else msg)).
Qed.

Lemma getMessages_loop_visited log found visited thrown :
  foldr getMessages_step (found, visited, thrown) log
  = (let '(f, v, t) := foldr getMessages_step (found, [], thrown) log in
     (f, v ++ visited, t)).
Proof.
  induction log as [|msg log IH]; cbn [foldr]; [done|].
  rewrite IH.
  destruct (foldr getMessages_step (found, [], thrown) log) as [[f v] t].
  rewrite (getMessages_step_visited msg f (v ++ visited)).
  rewrite (getMessages_step_visited msg f v).
  destruct (getMessages_step msg (f, [], t)) as [[f' v'] t'].
  by rewrite app_assoc.
Qed.

Lemma getMessages_loop_length log found thrown :
  length (foldr getMessages_step (found, [], thrown) log).1.2 = length log.
Proof.
  induction log as [|msg log IH]; cbn [foldr]; [done|].
  destruct (foldr getMessages_step (found, [], thrown) log) as [[f v] t].
  cbn [fst snd] in IH. unfold getMessages_step. destruct t; cbn; [by rewrite IH|].
  destruct (role msg); cbn; try (by rewrite IH);
    destruct (hasCacheControl (if f then removeCacheControl msg else msg));
    cbn; by rewrite IH.
Qed.

Lemma getMessages_length log : length (getMessages log).1 = length log.
Proof.
  unfold getMessages. pose proof (getMessages_loop_length log false None) as H.
  by destruct (foldr getMessages_step (false, [], None) log) as [[f v] t].
Qed.

(** A message without a boundary at the end of the log is passed over, and
    the log before it is treated as if it were the whole log. *)
Lemma getMessages_snoc log msg :
  role msg <> SYSTEM -> hasCacheControl msg = inr false ->
  getMessages (log ++ [msg])
  = ((getMessages log).1 ++ [msg],
     match (getMessages log).2 with
     | inl e => inl e
     | inr read => inr (read ++ [msg])
     end).
Proof.
  intros Hrole Hhas. unfold getMessages. rewrite foldr_app. cbn [foldr].
  assert (getMessages_step msg (false, [], None) = (false, [msg], None)) as ->.
  { unfold getMessages_step. rewrite Hhas. by destruct (role msg). }
  rewrite getMessages_loop_visited.
  destruct (foldr getMessages_step (false, [], None) log) as [[f v] t].
  by destruct t.
Qed.

Lemma removeLastMessage_snoc log msg :
  log <> [] -> removeLastMessage (log ++ [msg]) = log.
Proof.
  intros Hne. unfold removeLastMessage. rewrite length_app, removelast_last.
  destruct log; [done|]. cbn. by destruct (length log).
Qed.

(** * The agent *)

Section AgentFacts.
Context (cycle : nat -> option BrowserState.t -> Error + Capture)
        (generateAction : nat -> list Message -> Error + AgentLLMOutput.t)
        (executeAction : nat -> ActionModel.t -> Error + ActionResult.t)
        (stateDescription : BrowserState.t -> option ActionResult.t -> option string -> string)
        (previousActionOutput : nat -> ActionResult.t -> string)
        (outputText : nat -> AgentLLMOutput.t -> string)
        (scaleB64Image : string -> string).

Local Abbreviation step_ := (step cycle generateAction executeAction stateDescription
                              previousActionOutput outputText scaleB64Image).

(** What the model is given in a step that appends a perception entry: the
    log as [getMessages] leaves it, and the entry. *)
Lemma getMessages_perception log state previous :
  getMessages (addCurrentStateMessage stateDescription state (Some previous) None log)
  = ((getMessages log).1 ++ [stateMsg stateDescription state (Some previous) None],
     match (getMessages log).2 with
     | inl e => inl e
     | inr read => inr (read ++ [stateMsg stateDescription state (Some previous) None])
     end).
Proof. unfold addCurrentStateMessage. by apply getMessages_snoc. Qed.

Lemma step_model_failure stepNo previous a b state log e :
  updateState cycle (browser a) = (b, inr state) ->
  messages a <> [] ->
  getMessages (messages a) = (log, inr log) ->
  generateAction (modelCalls a)
    (log ++ [stateMsg stateDescription state (Some previous) None]) = inl e ->
  step_ stepNo (Some previous) a
  = ({| browser := b; messages := log; modelCalls := S (modelCalls a);
        actionsRun := actionsRun a; clockReads := clockReads a |}, inl e).
Proof.
  intros Hcap Hne Hread Hmodel. unfold step.
  rewrite Hcap. cbn [set_browser set_messages messages browser modelCalls].
  rewrite getMessages_perception, Hread. cbn [fst snd].
  rewrite Hmodel. unfold modelCalled, set_messages. cbn [messages].
  rewrite removeLastMessage_snoc; [done|].
  intros ->.
  pose proof (getMessages_length (messages a)) as Hlen.
  rewrite Hread in Hlen. by destruct (messages a).
Qed.
End AgentFacts.

(** The step of the example, in which the model call fails: the error is
    surfaced and the perception entry is gone, but the conversation is not
    the one the step started with.  Reading the log for the model cleared
    the boundary of the second message. *)
Lemma C8_counterexample :
  let after :=
    step ex_page_down ex_model_down ex_never_done ex_stateDescription
      ex_previousActionOutput ex_outputText ex_scaleB64Image
      2 (Some ex_clicked) ex_agent in
  after.2 = inl "Error: overloaded"%string
  /\ messages after.1 = ex_log_read
  /\ messages after.1 <> messages ex_agent.
Proof. by vm_compute. Qed.

(** C8 (as amended).  In a step that is given the result of the previous
    one, and so appends a perception entry to a conversation that is not
    empty, a failing model call has the entry removed before its error is
    surfaced.  The conversation after the step is the conversation before
    the entry was appended as [getMessages] leaves it: with the boundaries
    before the latest one cleared.  It is the very conversation the step
    started with if [getMessages] finds nothing to clear in that. *)
Theorem C8_perception_rolled_back
    (cycle : nat -> option BrowserState.t -> Error + Capture)
    (generateAction : nat -> list Message -> Error + AgentLLMOutput.t)
    (executeAction : nat -> ActionModel.t -> Error + ActionResult.t)
    (stateDescription : BrowserState.t -> option ActionResult.t -> option string -> string)
    (previousActionOutput : nat -> ActionResult.t -> string)
    (outputText : nat -> AgentLLMOutput.t -> string)
    (scaleB64Image : string -> string)
    (stepNo : nat) (previous : ActionResult.t) (a : Agent)
    (b : Browser) (state : BrowserState.t) (log : list Message) (e : Error) :
  updateState cycle (browser a) = (b, inr state) ->
  messages a <> [] ->
  getMessages (messages a) = (log, inr log) ->
  generateAction (modelCalls a)
    (log ++ [stateMsg stateDescription state (Some previous) None]) = inl e ->
  let after :=
    step cycle generateAction executeAction stateDescription previousActionOutput
      outputText scaleB64Image stepNo (Some previous) a in
  after.2 = inl e
  /\ messages after.1 = log
  /\ length (messages after.1) = length (messages a).
Proof.
  intros Hcap Hne Hread Hmodel after. unfold after.
  rewrite (step_model_failure cycle generateAction executeAction stateDescription
             previousActionOutput outputText scaleB64Image
             stepNo previous a b state log e Hcap Hne Hread Hmodel).
  cbn [fst snd messages]. split; [done|]. split; [done|].
  pose proof (getMessages_length (messages a)) as Hlen.
  by rewrite Hread in Hlen.
Qed.

Lemma C8_perception_rolled_back_witness :
  (step ex_page_down ex_model_down ex_never_done ex_stateDescription
     ex_previousActionOutput ex_outputText ex_scaleB64Image
     2 (Some ex_clicked) ex_agent).2 = inl "Error: overloaded"%string
  /\ messages
       (step ex_page_down ex_model_down ex_never_done ex_stateDescription
          ex_previousActionOutput ex_outputText ex_scaleB64Image
          2 (Some ex_clicked) ex_agent).1 = ex_log_read
  /\ length
       (messages
          (step ex_page_down ex_model_down ex_never_done ex_stateDescription
             ex_previousActionOutput ex_outputText ex_scaleB64Image
             2 (Some ex_clicked) ex_agent).1) = length (messages ex_agent).
Proof.
  apply (C8_perception_rolled_back ex_page_down ex_model_down ex_never_done
           ex_stateDescription ex_previousActionOutput ex_outputText
           ex_scaleB64Image 2 ex_clicked ex_agent
           {| state := Some (assembleState ex_capture); cycles := 2; waited := [] |}
           (assembleState ex_capture) ex_log_read "Error: overloaded").
  - reflexivity.
  - discriminate.
  - reflexivity.
  - reflexivity.
Defined.

(** ** Steps that cannot fail *)

Lemma updateState_fresh cycle b c :
  cycle (cycles b) (state b) = inr c ->
  updateState cycle b
  = ({| state := Some (assembleState c); cycles := S (cycles b); waited := waited b |},
     inr (assembleState c)).
Proof.
  intros Hc. unfold updateState.
  by rewrite (backOff_first_attempt (_updateState cycle) updateStateOptions b _
                (assembleState c) eq_refl (_updateState_fresh cycle b c Hc)).
Qed.

(** With a state in hand [updateState] returns one, whatever the page does. *)
Lemma updateState_ready cycle b :
  is_Some (state b) ->
  exists b' s, updateState cycle b = (b', inr s) /\ state b' = Some s.
Proof.
  intros [s Hs]. destruct (cycle (cycles b) (state b)) as [e|c] eqn:E.
  - eexists _, _. split; [by apply (updateState_stale cycle b s e)|done].
  - eexists _, _. split; [by apply (updateState_fresh cycle b c)|done].
Qed.

Lemma removeCacheControl_readable msg :
  readableMessage msg -> readableMessage (removeCacheControl msg).
Proof.
  unfold readableMessage, removeCacheControl.
  destruct (content msg) as [s|parts] eqn:E; [by rewrite E|].
  intros _. right. by eexists.
Qed.

Lemma getMessages_loop_ready log :
  Forall readableMessage log ->
  exists found log',
    foldr getMessages_step (false, [], None) log = (found, log', None)
    /\ Forall readableMessage log'.
Proof.
  induction 1 as [|msg log Hmsg Hlog (found & log' & Heq & Hall)].
  - by exists false, [].
  - cbn [foldr]. rewrite Heq. unfold getMessages_step.
    destruct (decide (role msg = SYSTEM)) as [Hsys|Hsys].
    { rewrite Hsys. exists found, (msg :: log'). split; [done|by constructor]. }
    assert (Hmsg' : readableMessage (if found then removeCacheControl msg else msg)).
    { destruct found; [by apply removeCacheControl_readable|done]. }
    assert (Hrole : role (if found then removeCacheControl msg else msg) <> SYSTEM).
    { destruct found; [by rewrite removeCacheControl_role|done]. }
    destruct Hmsg' as [?|[parts Hparts]]; [done|].
    exists (found || existsb isActiveMarker parts),
           ((if found then removeCacheControl msg else msg) :: log').
    split.
    + unfold hasCacheControl. rewrite Hparts. by destruct (role msg).
    + constructor; [|done]. right. by exists parts.
Qed.

(** A conversation that can be read is read without an error, and can be
    read again. *)
Lemma getMessages_ready log :
  Forall readableMessage log ->
  exists log', getMessages log = (log', inr log') /\ Forall readableMessage log'.
Proof.
  intros H. destruct (getMessages_loop_ready log H) as (found & log' & Heq & Hall).
  exists log'. unfold getMessages. by rewrite Heq.
Qed.

Lemma removeLastMessage_readable log :
  Forall readableMessage log -> Forall readableMessage (removeLastMessage log).
Proof.
  unfold removeLastMessage. destruct (1 <? length log)%nat; [|done].
  intros H. destruct log as [|m log] using rev_ind; [done|].
  rewrite removelast_last. by apply Forall_app in H as [H _].
Qed.

Lemma compactStateMessage_readable msg :
  readableMessage msg -> readableMessage (compactStateMessage msg).
Proof.
  unfold compactStateMessage. destruct (isStateMessage msg) as [[|]|]; try done.
  intros _. right. by eexists.
Qed.

Section ReadyFacts.
Context (cycle : nat -> option BrowserState.t -> Error + Capture)
        (generateAction : nat -> list Message -> Error + AgentLLMOutput.t)
        (executeAction : nat -> ActionModel.t -> Error + ActionResult.t)
        (stateDescription : BrowserState.t -> option ActionResult.t -> option string -> string)
        (previousActionOutput : nat -> ActionResult.t -> string)
        (outputText : nat -> AgentLLMOutput.t -> string)
        (scaleB64Image : string -> string).

(** The model always answers, and no action reports completion. *)
Hypothesis model_answers :
  forall k input, exists modelOutput, generateAction k input = inr modelOutput.
Hypothesis never_done :
  forall k action, exists r, executeAction k action = inr r /\ isDoneOf r = false.

Local Abbreviation step_ := (step cycle generateAction executeAction stateDescription
                              previousActionOutput outputText scaleB64Image).

Lemma addCurrentStateMessage_readable state previous followUp log :
  Forall readableMessage log ->
  Forall readableMessage
    (addCurrentStateMessage stateDescription state previous followUp log).
Proof.
  intros H. apply Forall_app. split; [done|].
  constructor; [|done]. right. by eexists.
Qed.

Lemma addMessageFromModelOutput_readable stepNo previous modelOutput shot log :
  Forall readableMessage log ->
  Forall readableMessage
    (addMessageFromModelOutput previousActionOutput outputText scaleB64Image
       stepNo previous modelOutput shot log).
Proof.
  intros H. unfold addMessageFromModelOutput.
  assert (Hc : Forall readableMessage (map compactStateMessage log)).
  { apply Forall_forall. intros m Hm.
    apply list_elem_of_In, in_map_iff in Hm as (m0 & <- & Hm0).
    apply compactStateMessage_readable.
    rewrite Forall_forall in H. by apply H, list_elem_of_In. }
  apply Forall_app. split.
  - destruct previous as [r|]; [|done].
    destruct (truthy shot); [|done].
    apply Forall_app. split; [done|]. constructor; [|done]. right. by eexists.
  - constructor; [|done]. right. by eexists.
Qed.

(** A step of a ready agent returns a result that is not done, after one
    call to the model and one action, and leaves the agent ready. *)
Lemma step_ready stepNo previous a :
  ready a ->
  exists a' r summary,
    step_ stepNo previous a = (a', inr (r, summary))
    /\ isDoneOf r = false
    /\ ready a'
    /\ actionsRun a' = S (actionsRun a)
    /\ clockReads a' = clockReads a.
Proof using model_answers never_done.
  intros [Hstate Hlog]. unfold step.
  destruct (updateState_ready cycle (browser a) Hstate) as (b & state & -> & Hb).
  destruct previous as [previous|].
  - destruct (getMessages_ready
                (addCurrentStateMessage stateDescription state (Some previous) None
                   (messages a)))
      as (log & Hread & Hlog'); [by apply addCurrentStateMessage_readable|].
    cbn [set_messages set_browser modelCalled actionRun messages modelCalls actionsRun browser clockReads]. rewrite Hread.
    cbn [set_messages set_browser modelCalled actionRun messages modelCalls actionsRun browser clockReads].
    destruct (model_answers (modelCalls a) log) as [modelOutput ->].
    cbn [set_messages set_browser modelCalled actionRun messages modelCalls actionsRun browser clockReads].
    destruct (never_done (actionsRun a) (AgentLLMOutput.action modelOutput))
      as (r & -> & Hdone).
    eexists _, r, _. split; [done|]. split; [done|]. split; [|done].
    split; cbn [set_messages set_browser modelCalled actionRun messages browser];
      [by rewrite Hb|].
    by apply addMessageFromModelOutput_readable, removeLastMessage_readable.
  - destruct (getMessages_ready (messages a) Hlog) as (log & Hread & Hlog').
    cbn [set_messages set_browser modelCalled actionRun messages modelCalls actionsRun browser clockReads]. rewrite Hread.
    cbn [set_messages set_browser modelCalled actionRun messages modelCalls actionsRun browser clockReads].
    destruct (model_answers (modelCalls a) log) as [modelOutput ->].
    cbn [set_messages set_browser modelCalled actionRun messages modelCalls actionsRun browser clockReads].
    destruct (never_done (actionsRun a) (AgentLLMOutput.action modelOutput))
      as (r & -> & Hdone).
    eexists _, r, _. split; [done|]. split; [done|]. split; [|done].
    split; cbn [set_messages set_browser modelCalled actionRun messages browser];
      [by rewrite Hb|].
    by apply addMessageFromModelOutput_readable.
Qed.
End ReadyFacts.

(** ** The loops under a step cap *)

Section LoopFacts.
Context (cycle : nat -> option BrowserState.t -> Error + Capture)
        (goto : string -> option Error)
        (generateAction : nat -> list Message -> Error + AgentLLMOutput.t)
        (executeAction : nat -> ActionModel.t -> Error + ActionResult.t)
        (now : nat -> Z)
        (images : Error + DemoImages)
        (parseAgentState : string -> Error + list Message)
        (cookies : string)
        (theTraceId : string)
        (systemMessage : string)
        (taskText : string -> option string -> string)
        (stateDescription : BrowserState.t -> option ActionResult.t -> option string -> string)
        (previousActionOutput : nat -> ActionResult.t -> string)
        (outputText : nat -> AgentLLMOutput.t -> string)
        (scaleB64Image : string -> string).

Hypothesis model_answers :
  forall k input, exists modelOutput, generateAction k input = inr modelOutput.
Hypothesis never_done :
  forall k action, exists r, executeAction k action = inr r /\ isDoneOf r = false.

Local Abbreviation step_ := (step cycle generateAction executeAction stateDescription
                              previousActionOutput outputText scaleB64Image).
Local Abbreviation run_loop_ :=
  (run_loop cycle generateAction executeAction stateDescription
     previousActionOutput outputText scaleB64Image).
Local Abbreviation stream_loop_ :=
  (stream_loop cycle generateAction executeAction now cookies theTraceId
     stateDescription previousActionOutput outputText scaleB64Image).

(** The batch loop runs as many steps as the cap allows and leaves with
    [isDone] false. *)
Lemma run_loop_exhausts remaining stepNo result a :
  ready a ->
  exists a' result',
    run_loop_ remaining stepNo result a
    = (a', (stepNo + remaining)%nat, result', false, None)
    /\ ready a'
    /\ actionsRun a' = (actionsRun a + remaining)%nat
    /\ match remaining with
       | O => result' = result
       | S _ => exists r, result' = Some r /\ isDoneOf r = false
       end.
Proof using model_answers never_done.
  revert stepNo result a.
  induction remaining as [|remaining IH]; intros stepNo result a Hready.
  - exists a, result. cbn [run_loop]. by rewrite !Nat.add_0_r.
  - cbn [run_loop].
    destruct (step_ready cycle generateAction executeAction stateDescription
                previousActionOutput outputText scaleB64Image
                model_answers never_done stepNo result a Hready)
      as (a1 & r & summary & -> & Hdone & Hready1 & Hrun1 & _).
    rewrite Hdone.
    destruct (IH (S stepNo) (Some r) a1 Hready1)
      as (a' & result' & -> & Hready' & Hrun' & Hres).
    exists a', result'.
    split; [f_equal; f_equal; f_equal; f_equal; lia|].
    split; [done|]. split; [lia|].
    destruct remaining; [|done]. subst result'. by exists r.
Qed.

(** The streaming loop without a timeout emits one step chunk for every
    step the cap allows, then an error chunk that reports the cap, and
    closes the stream. *)
Lemma stream_loop_exhausts p startTime remaining stepNo result a s :
  timeout p = None ->
  ready a ->
  exists a' steps,
    stream_loop_ p startTime remaining stepNo result a s
    = (closeBrowser a',
       {| chunks :=
            (chunks s ++ steps)
            ++ [ErrorChunk ("Maximum number of steps reached: " +:+ pretty (maxSteps p))];
          closed := true |})
    /\ length steps = remaining
    /\ Forall (fun chunk => isStepChunk chunk = true) steps
    /\ actionsRun a' = (actionsRun a + remaining)%nat.
Proof using model_answers never_done.
  intros Htimeout. revert stepNo result a s.
  induction remaining as [|remaining IH]; intros stepNo result a s Hready.
  - exists a, []. cbn [stream_loop]. rewrite app_nil_r.
    split; [done|]. split; [done|]. split; [done|lia].
  - cbn [stream_loop].
    destruct (step_ready cycle generateAction executeAction stateDescription
                previousActionOutput outputText scaleB64Image
                model_answers never_done stepNo result a Hready)
      as (a1 & r & summary & -> & Hdone & Hready1 & Hrun1 & _).
    rewrite Htimeout, Hdone.
    assert (Hshot : exists screenshot,
              (if returnScreenshots p
               then match getState (browser a1) with
                    | Some state => inr (BrowserState.screenshot state)
                    | None => inl "TypeError: Cannot read properties of undefined"%string
                    end
               else inr None) = inr screenshot).
    { destruct (returnScreenshots p); [|by eexists].
      destruct Hready1 as [[state Hstate] _]. unfold getState. rewrite Hstate.
      by eexists. }
    destruct Hshot as [screenshot ->].
    destruct (IH (S stepNo) (Some r) a1 (enqueue (StepChunk r summary screenshot) s)
                Hready1) as (a' & steps & -> & Hlen & Hsteps & Hrun').
    exists a', (StepChunk r summary screenshot :: steps).
    split; [|split; [|split]].
    + cbn [enqueue chunks]. by rewrite <- (app_assoc (chunks s)).
    + cbn. by rewrite Hlen.
    + by constructor.
    + lia.
Qed.
End LoopFacts.

Lemma truthy_nonempty s : s <> ""%string -> truthy (Some s) = Some s.
Proof. by destruct s. Qed.

Lemma agentStateIfAsked_ready p a :
  Forall readableMessage (messages a) ->
  exists a' saved,
    agentStateIfAsked p a = (a', inr saved) /\ actionsRun a' = actionsRun a.
Proof.
  intros H. unfold agentStateIfAsked, getAgentState.
  destruct (returnAgentState p); [|by eexists _, _].
  destruct (getMessages_ready (messages a) H) as (log & -> & _).
  by eexists _, _.
Qed.

(** With the cap at five and no timeout the stream of the example ends in
    a chunk of type ['error']: five step chunks, then the report that the
    maximum number of steps was reached. *)
Lemma C9_counterexample :
  match (ex_runStream ex_params newAgent).2 with
  | inl _ => False
  | inr s =>
      length (chunks s) = 6%nat
      /\ last (chunks s) = Some (ErrorChunk "Maximum number of steps reached: 5")
      /\ isErrorChunk <$> last (chunks s) = Some true
      /\ closed s = true
  end.
Proof. by vm_compute. Qed.

Section StepCap.
Context (cycle : nat -> option BrowserState.t -> Error + Capture)
        (goto : string -> option Error)
        (generateAction : nat -> list Message -> Error + AgentLLMOutput.t)
        (executeAction : nat -> ActionModel.t -> Error + ActionResult.t)
        (now : nat -> Z)
        (images : Error + DemoImages)
        (parseAgentState : string -> Error + list Message)
        (cookies : string)
        (theTraceId : string)
        (systemMessage : string)
        (taskText : string -> option string -> string)
        (stateDescription : BrowserState.t -> option ActionResult.t -> option string -> string)
        (previousActionOutput : nat -> ActionResult.t -> string)
        (outputText : nat -> AgentLLMOutput.t -> string)
        (scaleB64Image : string -> string).

Local Abbreviation setupMessages_ :=
  (setupMessages cycle goto images parseAgentState systemMessage taskText
     stateDescription).
Local Abbreviation run_ :=
  (run cycle goto generateAction executeAction images parseAgentState cookies
     theTraceId systemMessage taskText stateDescription previousActionOutput
     outputText scaleB64Image).
Local Abbreviation runStream_ :=
  (runStream cycle goto generateAction executeAction now images parseAgentState
     cookies theTraceId systemMessage taskText stateDescription
     previousActionOutput outputText scaleB64Image).

(** C9 (as amended).  With a step cap of 5, no timeout, and a model whose
    actions never report completion, a run whose messages are set up
    without an error executes exactly 5 steps and throws nothing.  [run]
    returns its output, with a step count of 5 and the result of the fifth
    step, which is not done.  [runStream] emits five step chunks and then,
    as its terminal chunk, a chunk of type ['error'] with the content
    "Maximum number of steps reached: 5", and closes the stream. *)
Theorem C9_step_cap_exhausted (p : RunParams) (a a1 : Agent) :
  maxSteps p = 5%nat ->
  timeout p = None ->
  prompt p <> ""%string ->
  setupMessages_ p a = (a1, None) ->
  ready a1 ->
  (forall k input, exists modelOutput, generateAction k input = inr modelOutput) ->
  (forall k action, exists r, executeAction k action = inr r /\ isDoneOf r = false) ->
  (exists a' output,
     run_ p a = (a', inr output)
     /\ stepCount output = 5%nat
     /\ isDoneOf (result output) = false
     /\ actionsRun a' = (actionsRun a1 + 5)%nat)
  /\ (exists a' steps,
        runStream_ p a
        = (a', inr {| chunks := steps ++ [ErrorChunk "Maximum number of steps reached: 5"];
                      closed := true |})
        /\ length steps = 5%nat
        /\ Forall (fun chunk => isStepChunk chunk = true) steps
        /\ actionsRun a' = (actionsRun a1 + 5)%nat).
Proof.
  intros Hcap Htimeout Hprompt Hsetup Hready Hmodel Hnever. split.
  - unfold run. rewrite (truthy_nonempty _ Hprompt), Hsetup, Hcap.
    destruct (run_loop_exhausts cycle generateAction executeAction
                stateDescription previousActionOutput outputText scaleB64Image
                Hmodel Hnever 5 0 None a1 Hready)
      as (a2 & result' & -> & [_ Hlog] & Hrun & r & -> & Hdone).
    destruct (agentStateIfAsked_ready p (closeBrowser a2)) as (a3 & saved & -> & Hrun3);
      [done|].
    eexists _, _. split; [done|]. split; [done|]. split; [done|].
    rewrite Hrun3. exact Hrun.
  - unfold runStream. rewrite Hsetup, Htimeout, Hcap.
    destruct (stream_loop_exhausts cycle generateAction executeAction now cookies
                theTraceId stateDescription previousActionOutput outputText
                scaleB64Image Hmodel Hnever p None 5 0 None a1
                {| chunks := []; closed := false |} Htimeout Hready)
      as (a2 & steps & -> & Hlen & Hsteps & Hrun).
    rewrite Hcap. exists (closeBrowser a2), steps.
    split; [done|]. split; [done|]. split; [done|exact Hrun].
Qed.
End StepCap.

Lemma ex_setup_ready :
  (setupMessages ex_page_up ex_goto ex_images ex_parseAgentState
     "You are a browser agent." ex_taskText ex_stateDescription ex_params newAgent).2
    = None
  /\ ready
       (setupMessages ex_page_up ex_goto ex_images ex_parseAgentState
          "You are a browser agent." ex_taskText ex_stateDescription ex_params
          newAgent).1.
Proof.
  split; [reflexivity|]. split; [by eexists|].
  cbn. constructor; [by left|]. constructor; [right; by eexists|constructor].
Defined.

Lemma C9_step_cap_exhausted_witness :
  (exists a' output,
     ex_run ex_params newAgent = (a', inr output)
     /\ stepCount output = 5%nat
     /\ isDoneOf (result output) = false
     /\ actionsRun a' = 5%nat)
  /\ (exists a' steps,
        ex_runStream ex_params newAgent
        = (a', inr {| chunks := steps ++ [ErrorChunk "Maximum number of steps reached: 5"];
                      closed := true |})
        /\ length steps = 5%nat
        /\ Forall (fun chunk => isStepChunk chunk = true) steps
        /\ actionsRun a' = 5%nat).
Proof.
  apply (C9_step_cap_exhausted ex_page_up ex_goto ex_model_clicks ex_never_done
           ex_now ex_images ex_parseAgentState "cookies" "trace"
           "You are a browser agent." ex_taskText ex_stateDescription
           ex_previousActionOutput ex_outputText ex_scaleB64Image
           ex_params newAgent
           (setupMessages ex_page_up ex_goto ex_images ex_parseAgentState
              "You are a browser agent." ex_taskText ex_stateDescription ex_params
              newAgent).1).
  - reflexivity.
  - reflexivity.
  - discriminate.
  - reflexivity.
  - exact (proj2 ex_setup_ready).
  - intros k input. exists ex_click. reflexivity.
  - intros k action. exists ex_clicked. split; reflexivity.
Defined.

(** * Objects and values

    On an array of distinct references to existing objects the resolver
    computes, on the objects, what [filterElements] computes on their
    values. *)

Section FilterRepresentation.
Context {T U : Type} (el : T -> InteractiveElement) (g : U -> T).

Lemma checkAgainst_map iouThreshold current filtered :
  checkAgainst el iouThreshold (g current) (map g filtered)
  = ((checkAgainst (fun u => el (g u)) iouThreshold current filtered).1,
     map g (checkAgainst (fun u => el (g u)) iouThreshold current filtered).2).
Proof.
  induction filtered as [|existing rest IH]; [done|].
  cbn [map checkAgainst]. rewrite IH.
  change (area (fun u => el (g u)) existing) with (area el (g existing)).
  change (area (fun u => el (g u)) current) with (area el (g current)).
  destruct (Qlt_bool _ _); [done|].
  destruct (checkAgainst (fun u => el (g u)) iouThreshold current rest)
    as [shouldAdd rest'].
  destruct (isFullyContained _ _); [|done].
  destruct (Qle_bool (weight _) _ && _); [done|].
  by destruct (Qle_bool (area el (g existing) * _) _).
Qed.

Lemma considerCandidate_map iouThreshold filtered current :
  considerCandidate el iouThreshold (map g filtered) (g current)
  = map g (considerCandidate (fun u => el (g u)) iouThreshold filtered current).
Proof.
  unfold considerCandidate. rewrite checkAgainst_map.
  destruct (checkAgainst (fun u => el (g u)) iouThreshold current filtered)
    as [[] filtered']; cbn [fst snd]; [|done].
  by rewrite map_app.
Qed.

Lemma fold_considerCandidate_map iouThreshold candidates accepted :
  fold_left (considerCandidate el iouThreshold) (map g candidates) (map g accepted)
  = map g (fold_left (considerCandidate (fun u => el (g u)) iouThreshold)
             candidates accepted).
Proof.
  revert accepted. induction candidates as [|c candidates IH]; intros accepted; [done|].
  cbn [map fold_left]. by rewrite considerCandidate_map, IH.
Qed.

Lemma filterOverlappingElements_map elements iouThreshold :
  filterOverlappingElements el (map g elements) iouThreshold
  = map g (filterOverlappingElements (fun u => el (g u)) elements iouThreshold).
Proof.
  rewrite !filterOverlappingElements_fold, sortedByArea_map.
  apply (fold_considerCandidate_map iouThreshold _ []).
Qed.
End FilterRepresentation.

Lemma assignIndices_NoDup i sortedElements objects k r e :
  NoDup sortedElements ->
  sortedElements !! k = Some r ->
  objects !! r = Some e ->
  assignIndices i sortedElements objects !! r = Some (set_index e (i + k)).
Proof.
  intros Hnd Hk He.
  destruct (assignIndices_assigned i sortedElements objects r) as (k' & Hk' & ->).
  { by eapply list_elem_of_lookup_2. }
  rewrite He. by rewrite (NoDup_lookup _ _ _ _ Hnd Hk Hk').
Qed.

Theorem filterElements_obj_values
    (objects : gmap nat InteractiveElement) (elements : list nat) (iouThreshold : Q) :
  NoDup elements ->
  (forall r, r ∈ elements -> is_Some (objects !! r)) ->
  let resolved := filterElements_obj objects elements iouThreshold in
  map (deref resolved.1.1) resolved.2
  = filterElements (map (deref objects) elements) iouThreshold.
Proof.
  intros Hnd Hdom resolved. unfold resolved, filterElements_obj.
  rewrite filterOverlappingElements_obj_eq, sortElementsByPosition_obj_eq.
  cbn [fst snd]. unfold filterElements.
  rewrite sortElementsByPosition_reindex.
  rewrite (filterOverlappingElements_map id (deref objects)).
  rewrite (positionOrder_map id (deref objects)).
  change (fun u => id (deref objects u)) with (deref objects).
  set (sorted := positionOrder (deref objects)
                   (filterOverlappingElements (deref objects) elements iouThreshold)).
  assert (Hsub : forall r, r ∈ sorted -> r ∈ elements).
  { intros r Hr. unfold sorted in Hr. rewrite positionOrder_Permutation in Hr.
    eapply elem_of_sublist in Hr; [|apply filterOverlappingElements_sublist].
    by rewrite sortedByArea_Permutation in Hr. }
  assert (Hnd' : NoDup sorted).
  { unfold sorted. rewrite positionOrder_Permutation.
    eapply sublist_NoDup; [|apply filterOverlappingElements_sublist].
    by rewrite sortedByArea_Permutation. }
  apply list_eq. intros k. rewrite reindex_lookup, !map_fmap, !list_lookup_fmap.
  destruct (sorted !! k) as [r|] eqn:Hk; [|done]. cbn. f_equal.
  destruct (Hdom r) as [e He]; [by eapply Hsub, list_elem_of_lookup_2|].
  unfold deref. rewrite (lookup_total_correct _ _ _ He).
  apply lookup_total_correct.
  by rewrite (assignIndices_NoDup 0 sorted objects k r e Hnd' Hk He).
Qed.

(** * Further properties of the code *)

(** ** Rectangle geometry *)

Lemma Qlt_bool_proper x x' y y' : x == x' -> y == y' -> Qlt_bool x y = Qlt_bool x' y'.
Proof.
  intros Hx Hy.
  destruct (Qlt_bool x y) eqn:E1, (Qlt_bool x' y') eqn:E2; try done.
  - apply Qlt_bool_iff in E1. apply Qlt_bool_false in E2. lra.
  - apply Qlt_bool_iff in E2. apply Qlt_bool_false in E1. lra.
Qed.

Lemma iou_core_proper iL iT iR iB a1 a2 iL' iT' iR' iB' a1' a2' :
  iL == iL' -> iT == iT' -> iR == iR' -> iB == iB' -> a1 + a2 == a1' + a2' ->
  (if Qlt_bool iR iL || Qlt_bool iB iT then 0
   else if Qlt_bool 0 (a1 + a2 - (iR - iL) * (iB - iT))
        then (iR - iL) * (iB - iT) / (a1 + a2 - (iR - iL) * (iB - iT)) else 0)
  == (if Qlt_bool iR' iL' || Qlt_bool iB' iT' then 0
      else if Qlt_bool 0 (a1' + a2' - (iR' - iL') * (iB' - iT'))
           then (iR' - iL') * (iB' - iT') / (a1' + a2' - (iR' - iL') * (iB' - iT'))
           else 0).
Proof.
  intros HL HT HR HB Ha.
  rewrite (Qlt_bool_proper _ _ _ _ HR HL), (Qlt_bool_proper _ _ _ _ HB HT).
  destruct (_ || _); [reflexivity|].
  assert (Hu : a1 + a2 - (iR - iL) * (iB - iT)
               == a1' + a2' - (iR' - iL') * (iB' - iT')).
  { rewrite HL, HT, HR, HB, Ha. reflexivity. }
  rewrite (Qlt_bool_proper 0 0 _ _ (Qeq_refl 0) Hu).
  destruct (Qlt_bool 0 _); [|reflexivity].
  rewrite Hu, HL, HT, HR, HB. reflexivity.
Qed.

(** X1.  The IoU of two rectangles does not depend on the order in which
    they are given, whatever their edges are. *)
Theorem calculateIou_symmetric (rect1 rect2 : Rect.t) :
  calculateIou rect1 rect2 == calculateIou rect2 rect1.
Proof.
  unfold calculateIou. cbv zeta.
  apply iou_core_proper;
    [apply Q.max_comm|apply Q.max_comm|apply Q.min_comm|apply Q.min_comm|ring].
Qed.

(** X2.  For two rectangles whose edges are in order (left no greater than
    right, top no greater than bottom) the IoU lies between 0 and 1. *)
Theorem calculateIou_bounds (rect1 rect2 : Rect.t) :
  wellFormed rect1 -> wellFormed rect2 ->
  0 <= calculateIou rect1 rect2 <= 1.
Proof.
  intros [Hx1 Hy1] [Hx2 Hy2]. unfold calculateIou. cbv zeta.
  destruct (Qlt_bool _ _ || Qlt_bool _ _) eqn:E; [lra|].
  apply orb_false_iff in E as [E1 E2].
  apply Qlt_bool_false in E1, E2.
  set (iL := Qmax (Rect.left rect1) (Rect.left rect2)) in *.
  set (iT := Qmax (Rect.top rect1) (Rect.top rect2)) in *.
  set (iR := Qmin (Rect.right rect1) (Rect.right rect2)) in *.
  set (iB := Qmin (Rect.bottom rect1) (Rect.bottom rect2)) in *.
  assert (HiL1 : Rect.left rect1 <= iL) by apply Q.le_max_l.
  assert (HiL2 : Rect.left rect2 <= iL) by apply Q.le_max_r.
  assert (HiT1 : Rect.top rect1 <= iT) by apply Q.le_max_l.
  assert (HiT2 : Rect.top rect2 <= iT) by apply Q.le_max_r.
  assert (HiR1 : iR <= Rect.right rect1) by apply Q.le_min_l.
  assert (HiR2 : iR <= Rect.right rect2) by apply Q.le_min_r.
  assert (HiB1 : iB <= Rect.bottom rect1) by apply Q.le_min_l.
  assert (HiB2 : iB <= Rect.bottom rect2) by apply Q.le_min_r.
  clearbody iL iT iR iB.
  destruct (Qlt_bool 0 _) eqn:E; [|lra].
  apply Qlt_bool_iff in E.
  assert (Hi : 0 <= (iR - iL) * (iB - iT)) by (apply Qmult_le_0_compat; lra).
  assert (H1 : (iR - iL) * (iB - iT)
               <= (Rect.right rect1 - Rect.left rect1) * (Rect.bottom rect1 - Rect.top rect1)).
  { nra. }
  assert (H2 : (iR - iL) * (iB - iT)
               <= (Rect.right rect2 - Rect.left rect2) * (Rect.bottom rect2 - Rect.top rect2)).
  { nra. }
  split.
  - apply Qle_shift_div_l; [done|lra].
  - apply Qle_shift_div_r; [done|lra].
Qed.

Lemma calculateIou_bounds_witness :
  0 <= calculateIou (rect ex_child) (rect ex_neighbour) <= 1.
Proof.
  apply (calculateIou_bounds (rect ex_child) (rect ex_neighbour));
    (split; cbn; lra).
Defined.

Lemma isFullyContained_iff rect1 rect2 :
  isFullyContained rect1 rect2 = true
  <-> Rect.left rect2 <= Rect.left rect1 /\ Rect.right rect1 <= Rect.right rect2
      /\ Rect.top rect2 <= Rect.top rect1 /\ Rect.bottom rect1 <= Rect.bottom rect2.
Proof.
  unfold isFullyContained. rewrite !andb_true_iff, !Qle_bool_iff. tauto.
Qed.

(** X3.  The IoU of a rectangle with one that contains it is the ratio of
    their areas; with the default threshold a contained candidate that
    covers more than 70% of its container is therefore a near duplicate of
    it, whatever the weights. *)
Theorem calculateIou_contained (rect1 rect2 : Rect.t) :
  wellFormed rect1 ->
  isFullyContained rect1 rect2 = true ->
  0 < edgeArea rect2 ->
  calculateIou rect1 rect2 == edgeArea rect1 / edgeArea rect2.
Proof.
  intros [Hx1 Hy1] Hc Hpos. apply isFullyContained_iff in Hc as (Hl & Hr & Ht & Hb).
  unfold calculateIou, edgeArea in *. cbv zeta.
  assert (HL : Qmax (Rect.left rect1) (Rect.left rect2) == Rect.left rect1)
    by (apply Q.max_l; lra).
  assert (HT : Qmax (Rect.top rect1) (Rect.top rect2) == Rect.top rect1)
    by (apply Q.max_l; lra).
  assert (HR : Qmin (Rect.right rect1) (Rect.right rect2) == Rect.right rect1)
    by (apply Q.min_l; lra).
  assert (HB : Qmin (Rect.bottom rect1) (Rect.bottom rect2) == Rect.bottom rect1)
    by (apply Q.min_l; lra).
  rewrite (Qlt_bool_proper _ _ _ _ HR HL), (Qlt_bool_proper _ _ _ _ HB HT).
  destruct (Qlt_bool (Rect.right rect1) _) eqn:E1.
  { apply Qlt_bool_iff in E1. lra. }
  destruct (Qlt_bool (Rect.bottom rect1) _) eqn:E2.
  { apply Qlt_bool_iff in E2. lra. }
  cbn [orb].
  match goal with |- (if Qlt_bool 0 ?u then _ else _) == _ =>
    assert (Hu : u == (Rect.right rect2 - Rect.left rect2)
                      * (Rect.bottom rect2 - Rect.top rect2))
      by (rewrite HL, HT, HR, HB; ring)
  end.
  rewrite (Qlt_bool_proper 0 0 _ _ (Qeq_refl 0) Hu).
  apply Qlt_bool_iff in Hpos. rewrite Hpos.
  rewrite Hu, HL, HT, HR, HB. reflexivity.
Qed.

Lemma calculateIou_contained_witness :
  calculateIou (rect ex_child) (rect ex_container)
  == edgeArea (rect ex_child) / edgeArea (rect ex_container).
Proof.
  apply (calculateIou_contained (rect ex_child) (rect ex_container)).
  - split; cbn; lra.
  - reflexivity.
  - unfold edgeArea. cbn. lra.
Defined.

(** X4.  Containment of rectangles is an order on their edges: every
    rectangle contains itself, containment is transitive, and two
    rectangles that contain each other have the same four edges. *)
Theorem isFullyContained_order (rect1 rect2 rect3 : Rect.t) :
  isFullyContained rect1 rect1 = true
  /\ (isFullyContained rect1 rect2 = true -> isFullyContained rect2 rect3 = true ->
      isFullyContained rect1 rect3 = true)
  /\ (isFullyContained rect1 rect2 = true -> isFullyContained rect2 rect1 = true ->
      Rect.left rect1 == Rect.left rect2 /\ Rect.top rect1 == Rect.top rect2
      /\ Rect.right rect1 == Rect.right rect2 /\ Rect.bottom rect1 == Rect.bottom rect2).
Proof.
  rewrite !isFullyContained_iff. repeat split; lra.
Qed.

(** ** The overlap filter *)

Section FilterSurvivors.
Context {T : Type} (el : T -> InteractiveElement).

(** A candidate is rejected only against a non-empty list, which it leaves
    as it was. *)
Lemma checkAgainst_rejects iouThreshold current filtered rest :
  checkAgainst el iouThreshold current filtered = (false, rest) ->
  rest = filtered /\ filtered <> [].
Proof.
  revert rest. induction filtered as [|existing filtered IH]; intros rest; [done|].
  cbn [checkAgainst].
  destruct (Qlt_bool _ _); [by intros [= <-]|].
  destruct (isFullyContained _ _).
  - destruct (_ && _); [by intros [= <-]|].
    destruct (Qle_bool _ _); [done|].
    destruct (checkAgainst el iouThreshold current filtered) as [b rest'] eqn:E.
    intros [= -> <-]. by destruct (IH rest' eq_refl) as [-> _].
  - destruct (checkAgainst el iouThreshold current filtered) as [b rest'] eqn:E.
    intros [= -> <-]. by destruct (IH rest' eq_refl) as [-> _].
Qed.

Lemma considerCandidate_nonempty iouThreshold filteredElements current :
  considerCandidate el iouThreshold filteredElements current <> [].
Proof.
  unfold considerCandidate.
  destruct (checkAgainst el iouThreshold current filteredElements) as [[] rest] eqn:E.
  - by destruct rest.
  - by destruct (checkAgainst_rejects _ _ _ _ E) as [-> ?].
Qed.

Lemma fold_considerCandidate_nonempty iouThreshold candidates accepted :
  candidates <> [] ->
  fold_left (considerCandidate el iouThreshold) candidates accepted <> [].
Proof.
  revert accepted. induction candidates as [|c candidates IH]; intros accepted Hs; [done|].
  cbn [fold_left]. destruct candidates as [|c' candidates].
  - apply considerCandidate_nonempty.
  - by apply IH.
Qed.

(** X5.  The overlap filter never returns an empty list for an input that
    is not empty: an accepted element is only ever removed in favour of the
    candidate that takes its place. *)
Theorem filterOverlappingElements_nonempty (elements : list T) (iouThreshold : Q) :
  elements <> [] -> filterOverlappingElements el elements iouThreshold <> [].
Proof.
  intros Hne. rewrite filterOverlappingElements_fold.
  apply fold_considerCandidate_nonempty.
  intros Hs. apply Hne. apply Permutation_nil_r. rewrite <- Hs.
  symmetry. apply sortedByArea_Permutation.
Qed.

(** X6.  The overlap filter invents nothing and reorders nothing: what it
    returns is the sorted array with entries left out, so every survivor is
    an entry of the input, there are no more survivors than entries, and
    they come by descending area and, among equal areas, descending
    weight. *)
Theorem filterOverlappingElements_survivors (elements : list T) (iouThreshold : Q) :
  filterOverlappingElements el elements iouThreshold `sublist_of` sortedByArea el elements
  /\ (forall e, e ∈ filterOverlappingElements el elements iouThreshold -> e ∈ elements)
  /\ (length (filterOverlappingElements el elements iouThreshold) <= length elements)%nat
  /\ StronglySorted (area_then_weight_desc el)
       (filterOverlappingElements el elements iouThreshold).
Proof.
  pose proof (filterOverlappingElements_sublist el elements iouThreshold) as Hsub.
  split; [done|]. split; [|split].
  - intros e He. rewrite <- (sortedByArea_Permutation el elements).
    by eapply elem_of_sublist.
  - rewrite <- (Permutation_length (sortedByArea_Permutation el elements)).
    by apply sublist_length.
  - eapply StronglySorted_sublist; [exact Hsub|apply sortedByArea_sorted].
Qed.


Lemma checkAgainst_rest_sublist iouThreshold current filtered :
  (checkAgainst el iouThreshold current filtered).2 `sublist_of` filtered.
Proof. apply checkAgainst_sublist. Qed.



(** X8.  Distinct entries none of which is decided by another all pass the
    overlap filter: the result is the input sorted by descending area and
    weight. *)
Theorem filterOverlappingElements_conflict_free (elements : list T)
    (iouThreshold : Q) :
  NoDup elements ->
  conflict_free el iouThreshold elements ->
  filterOverlappingElements el elements iouThreshold = sortedByArea el elements.
Proof.
  intros Hnd Hcf. rewrite filterOverlappingElements_fold.
  rewrite (fold_considerCandidate_conflict_free el iouThreshold _ []); [done| |].
  - cbn [app]. by rewrite sortedByArea_Permutation.
  - cbn [app]. eapply conflict_free_Permutation; [|exact Hcf].
    symmetry. apply sortedByArea_Permutation.
Qed.
End FilterSurvivors.

Lemma filterOverlappingElements_nonempty_witness :
  filterOverlappingElements id [ex_container; ex_neighbour; ex_child]
    defaultIouThreshold <> [].
Proof.
  apply (filterOverlappingElements_nonempty id [ex_container; ex_neighbour; ex_child]
           defaultIouThreshold).
  discriminate.
Defined.


Lemma ex_three_conflict_free :
  conflict_free id defaultIouThreshold [ex_menu; ex_button; ex_link].
Proof.
  intros c e Hc He Hne.
  repeat (apply elem_of_cons in Hc as [->|Hc]); [| | |by apply elem_of_nil in Hc];
    (repeat (apply elem_of_cons in He as [->|He]); [| | |by apply elem_of_nil in He]);
    try done;
    (intros [H|[H _]]; vm_compute in H; discriminate).
Defined.

Lemma filterOverlappingElements_conflict_free_witness :
  filterOverlappingElements id [ex_menu; ex_button; ex_link] defaultIouThreshold
  = sortedByArea id [ex_menu; ex_button; ex_link].
Proof.
  apply (filterOverlappingElements_conflict_free id [ex_menu; ex_button; ex_link]).
  - apply (bool_decide_unpack _). by vm_compute.
  - exact ex_three_conflict_free.
Defined.


(** ** The reading order and the index *)

Lemma positionOrder_idemp {T : Type} (el : T -> InteractiveElement) (l : list T) :
  positionOrder el (positionOrder el l) = positionOrder el l.
Proof. apply positionOrder_swaps_eq, positionOrder_swaps. Qed.

(** X9.  The reading-order sort is idempotent: sorting its own result again
    returns the same elements in the same order with the same indices,
    also when elements share a position. *)
Theorem sortElementsByPosition_idempotent (elements : list InteractiveElement) :
  sortElementsByPosition (sortElementsByPosition elements)
  = sortElementsByPosition elements.
Proof.
  rewrite !sortElementsByPosition_reindex.
  set (el := fun d => id (untag d)).
  set (DP := positionOrder el (tagged elements)).
  assert (HDP : map untag DP = positionOrder id elements).
  { unfold DP, el. rewrite <- positionOrder_map. by rewrite map_untag_tagged. }
  assert (Hnd : NoDup DP).
  { unfold DP. rewrite positionOrder_Permutation. apply tagged_NoDup. }
  rewrite <- HDP, <- map_relabel by done.
  rewrite positionOrder_map.
  rewrite (positionOrder_ext (fun u => id (relabel DP u)) el) by done.
  unfold DP at 2. rewrite positionOrder_idemp. fold DP.
  by rewrite map_relabel, reindex_idemp.
Qed.

(** X10.  The resolved list has no more entries than the input; the entry
    at position [i] carries index [i], and but for its index it is an entry
    of the input. *)
Theorem filterElements_indexed (elements : list InteractiveElement)
    (iouThreshold : Q) :
  (length (filterElements elements iouThreshold) <= length elements)%nat
  /\ forall i e, filterElements elements iouThreshold !! i = Some e ->
       index e = i /\ exists e0, e0 ∈ elements /\ e = set_index e0 i.
Proof.
  unfold filterElements. cbv zeta. rewrite sortElementsByPosition_reindex.
  pose proof (filterOverlappingElements_sublist id elements iouThreshold) as Hsub.
  pose proof (positionOrder_Permutation id
                (filterOverlappingElements id elements iouThreshold)) as Hperm.
  split.
  - rewrite reindex_length, Hperm, (sublist_length _ _ Hsub).
    by rewrite (sortedByArea_Permutation id elements).
  - intros i e Hi. rewrite reindex_lookup in Hi.
    destruct (positionOrder id _ !! i) as [e0|] eqn:E; [|done].
    injection Hi as <-. split; [done|]. exists e0. split; [|done].
    apply list_elem_of_lookup_2 in E. rewrite Hperm in E.
    rewrite <- (sortedByArea_Permutation id elements).
    by eapply elem_of_sublist.
Qed.

(** X11.  In the record that [_updateState] builds from the detected
    elements, an index leads to the last of the elements that carry it, and
    to nothing if none does: of two elements with the same index the earlier
    one is lost. *)
Theorem indexElements_last_wins (elements : list InteractiveElement) (i : nat) :
  indexElements elements !! i
  = last (filter (fun element => index element = i) elements).
Proof.
  unfold indexElements.
  induction elements as [|element elements IH] using rev_ind; [done|].
  rewrite fold_left_app. cbn [fold_left]. rewrite filter_app, filter_cons, filter_nil.
  destruct (decide (index element = i)) as [->|Hne].
  - by rewrite lookup_insert_eq, last_snoc.
  - rewrite lookup_insert_ne by done. by rewrite app_nil_r.
Qed.

(** X12.  Keyed by index as [_updateState] does it, a list resolved by
    [filterElements] loses nothing: index [i] leads to its [i]-th
    entry. *)
Theorem indexElements_resolved (elements : list InteractiveElement)
    (iouThreshold : Q) (i : nat) :
  indexElements (filterElements elements iouThreshold) !! i
  = filterElements elements iouThreshold !! i.
Proof.
  unfold filterElements. cbv zeta. rewrite sortElementsByPosition_reindex.
  generalize (positionOrder id (filterOverlappingElements id elements iouThreshold)).
  intros l. unfold indexElements.
  induction l as [|e l IH] using rev_ind; [done|].
  unfold reindex in *. rewrite imap_app. cbn [imap]. rewrite fold_left_app. cbn [fold_left].
  cbn [index set_index]. rewrite Nat.add_0_r.
  destruct (decide (i = length l)) as [->|Hne].
  - rewrite lookup_insert_eq. rewrite lookup_app_r by by rewrite length_imap.
    by rewrite length_imap, Nat.sub_diag.
  - rewrite lookup_insert_ne by done. rewrite IH.
    destruct (decide (i < length l)%nat).
    + by rewrite lookup_app_l by by rewrite length_imap.
    + rewrite !lookup_ge_None_2; [done|..].
      * rewrite length_app, length_imap. cbn. lia.
      * rewrite length_imap. lia.
Qed.

(** ** The conversation log *)

Lemma clearMarker_idemp part : clearMarker (clearMarker part) = clearMarker part.
Proof. by destruct part as [? [?|]| | |]. Qed.

Lemma removeCacheControl_idemp message :
  removeCacheControl (removeCacheControl message) = removeCacheControl message.
Proof.
  unfold removeCacheControl.
  destruct (content message) as [s|parts] eqn:E; [by rewrite E|].
  cbn [content role isStateMessage]. do 2 f_equal.
  rewrite map_map. apply map_ext. intros part. apply clearMarker_idemp.
Qed.

Lemma getMessages_loop_again log found visited :
  foldr getMessages_step (false, [], None) log = (found, visited, None) ->
  foldr getMessages_step (false, [], None) visited = (found, visited, None).
Proof.
  revert found visited. induction log as [|msg log IH]; intros found visited.
  { by intros [= <- <-]. }
  cbn [foldr].
  destruct (foldr getMessages_step (false, [], None) log) as [[found0 visited0] thrown] eqn:E.
  destruct thrown as [e|]; [done|].
  specialize (IH found0 visited0 eq_refl).
  unfold getMessages_step at 1.
  destruct (decide (role msg = SYSTEM)) as [Hsys|Hsys].
  { rewrite Hsys. intros [= <- <-]. cbn [foldr]. rewrite IH.
    unfold getMessages_step. by rewrite Hsys. }
  assert (Hstep :
    (let msg' := if found0 then removeCacheControl msg else msg in
     match hasCacheControl msg' with
     | inl e => (found0, msg' :: visited0, Some e)
     | inr has => (found0 || has, msg' :: visited0, None)
     end) = (found, visited, None) ->
    foldr getMessages_step (false, [], None) visited = (found, visited, None)).
  { cbn zeta.
    destruct (hasCacheControl (if found0 then removeCacheControl msg else msg))
      as [e|has] eqn:Hhas; [done|].
    intros [= <- <-]. cbn [foldr]. rewrite IH. unfold getMessages_step.
    assert (Hrole : role (if found0 then removeCacheControl msg else msg) = role msg).
    { destruct found0; [apply removeCacheControl_role|done]. }
    assert (Hagain : (if found0
                      then removeCacheControl (if found0 then removeCacheControl msg else msg)
                      else (if found0 then removeCacheControl msg else msg))
                     = (if found0 then removeCacheControl msg else msg)).
    { destruct found0; [apply removeCacheControl_idemp|done]. }
    rewrite Hrole, Hagain, Hhas. by destruct (role msg). }
  by destruct (role msg).
Qed.

(** X13.  [getMessages] is idempotent: reading the log it has returned
    changes nothing and returns the same log. *)
Theorem getMessages_idempotent (_messages read : list Message) :
  getMessages _messages = (read, inr read) ->
  getMessages read = (read, inr read).
Proof.
  unfold getMessages.
  destruct (foldr getMessages_step (false, [], None) _messages)
    as [[found visited] thrown] eqn:E.
  destruct thrown as [e|]; [done|]. intros [= <-].
  by rewrite (getMessages_loop_again _ _ _ E).
Qed.

Lemma getMessages_idempotent_witness :
  getMessages ex_log_read = (ex_log_read, inr ex_log_read).
Proof. apply (getMessages_idempotent ex_log). reflexivity. Defined.

Lemma head_removeLastMessage log : head (removeLastMessage log) = head log.
Proof.
  unfold removeLastMessage. destruct log as [|m0 [|m1 log]]; try done.
Qed.

(** X14.  However often [removeLastMessage] is called, the first message
    of the log stays; a log of one message is left alone, and a message
    pushed onto a log that is not empty is taken off again. *)
Theorem removeLastMessage_keeps_first (n : nat) (_messages : list Message)
    (first pushed : Message) :
  head (Nat.iter n removeLastMessage _messages) = head _messages
  /\ removeLastMessage [first] = [first]
  /\ removeLastMessage ((first :: _messages) ++ [pushed]) = first :: _messages.
Proof.
  split; [|split].
  - induction n as [|n IH]; [done|].
    by rewrite Nat.iter_succ, head_removeLastMessage.
  - done.
  - by apply removeLastMessage_snoc.
Qed.

Section CompactionFacts.
Context (previousActionOutput : nat -> ActionResult.t -> string)
        (outputText : nat -> AgentLLMOutput.t -> string)
        (scaleB64Image : string -> string).

Local Abbreviation addMessageFromModelOutput_ :=
  (addMessageFromModelOutput previousActionOutput outputText scaleB64Image).

Lemma compactStateMessage_parts msg :
  isStateMessage msg = Some true ->
  exists parts, content (compactStateMessage msg) = inr parts /\ (length parts <= 1)%nat.
Proof.
  intros H. unfold compactStateMessage. rewrite H. cbn [content].
  destruct (content msg) as [s|parts].
  - exists [text_ s]. split; [reflexivity|]. cbn. lia.
  - exists (take 1 parts). split; [reflexivity|]. rewrite length_take. lia.
Qed.

Lemma compactStateMessage_other msg :
  isStateMessage msg <> Some true -> compactStateMessage msg = msg.
Proof.
  intros H. unfold compactStateMessage. by destruct (isStateMessage msg) as [[]|].
Qed.

Lemma compactStateMessage_flag msg :
  isStateMessage (compactStateMessage msg) = isStateMessage msg.
Proof. by destruct msg as [r c [[]|]]. Qed.

Lemma compactStateMessage_role msg : role (compactStateMessage msg) = role msg.
Proof. by destruct msg as [r c [[]|]]. Qed.

(** X15.  After [addMessageFromModelOutput] the log has grown by the
    assistant's message, preceded by at most one new state message; every
    message recorded before keeps its place, role and flag; those flagged as
    state messages are cut down to at most one part (the screenshot of an
    earlier state is gone), the others are as they were. *)
Theorem addMessageFromModelOutput_compacts (step : nat)
    (previousResult : option ActionResult.t) (modelOutput : AgentLLMOutput.t)
    (screenshot : option string) (_messages : list Message) :
  let log := addMessageFromModelOutput_ step previousResult modelOutput screenshot
               _messages in
  (length _messages + 1 <= length log <= length _messages + 2)%nat
  /\ (exists parts,
        last log = Some {| role := ASSISTANT; content := inr parts;
                           isStateMessage := None |})
  /\ (forall i msg, _messages !! i = Some msg ->
        exists msg', log !! i = Some msg'
          /\ role msg' = role msg
          /\ isStateMessage msg' = isStateMessage msg
          /\ (isStateMessage msg <> Some true -> msg' = msg)
          /\ (isStateMessage msg = Some true ->
              exists parts, content msg' = inr parts /\ (length parts <= 1)%nat)).
Proof.
  cbv zeta. unfold addMessageFromModelOutput.
  set (assistant := {| role := ASSISTANT; content := _; isStateMessage := None |}).
  set (withState := match previousResult, truthy screenshot with
                    | Some previous, Some shot => _
                    | _, _ => map compactStateMessage _messages
                    end).
  assert (Hwith : exists extra, withState = map compactStateMessage _messages ++ extra
                    /\ (length extra <= 1)%nat).
  { unfold withState. destruct previousResult as [previous|];
      [|exists []; rewrite app_nil_r; split; [done|cbn; lia]].
    destruct (truthy screenshot) as [shot|];
      [|exists []; rewrite app_nil_r; split; [done|cbn; lia]].
    eexists [_]. split; [done|]. cbn. lia. }
  destruct Hwith as (extra & -> & Hextra).
  split; [|split].
  - rewrite !length_app, length_map. cbn. lia.
  - rewrite last_snoc. unfold assistant. eauto.
  - intros i msg Hi. exists (compactStateMessage msg). split.
    + rewrite <- !app_assoc. rewrite lookup_app_l.
      * by rewrite map_fmap, list_lookup_fmap, Hi.
      * rewrite length_map. by eapply lookup_lt_Some.
    + split; [apply compactStateMessage_role|].
      split; [apply compactStateMessage_flag|].
      split; [apply compactStateMessage_other|apply compactStateMessage_parts].
Qed.
End CompactionFacts.

(** ** The batch and the streaming run *)

Section RunFacts.
Context (cycle : nat -> option BrowserState.t -> Error + Capture)
        (goto : string -> option Error)
        (generateAction : nat -> list Message -> Error + AgentLLMOutput.t)
        (executeAction : nat -> ActionModel.t -> Error + ActionResult.t)
        (now : nat -> Z)
        (images : Error + DemoImages)
        (parseAgentState : string -> Error + list Message)
        (cookies : string)
        (theTraceId : string)
        (systemMessage : string)
        (taskText : string -> option string -> string)
        (stateDescription : BrowserState.t -> option ActionResult.t -> option string -> string)
        (previousActionOutput : nat -> ActionResult.t -> string)
        (outputText : nat -> AgentLLMOutput.t -> string)
        (scaleB64Image : string -> string).

Local Abbreviation step_ := (step cycle generateAction executeAction stateDescription
                              previousActionOutput outputText scaleB64Image).
Local Abbreviation run_loop_ :=
  (run_loop cycle generateAction executeAction stateDescription
     previousActionOutput outputText scaleB64Image).
Local Abbreviation stream_loop_ :=
  (stream_loop cycle generateAction executeAction now cookies theTraceId
     stateDescription previousActionOutput outputText scaleB64Image).
Local Abbreviation setupMessages_ :=
  (setupMessages cycle goto images parseAgentState systemMessage taskText
     stateDescription).
Local Abbreviation run_ :=
  (run cycle goto generateAction executeAction images parseAgentState cookies
     theTraceId systemMessage taskText stateDescription previousActionOutput
     outputText scaleB64Image).
Local Abbreviation runStream_ :=
  (runStream cycle goto generateAction executeAction now images parseAgentState
     cookies theTraceId systemMessage taskText stateDescription
     previousActionOutput outputText scaleB64Image).







End RunFacts.





(** ** Identifiers *)

Module UuidFacts.
Import Stdlib.Strings.Ascii JsString Uuid.


Lemma chars_ofChars l : chars (ofChars l) = l.
Proof. apply String.list_ascii_of_string_of_list_ascii. Qed.

Lemma ofChars_chars s : ofChars (chars s) = s.
Proof. apply String.string_of_list_ascii_of_string. Qed.

Lemma chars_app s1 s2 : chars (s1 +:+ s2) = chars s1 ++ chars s2.
Proof.
  unfold chars. induction s1 as [|c s1 IH]; [done|].
  cbn. by rewrite <- IH.
Qed.

Lemma toLowerCaseChar_hex c :
  isHexDigit c = true -> isLowerHex (toLowerCaseChar c) = true.
Proof. destruct c as [[] [] [] [] [] [] [] []]; vm_compute; done. Qed.

Lemma isLowerHex_not_x c : isLowerHex c = true -> c <> "x"%char.
Proof. intros H ->. by vm_compute in H. Qed.

Lemma isLowerHex_not_dash c : isLowerHex c = true -> c <> "-"%char.
Proof. intros H ->. by vm_compute in H. Qed.

Lemma isLowerHex_dotMatches c : isLowerHex c = true -> dotMatches c = true.
Proof. destruct c as [[] [] [] [] [] [] [] []]; vm_compute; done. Qed.

Lemma forallb_take {A} (f : A -> bool) n l :
  forallb f l = true -> forallb f (take n l) = true.
Proof.
  revert n. induction l as [|a l IH]; intros [|n]; cbn; try done.
  intros [-> H]%andb_true_iff. by apply IH.
Qed.

Lemma forallb_drop {A} (f : A -> bool) n l :
  forallb f l = true -> forallb f (drop n l) = true.
Proof.
  revert n. induction l as [|a l IH]; intros [|n]; cbn; try done.
  intros [_ H]%andb_true_iff. by apply IH.
Qed.

Lemma forallb_impl {A} (f g : A -> bool) l :
  (forall a, f a = true -> g a = true) -> forallb f l = true -> forallb g l = true.
Proof.
  intros Hfg. induction l as [|a l IH]; cbn; [done|].
  intros [Ha H]%andb_true_iff. by rewrite (Hfg a Ha), IH.
Qed.

Lemma toLowerCase_hex l :
  forallb isHexDigit l = true -> forallb isLowerHex (toLowerCase l) = true.
Proof.
  unfold toLowerCase. induction l as [|c l IH]; cbn [map forallb]; [done|].
  intros [Hc H]%andb_true_iff. rewrite (toLowerCaseChar_hex c Hc). by apply IH.
Qed.

(** The id after lower-casing and removing the prefix: the digits in lower
    case. *)
Lemma dropHexPrefix_digits prefix digits :
  prefix ∈ [""; "0x"; "0X"]%string ->
  forallb isHexDigit (chars digits) = true ->
  dropHexPrefix (toLowerCase (chars (prefix +:+ digits))) = toLowerCase (chars digits).
Proof.
  intros Hprefix Hhex. rewrite chars_app.
  apply toLowerCase_hex in Hhex.
  unfold toLowerCase in *. rewrite map_app.
  generalize dependent (map toLowerCaseChar (chars digits)). intros l Hhex.
  repeat (apply elem_of_cons in Hprefix as [->|Hprefix]);
    [| | |by apply elem_of_nil in Hprefix]; try reflexivity.
  change (map toLowerCaseChar (chars "")) with (@nil ascii). rewrite app_nil_l.
  unfold dropHexPrefix. rewrite bool_decide_eq_false_2; [done|].
  destruct l as [|c0 [|c1 l]]; try done.
  cbn [forallb] in Hhex. apply andb_true_iff in Hhex as [_ [H1 _]%andb_true_iff].
  apply isLowerHex_not_x in H1. cbn. congruence.
Qed.

Lemma length_toLowerCase l : length (toLowerCase l) = length l.
Proof. apply length_map. Qed.

Lemma isHexString_lower l :
  l <> [] -> forallb isLowerHex l = true -> isHexString l = true.
Proof. by destruct l. Qed.

Lemma hexRun_app n a rest :
  length a = n -> forallb isLowerHex a = true -> hexRun n (a ++ rest) = Some rest.
Proof.
  intros <- Hhex. unfold hexRun.
  rewrite take_app_length, drop_app_length, Hhex, Nat.eqb_refl. done.
Qed.

Lemma insertDashes_32 l :
  length l = 32%nat -> forallb isLowerHex l = true ->
  insertDashes l
  = take 8 l ++ "-"%char :: take 4 (drop 8 l) ++ "-"%char :: take 4 (drop 12 l)
    ++ "-"%char :: take 4 (drop 16 l) ++ "-"%char :: drop 20 l.
Proof.
  intros Hlen Hhex. unfold insertDashes.
  by rewrite Hlen, (forallb_impl _ _ _ isLowerHex_dotMatches Hhex).
Qed.

Lemma isStringUUID_insertDashes l :
  length l = 32%nat -> forallb isLowerHex l = true ->
  isStringUUID (ofChars (insertDashes l)) = true.
Proof.
  intros Hlen Hhex. unfold isStringUUID. rewrite chars_ofChars, insertDashes_32 by done.
  unfold matchPieces, uuidPattern. cbn [foldl mbind option_bind].
  rewrite hexRun_app;
    [|rewrite length_take; lia|by apply forallb_take]. cbn [mbind option_bind dash].
  rewrite hexRun_app;
    [|rewrite length_take, length_drop; lia|by apply forallb_take, forallb_drop].
  cbn [mbind option_bind dash].
  rewrite hexRun_app;
    [|rewrite length_take, length_drop; lia|by apply forallb_take, forallb_drop].
  cbn [mbind option_bind dash].
  rewrite hexRun_app;
    [|rewrite length_take, length_drop; lia|by apply forallb_take, forallb_drop].
  cbn [mbind option_bind dash].
  rewrite <- (app_nil_r (drop 20 l)).
  rewrite hexRun_app; [done|rewrite length_drop; lia|by apply forallb_drop].
Qed.

Lemma filter_not_dash l :
  forallb isLowerHex l = true -> filter (fun c => c <> "-"%char) l = l.
Proof.
  induction l as [|c l IH]; cbn [forallb]; [done|].
  intros [Hc H]%andb_true_iff. rewrite filter_cons.
  destruct (decide (c <> "-"%char)) as [_|Hn]; [by rewrite IH|].
  exfalso. apply Hn. by apply isLowerHex_not_dash.
Qed.

Lemma filter_dash_cons l :
  filter (fun c => c <> "-"%char) ("-"%char :: l) = filter (fun c => c <> "-"%char) l.
Proof. rewrite filter_cons. by destruct (decide _). Qed.

Lemma withoutDashes_insertDashes l :
  length l = 32%nat -> forallb isLowerHex l = true ->
  withoutDashes (ofChars (insertDashes l)) = ofChars l.
Proof.
  intros Hlen Hhex. unfold withoutDashes. f_equal.
  rewrite chars_ofChars, insertDashes_32 by done.
  rewrite filter_app, filter_dash_cons, filter_app, filter_dash_cons,
    filter_app, filter_dash_cons, filter_app, filter_dash_cons.
  rewrite !filter_not_dash
    by first [by apply forallb_take, forallb_drop|by apply forallb_take
             |by apply forallb_drop].
  rewrite !app_assoc, !take_take_drop. apply take_drop.
Qed.

(** A string of hexadecimal digits is no UUID: it has no dash. *)
Lemma isStringUUID_hex l :
  forallb isLowerHex l = true -> isStringUUID (ofChars l) = false.
Proof.
  intros Hhex. unfold isStringUUID. rewrite chars_ofChars.
  unfold matchPieces, uuidPattern. cbn [foldl mbind option_bind].
  destruct (hexRun 8 l) as [rest|] eqn:E; [|done].
  assert (Hd : dash rest = None).
  { unfold hexRun in E. destruct (_ && _); [|done]. injection E as <-.
    pose proof (forallb_drop _ 8 _ Hhex) as H.
    destruct (drop 8 l) as [|c r]; [done|]. cbn [forallb] in H.
    apply andb_true_iff in H as [Hc _]. apply isLowerHex_not_dash in Hc.
    unfold dash. destruct c as [[] [] [] [] [] [] [] []]; done. }
  cbn [mbind option_bind]. by rewrite Hd.
Qed.

Section IdentifierFacts.
Context (newUUID : string).

(** X20.  A trace id of 32 hexadecimal digits, in either case and with or
    without the prefix [0x], is turned into a UUID ([isStringUUID] accepts
    it) whose digits are those of the id, in lower case: nothing is lost
    and nothing is added but the dashes. *)
Theorem otelTraceIdToUUID_valid (prefix digits : string) :
  prefix ∈ [""; "0x"; "0X"]%string ->
  length (chars digits) = 32%nat ->
  forallb isHexDigit (chars digits) = true ->
  isStringUUID (otelTraceIdToUUID newUUID (prefix +:+ digits)) = true
  /\ withoutDashes (otelTraceIdToUUID newUUID (prefix +:+ digits))
     = ofChars (toLowerCase (chars digits)).
Proof.
  intros Hprefix Hlen Hhex. unfold otelTraceIdToUUID. cbv zeta.
  rewrite (dropHexPrefix_digits prefix digits Hprefix Hhex).
  pose proof (toLowerCase_hex _ Hhex) as Hlower.
  assert (Hlen' : length (toLowerCase (chars digits)) = 32%nat)
    by by rewrite length_toLowerCase.
  rewrite isHexString_lower; [|by destruct (toLowerCase (chars digits))|done].
  cbn [negb]. split.
  - by apply isStringUUID_insertDashes.
  - by apply withoutDashes_insertDashes.
Qed.

(** X21.  A span id of 1 to 32 hexadecimal digits, in either case and with
    or without the prefix [0x], is turned into a UUID whose digits are
    those of the id, in lower case, after as many zeros as it takes to
    make 32. *)
Theorem otelSpanIdToUUID_valid (prefix digits : string) :
  prefix ∈ [""; "0x"; "0X"]%string ->
  (1 <= length (chars digits) <= 32)%nat ->
  forallb isHexDigit (chars digits) = true ->
  isStringUUID (otelSpanIdToUUID newUUID (prefix +:+ digits)) = true
  /\ withoutDashes (otelSpanIdToUUID newUUID (prefix +:+ digits))
     = ofChars (replicate (32 - length (chars digits)) "0"%char
                ++ toLowerCase (chars digits)).
Proof.
  intros Hprefix Hlen Hhex. unfold otelSpanIdToUUID. cbv zeta.
  rewrite (dropHexPrefix_digits prefix digits Hprefix Hhex).
  pose proof (toLowerCase_hex _ Hhex) as Hlower.
  rewrite isHexString_lower;
    [|destruct (chars digits); [cbn in Hlen; lia|done]|done].
  cbn [negb]. unfold padStart32. rewrite length_toLowerCase.
  assert (Hlen' : length (replicate (32 - length (chars digits)) "0"%char
                          ++ toLowerCase (chars digits)) = 32%nat).
  { rewrite length_app, length_replicate, length_toLowerCase. lia. }
  assert (Hhex' : forallb isLowerHex
                    (replicate (32 - length (chars digits)) "0"%char
                     ++ toLowerCase (chars digits)) = true).
  { rewrite forallb_app, Hlower, andb_true_r.
    generalize (32 - length (chars digits))%nat. intros n.
    induction n as [|n IH]; [done|]. cbn. exact IH. }
  split.
  - by apply isStringUUID_insertDashes.
  - by apply withoutDashes_insertDashes.
Qed.

(** X22.  A string of hexadecimal digits of the wrong length is not
    rejected: a trace id of other than 32 digits, and a span id of more
    than 32, comes back as it is (in lower case, without its prefix), and
    what comes back is no UUID. *)
Theorem otel_ids_of_wrong_length (prefix digits : string) :
  prefix ∈ [""; "0x"; "0X"]%string ->
  (1 <= length (chars digits))%nat ->
  forallb isHexDigit (chars digits) = true ->
  (length (chars digits) <> 32%nat ->
   otelTraceIdToUUID newUUID (prefix +:+ digits) = ofChars (toLowerCase (chars digits))
   /\ isStringUUID (otelTraceIdToUUID newUUID (prefix +:+ digits)) = false)
  /\ ((32 < length (chars digits))%nat ->
      otelSpanIdToUUID newUUID (prefix +:+ digits) = ofChars (toLowerCase (chars digits))
      /\ isStringUUID (otelSpanIdToUUID newUUID (prefix +:+ digits)) = false).
Proof.
  intros Hprefix Hlen Hhex. unfold otelTraceIdToUUID, otelSpanIdToUUID. cbv zeta.
  rewrite (dropHexPrefix_digits prefix digits Hprefix Hhex).
  pose proof (toLowerCase_hex _ Hhex) as Hlower.
  rewrite isHexString_lower;
    [|destruct (chars digits); [cbn in Hlen; lia|done]|done].
  cbn [negb]. split.
  - intros Hne. unfold insertDashes. rewrite length_toLowerCase.
    rewrite (proj2 (Nat.eqb_neq _ _) Hne). cbn [andb].
    split; [done|]. by apply isStringUUID_hex.
  - intros Hgt. unfold padStart32. rewrite length_toLowerCase.
    replace (32 - length (chars digits))%nat with 0%nat by lia. cbn [replicate app].
    unfold insertDashes. rewrite length_toLowerCase.
    rewrite (proj2 (Nat.eqb_neq _ _)) by lia. cbn [andb].
    split; [done|]. by apply isStringUUID_hex.
Qed.
End IdentifierFacts.

Lemma otelTraceIdToUUID_valid_witness :
  otelTraceIdToUUID "fresh" "0x0123456789ABCDEF0123456789abcdef"
  = "01234567-89ab-cdef-0123-456789abcdef"%string
  /\ isStringUUID (otelTraceIdToUUID "fresh" ("0x" +:+ "0123456789ABCDEF0123456789abcdef"))
     = true
  /\ withoutDashes (otelTraceIdToUUID "fresh" ("0x" +:+ "0123456789ABCDEF0123456789abcdef"))
     = ofChars (toLowerCase (chars "0123456789ABCDEF0123456789abcdef")).
Proof.
  split; [reflexivity|].
  apply (otelTraceIdToUUID_valid "fresh" "0x" "0123456789ABCDEF0123456789abcdef").
  - right. left.
  - reflexivity.
  - reflexivity.
Defined.

Lemma otelSpanIdToUUID_valid_witness :
  otelSpanIdToUUID "fresh" "00F067AA0BA902B7"
  = "00000000-0000-0000-00f0-67aa0ba902b7"%string
  /\ isStringUUID (otelSpanIdToUUID "fresh" ("" +:+ "00F067AA0BA902B7")) = true
  /\ withoutDashes (otelSpanIdToUUID "fresh" ("" +:+ "00F067AA0BA902B7"))
     = ofChars (replicate (32 - length (chars "00F067AA0BA902B7")) "0"%char
                ++ toLowerCase (chars "00F067AA0BA902B7")).
Proof.
  split; [reflexivity|].
  apply (otelSpanIdToUUID_valid "fresh" "" "00F067AA0BA902B7").
  - left.
  - cbn. lia.
  - reflexivity.
Defined.

Lemma otel_ids_of_wrong_length_witness :
  otelTraceIdToUUID "fresh" ("" +:+ "00f067aa0ba902b7")
  = ofChars (toLowerCase (chars "00f067aa0ba902b7"))
  /\ isStringUUID (otelTraceIdToUUID "fresh" ("" +:+ "00f067aa0ba902b7")) = false.
Proof.
  apply (otel_ids_of_wrong_length "fresh" "" "00f067aa0ba902b7").
  - left.
  - cbn. lia.
  - reflexivity.
  - cbn. lia.
Defined.

End UuidFacts.

(** ** What reaches the provider *)

Lemma flat_map_formatPart_filter parts :
  flat_map formatPart parts = flat_map formatPart (List.filter isTextOrImage parts).
Proof.
  induction parts as [|part parts IH]; [done|].
  destruct part; cbn [List.filter isTextOrImage flat_map formatPart app]; by rewrite IH.
Qed.

Section AdapterFacts.
Context (previousActionOutput : nat -> ActionResult.t -> string)
        (outputText : nat -> AgentLLMOutput.t -> string)
        (scaleB64Image : string -> string).

(** X23.  The thinking block of the model is recorded in the log and never
    sent back: the assistant message that [addMessageFromModelOutput]
    appends is formatted by the adapter as the plain string of its output
    text, with or without a thinking block. *)
Theorem formatMessage_assistant_output (step : nat)
    (previousResult : option ActionResult.t) (modelOutput : AgentLLMOutput.t)
    (screenshot : option string) (_messages : list Message) :
  (forall block, AgentLLMOutput.thinkingBlock modelOutput = Some block ->
     exists thinking signature cacheControl,
       block = ThinkingBlock thinking signature cacheControl) ->
  exists message,
    last (addMessageFromModelOutput previousActionOutput outputText scaleB64Image
            step previousResult modelOutput screenshot _messages) = Some message
    /\ formatMessage message
       = inr (mkCoreMessage ASSISTANT (CoreString (outputText step modelOutput))).
Proof.
  intros Hblock. unfold addMessageFromModelOutput. eexists. rewrite last_snoc.
  split; [done|]. unfold formatMessage. cbn [role content].
  destruct (AgentLLMOutput.thinkingBlock modelOutput) as [block|]; [|done].
  by destruct (Hblock block eq_refl) as (thinking & signature & cacheControl & ->).
Qed.
End AdapterFacts.

Lemma formatMessage_assistant_output_witness :
  exists message,
    last (addMessageFromModelOutput ex_previousActionOutput ex_outputText
            ex_scaleB64Image 2 (Some ex_clicked) ex_click_thinking (Some "png") ex_log)
    = Some message
    /\ formatMessage message
       = inr (mkCoreMessage ASSISTANT (CoreString (ex_outputText 2 ex_click_thinking))).
Proof.
  apply (formatMessage_assistant_output ex_previousActionOutput ex_outputText
           ex_scaleB64Image 2 (Some ex_clicked) ex_click_thinking (Some "png") ex_log).
  intros block [= <-]. by eexists _, _, _.
Defined.


Lemma formatMessage_role message formatted :
  formatMessage message = inr formatted -> coreRole formatted = role message.
Proof.
  unfold formatMessage.
  destruct (role message), (content message); intros [= <-]; done.
Qed.

(** A user or assistant message is sent with the text and image parts of
    its content, in their order, and nothing else. *)
Lemma formatMessage_parts message parts :
  role message = USER \/ role message = ASSISTANT ->
  content message = inr parts ->
  exists formatted,
    formatMessage message = inr formatted
    /\ (coreContent formatted = CoreParts (flat_map formatPart (List.filter isTextOrImage parts))
        \/ exists text ephemeral,
             flat_map formatPart (List.filter isTextOrImage parts) = [TextPart text ephemeral]
             /\ coreContent formatted = CoreString text).
Proof.
  intros Hrole Hcontent. unfold formatMessage. rewrite Hcontent.
  rewrite <- flat_map_formatPart_filter.
  destruct Hrole as [-> | ->]; eexists; (split; [done|]); cbn [coreContent];
    destruct (flat_map formatPart parts) as [|[text ephemeral|image ephemeral] [|part rest]];
    eauto.
Qed.

(** X24.  [formatMessages] throws only on a tool message whose content is a
    string.  Otherwise it returns one formatted message for every message,
    in order and with the same role, and a user or assistant message is
    sent with exactly the text and image parts of its content, in their
    order (as a plain string if that is a single text part): thinking
    blocks and tool results in it are left out. *)
Theorem formatMessages_returns (messages : list Message) :
  (forall message, message ∈ messages -> role message = TOOL ->
     exists parts, content message = inr parts) ->
  exists formatted,
    formatMessages messages = inr formatted
    /\ map coreRole formatted = map role messages
    /\ forall i message parts,
         messages !! i = Some message ->
         role message = USER \/ role message = ASSISTANT ->
         content message = inr parts ->
         exists sent,
           formatted !! i = Some sent
           /\ (coreContent sent
               = CoreParts (flat_map formatPart (List.filter isTextOrImage parts))
               \/ exists text ephemeral,
                    flat_map formatPart (List.filter isTextOrImage parts)
                    = [TextPart text ephemeral]
                    /\ coreContent sent = CoreString text).
Proof.
  induction messages as [|message messages IH]; intros Htool.
  { exists []. split; [done|]. split; [done|]. intros i ? ? Hi. by rewrite lookup_nil in Hi. }
  destruct IH as (rest & Hrest & Hroles & Hparts).
  { intros m Hm. apply Htool. by right. }
  assert (Hone : exists sent, formatMessage message = inr sent).
  { unfold formatMessage. destruct (role message) eqn:Hrole; try by eexists.
    - destruct (content message); by eexists.
    - destruct (content message); by eexists.
    - destruct (Htool message) as [parts ->]; [by left|done|]. by eexists. }
  destruct Hone as [sent Hsent]. exists (sent :: rest).
  cbn [formatMessages]. rewrite Hsent, Hrest. split; [done|]. split.
  - cbn [map]. by rewrite Hroles, (formatMessage_role _ _ Hsent).
  - intros [|i] m parts Hi Hrole Hcontent.
    + injection Hi as <-. destruct (formatMessage_parts _ _ Hrole Hcontent) as (f & Hf & H).
      exists f. split; [|done]. cbn. congruence.
    + cbn in Hi |- *. by eapply Hparts.
Qed.

Lemma formatMessages_returns_witness :
  exists formatted,
    formatMessages ex_log = inr formatted
    /\ map coreRole formatted = map role ex_log.
Proof.
  destruct (formatMessages_returns ex_log) as (formatted & H1 & H2 & _).
  - intros message Hin Hrole.
    repeat (apply elem_of_cons in Hin as [->|Hin]); try discriminate Hrole.
    by apply elem_of_nil in Hin.
  - by exists formatted.
Defined.

(** ** The registry *)

Section ControllerFacts.
Context {B W : Type} (notAFunction : string).
Implicit Types (_actions : @Registry B W).

(** X25.  Executing an action under the name an action function was last
    registered with runs that function, on the parameters of the model,
    with the browser put under [browser] if and only if it was registered
    with [browserContext], and wraps the error it throws; this holds for
    every name.  Registering under a name other than [__proto__] changes
    nothing for the other names.  Before anything is registered a name
    gives the error "Action ... not found", unless it is the name of a
    property of [Object.prototype], [toString] for one: such a name is
    found, and the error is that of calling what is no function. *)
Theorem registerAction_executeAction (name description : string)
    (func : ActionArguments -> W -> W * (Error + ActionResult.t))
    (params : option (gmap string ActionParameter)) (flag : bool)
    _actions (action : ActionModel.t) (browser : B) (w : W) :
  (ActionModel.name action = name ->
   executeAction notAFunction (registerAction name description func params flag _actions)
     action browser w
   = runAction (mkAction name description func flag (default ∅ params)) action browser w)
  /\ (name <> "__proto__"%string -> ActionModel.name action <> name ->
      executeAction notAFunction
        (registerAction name description func params flag _actions) action browser w
      = executeAction notAFunction _actions action browser w)
  /\ executeAction notAFunction noActions action browser w
     = (w, inl (if bool_decide (ActionModel.name action ∈ objectPrototypeKeys)
                then "Error executing action " +:+ ActionModel.name action +:+ ": "
                     +:+ notAFunction
                else "Action " +:+ ActionModel.name action +:+ " not found")).
Proof.
  split; [|split].
  - intros <-. unfold executeAction, registerAction, runAction, getAction. cbv zeta.
    destruct (decide (ActionModel.name action = "__proto__"%string)) as [Hname|Hname].
    + by rewrite !bool_decide_true by done.
    + rewrite !bool_decide_false by done. cbn [ownActions].
      by rewrite lookup_insert_eq.
  - intros Hproto Hne. unfold executeAction, registerAction, getAction. cbv zeta.
    rewrite (bool_decide_false (name = _)) by done.
    cbn [ownActions prototypeAction].
    by rewrite lookup_insert_ne.
  - unfold executeAction, getAction, noActions. cbv zeta.
    cbn [ownActions prototypeAction]. rewrite lookup_empty. cbn [mbind option_bind].
    destruct (decide (ActionModel.name action = "__proto__"%string)) as [Hname|Hname].
    + rewrite bool_decide_true by done. rewrite bool_decide_true; [done|].
      rewrite Hname. apply (bool_decide_unpack _). by vm_compute.
    + rewrite bool_decide_false by done. by case_bool_decide.
Qed.
End ControllerFacts.

Lemma registerAction_executeAction_witness :
  executeAction "actionObj.function is not a function"
    (registerAction "done" "Finish the task." ex_finish None false noActions)
    (ActionModel.mk "done" ∅) tt tt
  = (tt, inr ex_finished)
  /\ executeAction "actionObj.function is not a function"
       (registerAction "done" "Finish the task." ex_finish None false noActions)
       (ActionModel.mk "toString" ∅) tt tt
     = executeAction "actionObj.function is not a function" noActions
         (ActionModel.mk "toString" ∅) tt tt.
Proof.
  split.
  - apply (registerAction_executeAction "actionObj.function is not a function"
             "done" "Finish the task." ex_finish None false noActions
             (ActionModel.mk "done" ∅) tt tt).
    reflexivity.
  - apply (registerAction_executeAction "actionObj.function is not a function"
             "done" "Finish the task." ex_finish None false noActions
             (ActionModel.mk "toString" ∅) tt tt); discriminate.
Defined.

(** ** Tabs *)

Lemma getTabsInfo_from_lookup firstId pages tabsInfo i tab :
  getTabsInfo_from firstId pages = inr tabsInfo ->
  tabsInfo !! i = Some tab ->
  pageId tab = (firstId + i)%nat
  /\ exists page, pages !! i = Some page /\ pageUrl page = tabUrl tab
       /\ pageTitle page = inr (title tab).
Proof.
  revert firstId tabsInfo i. induction pages as [|page pages IH]; intros firstId tabsInfo i.
  { intros [= <-]. by rewrite lookup_nil. }
  cbn [getTabsInfo_from].
  destruct (pageTitle page) as [e|t] eqn:Ht; [done|].
  destruct (getTabsInfo_from (S firstId) pages) as [e|rest] eqn:E; [done|].
  intros [= <-]. destruct i as [|i]; cbn.
  - intros [= <-]. cbn. split; [lia|]. by exists page.
  - intros Hi. destruct (IH _ _ _ E Hi) as (Hid & p & Hp & Hu & Htitle).
    split; [lia|]. by exists p.
Qed.

(** X26.  The page ids that [getTabsInfo] reports are the positions of the
    pages, and [switchToTab] on a reported id makes the page it was
    reported for the current page.  An id from the number of pages on is
    refused with "No tab found" and leaves the current page alone; a
    negative id is not refused: the call fails, and the current page is
    lost.  (Ids are whole numbers here.) *)
Theorem getTabsInfo_switchToTab (bringToFront : Page -> option Error)
    (pages : list Page) (tabsInfo : list TabInfo) (currentPage : option Page) :
  getTabsInfo pages = inr tabsInfo ->
  (forall i tab, tabsInfo !! i = Some tab ->
     pageId tab = i
     /\ exists page,
          pages !! i = Some page
          /\ pageUrl page = tabUrl tab
          /\ switchToTab bringToFront (Z.of_nat (pageId tab)) pages currentPage
             = (Some page, bringToFront page))
  /\ (forall requested, (Z.of_nat (length pages) <= requested)%Z ->
        switchToTab bringToFront requested pages currentPage
        = (currentPage, Some ("No tab found with page_id: " +:+ pretty requested)))
  /\ (forall requested, (requested < 0)%Z ->
        exists error,
          switchToTab bringToFront requested pages currentPage = (None, Some error)).
Proof.
  intros Htabs. split; [|split].
  - intros i tab Hi.
    destruct (getTabsInfo_from_lookup 0 pages tabsInfo i tab Htabs Hi)
      as (Hid & page & Hpage & Hurl & _).
    cbn in Hid. split; [done|]. exists page. split; [done|]. split; [done|].
    unfold switchToTab, pageAt. rewrite Hid.
    apply lookup_lt_Some in Hpage as Hlt.
    rewrite (proj2 (Z.leb_gt _ _)) by lia.
    rewrite (proj2 (Z.leb_le _ _)) by lia.
    by rewrite Nat2Z.id, Hpage.
  - intros requested Hge. unfold switchToTab.
    by rewrite (proj2 (Z.leb_le _ _)) by lia.
  - intros requested Hneg. unfold switchToTab, pageAt.
    rewrite (proj2 (Z.leb_gt _ _)) by lia.
    rewrite (proj2 (Z.leb_gt 0 requested)) by lia. by eexists.
Qed.

Lemma getTabsInfo_switchToTab_witness :
  switchToTab (fun _ => None) 1 ex_pages None
  = (Some (mkPage "https://example.com/b" (inr "B")), None)
  /\ switchToTab (fun _ => None) 2 ex_pages None
     = (None, Some "No tab found with page_id: 2")
  /\ (switchToTab (fun _ => None) (-1) ex_pages
        (Some (mkPage "https://example.com/a" (inr "A")))).1 = None.
Proof.
  destruct (getTabsInfo_switchToTab (fun _ => None) ex_pages
              [mkTabInfo 0 "https://example.com/a" "A";
               mkTabInfo 1 "https://example.com/b" "B"] None eq_refl)
    as (H1 & H2 & _).
  destruct (getTabsInfo_switchToTab (fun _ => None) ex_pages
              [mkTabInfo 0 "https://example.com/a" "A";
               mkTabInfo 1 "https://example.com/b" "B"]
              (Some (mkPage "https://example.com/a" (inr "A"))) eq_refl)
    as (_ & _ & H3).
  split; [|split].
  - destruct (H1 1%nat (mkTabInfo 1 "https://example.com/b" "B") eq_refl)
      as (_ & page & [= <-] & _ & Hswitch).
    exact Hswitch.
  - apply (H2 2%Z). cbn. lia.
  - destruct (H3 (-1)%Z) as [error ->]; [lia|done].
Defined.

(** ** Highlights *)

Lemma placeLabel_within rect placedLabels imageWidth imageHeight :
  (labelWidth + 1 <= imageWidth -> 
   0 <= (placeLabel rect placedLabels imageWidth imageHeight).1.1
   /\ (placeLabel rect placedLabels imageWidth imageHeight).1.1 + labelWidth < imageWidth)
  /\ (labelHeight + 1 <= imageHeight ->
      0 <= (placeLabel rect placedLabels imageWidth imageHeight).1.2
      /\ (placeLabel rect placedLabels imageWidth imageHeight).1.2 + labelHeight
         < imageHeight).
Proof.
  unfold placeLabel. cbv zeta.
  set (labelX := if _ || _ then _ else _).
  destruct (List.find _ placedLabels) as [existing|]; cbn [fst snd].
  - split; intros H.
    + destruct (Qlt_bool labelX 0) eqn:E1; [unfold labelWidth, textWidth in *; lra|].
      apply Qlt_bool_false in E1.
      destruct (Qle_bool imageWidth _) eqn:E2.
      * unfold labelWidth, textWidth in *; lra.
      * split; [done|]. apply Qlt_bool_iff. unfold Qlt_bool. by rewrite E2.
    + destruct (Qlt_bool (labelBottom existing + 2) 0) eqn:E1;
        [unfold labelHeight, textHeight in *; lra|].
      apply Qlt_bool_false in E1.
      destruct (Qle_bool imageHeight _) eqn:E2.
      * unfold labelHeight, textHeight in *; lra.
      * split; [done|]. apply Qlt_bool_iff. unfold Qlt_bool. by rewrite E2.
  - split; intros H.
    + destruct (Qlt_bool labelX 0) eqn:E1; [unfold labelWidth, textWidth in *; lra|].
      apply Qlt_bool_false in E1.
      destruct (Qle_bool imageWidth _) eqn:E2.
      * unfold labelWidth, textWidth in *; lra.
      * split; [done|]. apply Qlt_bool_iff. unfold Qlt_bool. by rewrite E2.
    + destruct (Qlt_bool (Rect.top rect) 0) eqn:E1;
        [unfold labelHeight, textHeight in *; lra|].
      apply Qlt_bool_false in E1.
      destruct (Qle_bool imageHeight _) eqn:E2.
      * unfold labelHeight, textHeight in *; lra.
      * split; [done|]. apply Qlt_bool_iff. unfold Qlt_bool. by rewrite E2.
Qed.

Lemma generateUniqueColor_valid (idx : nat) :
  validColor idx
    (generateUniqueColor (nth (idx mod length baseColors) baseColors (mkRGBColor 0 0 0))
       (Z.of_nat idx)).
Proof.
  unfold validColor. cbv zeta.
  assert (Hbase : Forall (fun c => (0 <= red c <= 255 /\ 0 <= green c <= 255
                                    /\ 0 <= blue c <= 255)%Z) baseColors).
  { unfold baseColors. repeat constructor; cbn; lia. }
  assert (Hin : nth (idx mod length baseColors) baseColors (mkRGBColor 0 0 0) ∈ baseColors).
  { apply list_elem_of_In, nth_In. apply Nat.mod_upper_bound. by cbn. }
  rewrite Forall_forall in Hbase. specialize (Hbase _ Hin).
  set (base := nth (idx mod length baseColors) baseColors (mkRGBColor 0 0 0)) in *.
  clearbody base. destruct Hbase as (Hr & Hg & Hb).
  unfold generateUniqueColor. cbn [red green blue].
  pose proof (Z.rem_bound_pos (Z.of_nat idx * 17) 31) as H1.
  pose proof (Z.rem_bound_pos (Z.of_nat idx * 23) 29) as H2.
  pose proof (Z.rem_bound_pos (Z.of_nat idx * 13) 27) as H3.
  lia.
Qed.

Section HighlightFacts.
Context (imageWidth imageHeight : Q).

Lemma highlightStep_ok composites placedLabels entry :
  Forall (overlayOk imageWidth imageHeight) composites ->
  Forall (overlayOk imageWidth imageHeight) (highlightStep imageWidth imageHeight (composites, placedLabels) entry).1
  /\ length (highlightStep imageWidth imageHeight (composites, placedLabels) entry).1
     = (length composites + if isSheetsElement entry.2 then 0 else 2)%nat.
Proof.
  intros Hok. destruct entry as [idx element]. unfold highlightStep. cbn [snd].
  destruct (isSheetsElement element); [split; [done|cbn; lia]|].
  pose proof (placeLabel_within (rect element) placedLabels imageWidth imageHeight)
    as [Hx Hy].
  destruct (placeLabel (rect element) placedLabels imageWidth imageHeight)
    as [[labelX labelY] labelRect].
  cbn [fst snd] in *. split.
  - apply Forall_app. split; [done|].
    pose proof (generateUniqueColor_valid idx) as Hcolor.
    constructor; [by exists idx|]. constructor; [|constructor].
    cbn. split; [by exists idx|]. split; [done|]. split; [done|].
    split; [exact Hx|exact Hy].
  - rewrite length_app. cbn. lia.
Qed.

Lemma highlight_fold_ok entries composites placedLabels :
  Forall (overlayOk imageWidth imageHeight) composites ->
  Forall (overlayOk imageWidth imageHeight)
    (fold_left (highlightStep imageWidth imageHeight) entries (composites, placedLabels)).1
  /\ length
       (fold_left (highlightStep imageWidth imageHeight) entries
          (composites, placedLabels)).1
     = (length composites
        + 2 * length (List.filter (fun entry => negb (isSheetsElement entry.2)) entries))%nat.
Proof.
  revert composites placedLabels.
  induction entries as [|entry entries IH]; intros composites placedLabels Hok.
  { cbn. split; [done|lia]. }
  cbn [fold_left].
  destruct (highlightStep_ok composites placedLabels entry Hok) as [Hok1 Hlen1].
  destruct (highlightStep imageWidth imageHeight (composites, placedLabels) entry)
    as [composites1 placedLabels1].
  cbn [fst] in *. destruct (IH composites1 placedLabels1 Hok1) as [Hok2 Hlen2].
  split; [done|]. rewrite Hlen2, Hlen1. cbn [List.filter].
  destruct (isSheetsElement entry.2); cbn; lia.
Qed.

(** X27.  On an image at least 15 pixels wide and 17 pixels high every
    label that [putHighlightElementsOnScreenshot] draws lies inside the
    image, wherever the rectangle of its element is and whatever labels
    were placed before it. *)
Theorem highlightOverlays_labels (entries : list (nat * InteractiveElement))
    (x y width height : Q) (color : RGBColor) (text : string) :
  labelWidth + 1 <= imageWidth ->
  labelHeight + 1 <= imageHeight ->
  LabelOverlay x y width height color text
    ∈ highlightOverlays imageWidth imageHeight entries ->
  0 <= x /\ x + width < imageWidth /\ 0 <= y /\ y + height < imageHeight.
Proof.
  intros Hw Hh Hin.
  destruct (highlight_fold_ok entries [] [] (List.Forall_nil _)) as [Hok _].
  rewrite Forall_forall in Hok. specialize (Hok _ Hin).
  destruct Hok as (_ & _ & _ & Hx & Hy). split; [apply Hx, Hw|].
  split; [apply Hx, Hw|]. split; [apply Hy, Hh|apply Hy, Hh].
Qed.

End HighlightFacts.

Lemma highlightOverlays_labels_witness :
  0 <= 86 /\ 86 + 14 < 1024 /\ 0 <= 0 /\ 0 + 16 < 768.
Proof.
  apply (highlightOverlays_labels 1024 768 [(0%nat, ex_menu)] 86 0 14 16
           (mkRGBColor 189 0 0) "0").
  - by vm_compute.
  - by vm_compute.
  - vm_compute. apply list_elem_of_further, list_elem_of_here.
Defined.


(** ** Clicking an element *)

Module ClickElementFacts.
Import Stdlib.Strings.Ascii JsString ClickElement.

Lemma isDigitChar_pretty_N_char d : isDigitChar (pretty_N_char d) = true.
Proof. unfold pretty_N_char. by repeat case_match. Qed.

Lemma digitValue_pretty_N_char d : (d < 10)%N -> digitValue (pretty_N_char d) = d.
Proof.
  intros Hd.
  assert (d = 0 \/ d = 1 \/ d = 2 \/ d = 3 \/ d = 4 \/ d = 5 \/ d = 6 \/ d = 7
          \/ d = 8 \/ d = 9)%N as H by lia.
  by repeat (destruct H as [->|H]); try subst d.
Qed.

(** The digits [pretty_N_go] puts in front of [s] are digits, and read
    back they denote [x]. *)
Lemma pretty_N_go_digits x s :
  exists digits,
    chars (pretty_N_go x s) = digits ++ chars s
    /\ forallb isDigitChar digits = true
    /\ forall acc,
         foldl (fun n c => 10 * n + digitValue c)%N acc digits
         = (acc * 10 ^ N.of_nat (length digits) + x)%N.
Proof.
  revert s. induction (N.lt_wf_0 x) as [x _ IH]; intros s.
  assert (x = 0 \/ 0 < x)%N as [->|Hpos] by lia.
  { exists []. rewrite pretty_N_go_0. split; [done|]. split; [done|].
    intros acc. cbn. lia. }
  rewrite pretty_N_go_step by done.
  destruct (IH (x `div` 10)%N (N.div_lt x 10 Hpos eq_refl)
              (String (pretty_N_char (x `mod` 10)) s)) as (digits & Hd & Hall & Hval).
  exists (digits ++ [pretty_N_char (x `mod` 10)]). split; [|split].
  - rewrite Hd. cbn [chars String.list_ascii_of_string]. by rewrite <- app_assoc.
  - rewrite forallb_app, Hall. cbn. by rewrite isDigitChar_pretty_N_char.
  - intros acc. rewrite foldl_app, Hval. cbn [foldl].
    rewrite digitValue_pretty_N_char by (apply N.mod_lt; lia).
    rewrite length_app, Nat.add_1_r, Nat2N.inj_succ, N.pow_succ_r'.
    pose proof (N.div_mod x 10). lia.
Qed.

Lemma pretty_N_digits (n : N) :
  forallb isDigitChar (chars (pretty n)) = true
  /\ decimalValue (chars (pretty n)) = n
  /\ chars (pretty n) <> [].
Proof.
  unfold pretty, pretty_N. destruct (decide (n = 0)%N) as [->|Hne]; [done|].
  destruct (pretty_N_go_digits n "") as (digits & Hd & Hall & Hval).
  cbn [chars String.list_ascii_of_string] in Hd. rewrite app_nil_r in Hd.
  fold (chars (pretty_N_go n "")). rewrite Hd. split; [done|]. split.
  - unfold decimalValue. rewrite Hval. lia.
  - intros ->. specialize (Hval 0%N). cbn in Hval. lia.
Qed.

Lemma filter_forallb {A} (f : A -> bool) l :
  forallb f l = true -> List.filter f l = l.
Proof.
  induction l as [|a l IH]; cbn; [done|].
  intros [-> H]%andb_true_iff. by rewrite IH.
Qed.

Section ClickFacts.
Context (nearestDouble : N -> N)
        (exponentText : N -> string)
        (clickAt : InteractiveElement -> N -> bool -> Error + string).

Local Abbreviation click_element_ := (click_element nearestDouble exponentText clickAt).

(** X29.  [click_element] reads its index off the decimal digits of what it
    is given and drops every other character, a sign and a decimal point
    among them: if the digits are those of a number [n] below 2^53, the
    call acts on element [n] of the state, reporting that it does not
    exist or clicking it, and an error caught while clicking is reported in
    the result.  If there is no digit, the result is the error "`index`
    should be a valid number.", also when the browser has no state. *)
Theorem click_element_digits_only (indexText : string) (waitAfterClick : bool) :
  (forall (state : BrowserState.t) (n : N),
     (n < 2 ^ 53)%N ->
     List.filter isDigitChar (chars indexText) = chars (pretty n) ->
     click_element_ indexText waitAfterClick (Some state)
     = inr (clickOutcome clickAt n waitAfterClick state))
  /\ (List.filter isDigitChar (chars indexText) = [] ->
      forall state, click_element_ indexText waitAfterClick state
      = inr (ActionResult.mk None None (Some "`index` should be a valid number.") None)).
Proof.
  split; [|unfold click_element; cbv zeta; by intros ->].
  intros state n Hn Hdigits. unfold click_element. cbv zeta. rewrite Hdigits.
  destruct (pretty_N_digits n) as (_ & Hval & Hne).
  destruct (chars (pretty n)) as [|c l] eqn:E; [done|].
  unfold parseInt10. cbv zeta. rewrite Hval.
  rewrite (proj2 (N.ltb_lt _ _) Hn). unfold clickOutcome, numberText.
  assert (n < 10 ^ 21)%N as Hlt by (etrans; [exact Hn|by vm_compute]).
  rewrite (proj2 (N.ltb_lt _ _) Hlt).
  destruct (_ !! _); [|done]. by destruct (clickAt _ _ _).
Qed.
End ClickFacts.

Lemma click_element_digits_only_witness :
  click_element (fun n => n) (fun _ => ""%string) (fun _ _ _ => inr "Clicked"%string)
    "-1.5" false (Some (assembleState ex_capture))
  = inr (clickOutcome (fun _ _ _ => inr "Clicked"%string) 15 false
           (assembleState ex_capture)).
Proof.
  apply (click_element_digits_only (fun n => n) (fun _ => ""%string)
           (fun _ _ _ => inr "Clicked"%string) "-1.5" false).
  - by vm_compute.
  - reflexivity.
Defined.

End ClickElementFacts.
